(** * Session concurrency and streaming orchestrator of the Telegram bot

    A shallow embedding of [src/heartbeat.ts], [src/utils.ts]
    ([checkInterrupt]), [src/handlers/streaming.ts] and
    [src/handlers/text.ts], together with the properties the
    specification states about them. *)

From Stdlib Require Import ZArith NArith List String Ascii Bool Lia.
From stdpp Require Import base option list gmap.
Import ListNotations.

Local Open Scope N_scope.

(** ** JavaScript strings

    A JavaScript string is a sequence of UTF-16 code units; [length],
    [slice], [includes], [replace] and [trim] all work on code units. *)

Module JS.

Abbreviation jsstring := (list N).

(** The code units of an ASCII literal. *)
Definition lit (s : string) : jsstring :=
  map N_of_ascii (list_ascii_of_string s).

(** [!s] is false exactly for the empty string. *)
Definition truthy (s : jsstring) : bool :=
  match s with [] => false | _ :: _ => true end.

(** ECMAScript [WhiteSpace] and [LineTerminator] code units, the ones
    [String.prototype.trim] strips. *)
Definition isWhiteSpace (c : N) : bool :=
  ((9 <=? c) && (c <=? 13))
  || (c =? 32) || (c =? 160) || (c =? 5760)
  || ((8192 <=? c) && (c <=? 8202))
  || (c =? 8232) || (c =? 8233) || (c =? 8239) || (c =? 8287)
  || (c =? 12288) || (c =? 65279).

Fixpoint trimStart (s : jsstring) : jsstring :=
  match s with
  | [] => []
  | c :: t => if isWhiteSpace c then trimStart t else s
  end.

Definition trimEnd (s : jsstring) : jsstring :=
  rev (trimStart (rev s)).

Definition trim (s : jsstring) : jsstring := trimEnd (trimStart s).

Fixpoint startsWith (s p : jsstring) : bool :=
  match p, s with
  | [], _ => true
  | _ :: _, [] => false
  | a :: p', c :: s' => (c =? a) && startsWith s' p'
  end.

Fixpoint includes (s p : jsstring) : bool :=
  startsWith s p ||
  match s with
  | [] => false
  | _ :: t => includes t p
  end.

(** [s.replace(p, r)] with a string pattern: only the first occurrence
    is replaced. *)
Fixpoint replace (s p r : jsstring) : jsstring :=
  if startsWith s p then r ++ skipn (length p) s
  else match s with
       | [] => []
       | c :: t => c :: replace t p r
       end.

(** [s.slice(i, j)] for [0 <= i] and [0 <= j]. *)
Definition slice (s : jsstring) (i j : nat) : jsstring :=
  firstn (j - i) (skipn i s).

(** [s.slice(i)] for [0 <= i]. *)
Definition sliceFrom (s : jsstring) (i : nat) : jsstring := skipn i s.

End JS.

Import JS.

(** ** Regular expressions of the acknowledgment patterns

    The patterns of [shouldSuppressHeartbeatResponse] are anchored at both
    ends and carry the [i] flag; they use literals, alternation and an
    optional final dot only. *)

Module Regex.

Inductive regex : Type :=
| Nul : regex                       (* matches nothing *)
| Eps : regex                       (* the empty string *)
| Chr : N -> regex                  (* one code unit *)
| Cat : regex -> regex -> regex
| Alt : regex -> regex -> regex
| Opt : regex -> regex.             (* [r?] *)

(** [Canonicalize] of a regular expression without the [u] flag, on the
    code units whose image is the image of a character of the patterns
    below: ASCII letters, the Latin-1 letters, and the pair U+0152/U+0153.
    U+00FF maps to U+0178. A code unit above 127 never maps into ASCII, so
    the Kelvin sign and the long s stay themselves. *)
Definition canonicalize (c : N) : N :=
  if (97 <=? c) && (c <=? 122) then c - 32
  else if (224 <=? c) && (c <=? 254) && negb (c =? 247) then c - 32
  else if c =? 255 then 376
  else if c =? 339 then 338
  else c.

Definition chr_eqb_i (a c : N) : bool := canonicalize a =? canonicalize c.

Fixpoint nullable (r : regex) : bool :=
  match r with
  | Nul => false
  | Eps => true
  | Chr _ => false
  | Cat r1 r2 => nullable r1 && nullable r2
  | Alt r1 r2 => nullable r1 || nullable r2
  | Opt _ => true
  end.

(** Derivative of [r] by the input code unit [c], ignoring case. *)
Fixpoint deriv (c : N) (r : regex) : regex :=
  match r with
  | Nul => Nul
  | Eps => Nul
  | Chr a => if chr_eqb_i a c then Eps else Nul
  | Cat r1 r2 =>
      if nullable r1 then Alt (Cat (deriv c r1) r2) (deriv c r2)
      else Cat (deriv c r1) r2
  | Alt r1 r2 => Alt (deriv c r1) (deriv c r2)
  | Opt r1 => deriv c r1
  end.

(** [/^r$/i.test(s)] *)
Fixpoint test (r : regex) (s : jsstring) : bool :=
  match s with
  | [] => nullable r
  | c :: t => test (deriv c r) t
  end.

(** A literal, and an alternation of literals. *)
Definition word (w : jsstring) : regex := fold_right (fun c r => Cat (Chr c) r) Eps w.
Definition alts (ws : list jsstring) : regex := fold_right (fun w r => Alt (word w) r) Nul ws.

End Regex.

Import Regex.

(** ** [src/heartbeat.ts]: response suppression *)

Definition HEARTBEAT_TOKEN : jsstring := lit "[[HEARTBEAT_ACK]]".

Definition MAX_ACK_LENGTH : nat := 30.

(** The three pattern literals. The fourth and fifth alternatives of the
    first pattern are the code units U+00E2 U+0153 U+201C and
    U+00F0 U+0178 U+2018, as they stand in the source file. *)
Definition ackWords1 : list jsstring :=
  [ lit "ok"; lit "okay"; lit "ack"; lit "acknowledged"; lit "noted";
    [226; 339; 8220]; [240; 376; 8216] ].
Definition ackWords2 : list jsstring :=
  [ lit "ok"; lit "received"; lit "acknowledged" ].
Definition ackWords3 : list jsstring :=
  [ lit "active"; lit "alive" ].

Definition ackPatterns : list regex :=
  [ Cat (alts ackWords1) (Opt (Chr 46));
    Cat (word (lit "heartbeat ")) (Cat (alts ackWords2) (Opt (Chr 46)));
    Cat (word (lit "session ")) (Cat (alts ackWords3) (Opt (Chr 46))) ].

Definition shouldSuppressHeartbeatResponse (response : jsstring) : bool :=
  if negb (truthy response) then true
  else
    let trimmed := trim response in
    if negb (truthy trimmed) then true
    else
      let ackTest := existsb (fun pattern => test pattern trimmed) ackPatterns in
      if includes trimmed HEARTBEAT_TOKEN then
        let stripped := trim (replace trimmed HEARTBEAT_TOKEN []) in
        if negb (truthy stripped) || (length stripped <=? MAX_ACK_LENGTH)%nat
        then true
        else ackTest
      else ackTest.

Definition stripHeartbeatToken (response : jsstring) : jsstring :=
  trim (replace response HEARTBEAT_TOKEN []).

(** ** Configuration constants ([src/config.ts]) *)

Definition TELEGRAM_MESSAGE_LIMIT : nat := 4096.
Definition TELEGRAM_SAFE_LIMIT : nat := 4000.
Definition STREAMING_THROTTLE_MS : Z := 500.
Definition MAX_RETRIES : nat := 1.

(** ** Data model *)

(** A Telegram message handle: [msg.chat.id] and [msg.message_id]. *)
Record Message : Type := mkMessage { chat_id : Z; message_id : Z }.

Inductive ParseMode : Type := HTML | Plain.

(** The calls made on the chat transport ([ctx.reply],
    [ctx.api.editMessageText], [ctx.api.deleteMessage]). *)
Inductive TransportCall : Type :=
| Reply (chat : Z) (text : jsstring) (mode : ParseMode)
| EditMessageText (chat msg : Z) (text : jsstring) (mode : ParseMode)
| DeleteMessage (chat msg : Z).

(** Modelled from the spec: the session object of [src/session.ts], which
    is not among the source files. Its fields are the ones of the
    specification's data model; [isActive] is "a sessionId exists". *)
Record Session : Type := mkSession {
  sessionId : option jsstring;
  isRunning : bool;
  stopRequested : bool;
  interruptRequested : bool;
  conversationTitle : option jsstring;
  lastMessage : option jsstring;
  contextWarning : option jsstring
}.

Definition isActive (s : Session) : bool :=
  match sessionId s with Some _ => true | None => false end.

(** The [StreamingState] class of [src/handlers/streaming.ts]. *)
Record StreamingState : Type := mkStreamingState {
  textMessages : gmap Z Message;
  toolMessages : list Message;
  lastEditTimes : gmap Z Z
}.

Definition newState : StreamingState :=
  {| textMessages := ∅; toolMessages := []; lastEditTimes := ∅ |}.

Inductive SessionOp : Type :=
| OpStartProcessing | OpStopProcessing
| OpMarkInterrupt | OpStop | OpClearStopRequested
| OpConsumeInterruptFlag | OpConsumeContextWarning | OpKill.

Inductive QueryResult : Type :=
| Resolve (finalText : jsstring)
| Reject (errorStr : jsstring).      (* [String(error)] of the failure *)

Record AuditEntry : Type := mkAudit {
  audit_event : jsstring;
  audit_user : Z;
  audit_username : jsstring;
  audit_type : jsstring;
  audit_content : jsstring;
  audit_response : jsstring
}.

(** What an observer of the process sees, in order. *)
Inductive Event : Type :=
| Sent (call : TransportCall) (ok : bool)
| SessionCall (op : SessionOp)
| Invoked (prompt username : jsstring) (userId : Z) (chatId : option Z)
| Ended (result : QueryResult)
| Audited (e : AuditEntry).

(** What another handler does to the session while a query is suspended. *)
Inductive ConcurrentOp : Type :=
| InterruptMessage (text : jsstring)   (* a new message reaches [checkInterrupt] *)
| StopCommand.                         (* the user asks to stop: [session.stop()] *)

(** One step of the assistant process adapter during a query. *)
Inductive AdapterStep : Type :=
| Emit (now : Z) (statusType content : jsstring) (segmentId : option Z)
| SessionCreated (sid : jsstring)
| ContextWarning (warning : jsstring)
| Concurrent (op : ConcurrentOp).

Record Script : Type := mkScript {
  steps : list AdapterStep;
  result : QueryResult
}.

(** The incoming update, as far as the handlers read it. *)
Record Context : Type := mkContext {
  from_id : option Z;
  from_username : option jsstring;
  chat : option Z;
  message_text : option jsstring
}.

(** The collaborators outside the source files, consumed as oracles. *)
Record Env : Type := mkEnv {
  (* [convertMarkdownToHtml] of [src/formatting.ts] *)
  convertMarkdownToHtml : jsstring -> jsstring;
  (* whether the n-th transport call fails, and with which error *)
  transportFailure : nat -> TransportCall -> option jsstring;
  (* the behaviour of the assistant process at the n-th query *)
  adapter : nat -> Script;
  (* [isAuthorized(userId, ALLOWED_USERS)] of [src/security.ts] *)
  isAuthorized : Z -> bool;
  (* [rateLimiter.check(userId)]: allowed, and [retryAfter.toFixed(1)] *)
  rateLimiterCheck : Z -> bool * jsstring;
  HEARTBEAT_PROMPT : jsstring;
  (* whether the adapter acknowledges a cancellation at once *)
  stopAcknowledged : bool
}.

Record World : Type := mkWorld {
  session : Session;
  heap : list StreamingState;     (* the [StreamingState] objects allocated *)
  log : list Event;
  ncalls : nat;                   (* transport calls made so far *)
  ninvocations : nat;             (* queries issued so far *)
  clock : Z;                      (* [Date.now()] *)
  typingLoops : nat;              (* typing indicators still running *)
  lastHeartbeat : option Z
}.

(** ** Effects: state and exceptions *)

Inductive Outcome (A : Type) : Type :=
| Returned (a : A)
| Thrown (errorStr : jsstring).
Arguments Returned {A} a.
Arguments Thrown {A} errorStr.

Definition M (A : Type) : Type := World -> Outcome A * World.

#[global] Instance M_ret : MRet M := fun A a w => (Returned a, w).

#[global] Instance M_bind : MBind M := fun A B f m w =>
  match m w with
  | (Returned a, w') => f a w'
  | (Thrown e, w') => (Thrown e, w')
  end.

Definition throw {A} (e : jsstring) : M A := fun w => (Thrown e, w).

(** [try { m } catch (error) { h(String(error)) }] *)
Definition try_catch {A} (m : M A) (h : jsstring -> M A) : M A := fun w =>
  match m w with
  | (Returned a, w') => (Returned a, w')
  | (Thrown e, w') => h e w'
  end.

(** [try { m } finally { f }] does not occur in the text handler; the
    document and photo handlers use it. *)
Definition try_finally {A} (m : M A) (f : M unit) : M A := fun w =>
  match m w with
  | (r, w') => match f w' with
               | (Returned _, w'') => (r, w'')
               | (Thrown e, w'') => (Thrown e, w'')
               end
  end.

Definition exec {A} (m : M A) (w : World) : World := snd (m w).
Definition outcome {A} (m : M A) (w : World) : Outcome A := fst (m w).

Definition get : M World := fun w => (Returned w, w).
Definition modify (f : World -> World) : M unit := fun w => (Returned tt, f w).

(** Field updates of the world. *)
Definition wSession (s : Session) (w : World) : World :=
  {| session := s; heap := heap w; log := log w;
     ncalls := ncalls w; ninvocations := ninvocations w;
     clock := clock w; typingLoops := typingLoops w;
     lastHeartbeat := lastHeartbeat w |}.

Definition wHeap (h : list StreamingState) (w : World) : World :=
  {| session := session w; heap := h; log := log w;
     ncalls := ncalls w; ninvocations := ninvocations w;
     clock := clock w; typingLoops := typingLoops w;
     lastHeartbeat := lastHeartbeat w |}.

Definition wLog (l : list Event) (w : World) : World :=
  {| session := session w; heap := heap w; log := l;
     ncalls := ncalls w; ninvocations := ninvocations w;
     clock := clock w; typingLoops := typingLoops w;
     lastHeartbeat := lastHeartbeat w |}.

Definition wCalls (n : nat) (w : World) : World :=
  {| session := session w; heap := heap w; log := log w;
     ncalls := n; ninvocations := ninvocations w;
     clock := clock w; typingLoops := typingLoops w;
     lastHeartbeat := lastHeartbeat w |}.

Definition wInvocations (n : nat) (w : World) : World :=
  {| session := session w; heap := heap w; log := log w;
     ncalls := ncalls w; ninvocations := n;
     clock := clock w; typingLoops := typingLoops w;
     lastHeartbeat := lastHeartbeat w |}.

Definition wClock (t : Z) (w : World) : World :=
  {| session := session w; heap := heap w; log := log w;
     ncalls := ncalls w; ninvocations := ninvocations w;
     clock := t; typingLoops := typingLoops w;
     lastHeartbeat := lastHeartbeat w |}.

Definition wTypingLoops (n : nat) (w : World) : World :=
  {| session := session w; heap := heap w; log := log w;
     ncalls := ncalls w; ninvocations := ninvocations w;
     clock := clock w; typingLoops := n;
     lastHeartbeat := lastHeartbeat w |}.

Definition wLastHeartbeat (o : option Z) (w : World) : World :=
  {| session := session w; heap := heap w; log := log w;
     ncalls := ncalls w; ninvocations := ninvocations w;
     clock := clock w; typingLoops := typingLoops w;
     lastHeartbeat := o |}.

Definition emit (e : Event) : M unit := modify (fun w => wLog (log w ++ [e]) w).
Definition setSession (s : Session) : M unit := modify (wSession s).
Definition setHeap (h : list StreamingState) : M unit := modify (wHeap h).
Definition setClock (t : Z) : M unit := modify (wClock t).
Definition setTypingLoops (n : nat) : M unit := modify (wTypingLoops n).
Definition setLastHeartbeat (t : Z) : M unit := modify (wLastHeartbeat (Some t)).

(** Count one more transport call, one more query. *)
Definition tickCalls : M nat := fun w => (Returned (ncalls w), wCalls (S (ncalls w)) w).
Definition tickInvocations : M nat :=
  fun w => (Returned (ninvocations w), wInvocations (S (ninvocations w)) w).

(** [for (const x of xs) { body(x) }] *)
Fixpoint forEach {A} (xs : list A) (body : A -> M unit) : M unit :=
  match xs with
  | [] => mret tt
  | x :: rest => body x ;; forEach rest body
  end.

(** Equality of strings, [===]. *)
Definition streq (a b : jsstring) : bool := bool_decide (a = b).

(** The state object behind the reference [st]. *)
Definition stateAt (w : World) (st : nat) : StreamingState :=
  default newState (heap w !! st).

Definition optTruthy (o : option jsstring) : bool :=
  match o with Some s => truthy s | None => false end.

(** [!n] for a number that may be undefined. *)
Definition numTruthy (o : option Z) : bool :=
  match o with Some n => negb (n =? 0)%Z | None => false end.

Section Program.

Context (env : Env).

(** *** Chat transport *)

Definition transport (c : TransportCall) : M unit :=
  n ← tickCalls;
  match transportFailure env n c with
  | None => emit (Sent c true)
  | Some e => emit (Sent c false) ;; throw e
  end.

(** [ctx.reply(text, { parse_mode })]: the new message takes the number
    of the call as its identifier. *)
Definition reply (ctx : Context) (text : jsstring) (mode : ParseMode) : M Message :=
  w ← get;
  let chatId := default 0%Z (chat ctx) in
  transport (Reply chatId text mode) ;;
  mret {| chat_id := chatId; message_id := Z.of_nat (ncalls w) |}.

Definition editMessageText (msg : Message) (text : jsstring) (mode : ParseMode) : M unit :=
  transport (EditMessageText (chat_id msg) (message_id msg) text mode).

Definition deleteMessage (msg : Message) : M unit :=
  transport (DeleteMessage (chat_id msg) (message_id msg)).

(** *** Session controller

    Modelled from the spec: the methods of the session object of
    [src/session.ts], which is not among the source files, after section
    4.1 of the specification. *)

Definition withRunning (b : bool) (s : Session) : Session :=
  {| sessionId := sessionId s; isRunning := b; stopRequested := stopRequested s;
     interruptRequested := interruptRequested s;
     conversationTitle := conversationTitle s; lastMessage := lastMessage s;
     contextWarning := contextWarning s |}.

Definition withStopRequested (b : bool) (s : Session) : Session :=
  {| sessionId := sessionId s; isRunning := isRunning s; stopRequested := b;
     interruptRequested := interruptRequested s;
     conversationTitle := conversationTitle s; lastMessage := lastMessage s;
     contextWarning := contextWarning s |}.

Definition withInterruptRequested (b : bool) (s : Session) : Session :=
  {| sessionId := sessionId s; isRunning := isRunning s;
     stopRequested := stopRequested s; interruptRequested := b;
     conversationTitle := conversationTitle s; lastMessage := lastMessage s;
     contextWarning := contextWarning s |}.

Definition withSessionId (o : option jsstring) (s : Session) : Session :=
  {| sessionId := o; isRunning := isRunning s; stopRequested := stopRequested s;
     interruptRequested := interruptRequested s;
     conversationTitle := conversationTitle s; lastMessage := lastMessage s;
     contextWarning := contextWarning s |}.

Definition withConversationTitle (o : option jsstring) (s : Session) : Session :=
  {| sessionId := sessionId s; isRunning := isRunning s;
     stopRequested := stopRequested s;
     interruptRequested := interruptRequested s;
     conversationTitle := o; lastMessage := lastMessage s;
     contextWarning := contextWarning s |}.

Definition withLastMessage (o : option jsstring) (s : Session) : Session :=
  {| sessionId := sessionId s; isRunning := isRunning s;
     stopRequested := stopRequested s;
     interruptRequested := interruptRequested s;
     conversationTitle := conversationTitle s; lastMessage := o;
     contextWarning := contextWarning s |}.

Definition withContextWarning (o : option jsstring) (s : Session) : Session :=
  {| sessionId := sessionId s; isRunning := isRunning s;
     stopRequested := stopRequested s;
     interruptRequested := interruptRequested s;
     conversationTitle := conversationTitle s; lastMessage := lastMessage s;
     contextWarning := o |}.

Definition updSession (f : Session -> Session) : M unit :=
  w ← get; setSession (f (session w)).

(** Modelled from the spec: [startProcessing() -> stopFn] marks
    [isRunning = true] and returns a closure that clears it. *)
Definition startProcessing : M (M unit) :=
  emit (SessionCall OpStartProcessing) ;;
  updSession (withRunning true) ;;
  mret (emit (SessionCall OpStopProcessing) ;; updSession (withRunning false)).

(** Modelled from the spec: [markInterrupt()] sets the single-use flag. *)
Definition markInterrupt : M unit :=
  emit (SessionCall OpMarkInterrupt) ;;
  updSession (withInterruptRequested true).

(** Modelled from the spec: [consumeInterruptFlag()] returns the flag and
    clears it. *)
Definition consumeInterruptFlag : M bool :=
  emit (SessionCall OpConsumeInterruptFlag) ;;
  w ← get;
  updSession (withInterruptRequested false) ;;
  mret (interruptRequested (session w)).

(** Modelled from the spec: [clearStopRequested()]. *)
Definition clearStopRequested : M unit :=
  emit (SessionCall OpClearStopRequested) ;;
  updSession (withStopRequested false).

Inductive StopResult : Type := Stopped | Pending | NoOp.

(** Modelled from the spec: [stop()] is a no-op when no query is
    running; otherwise it requests cancellation and answers [stopped] or
    [pending]. *)
Definition stop : M StopResult :=
  emit (SessionCall OpStop) ;;
  w ← get;
  if isRunning (session w) then
    updSession (withStopRequested true) ;;
    mret (if stopAcknowledged env then Stopped else Pending)
  else mret NoOp.

(** Modelled from the spec: [kill()] hard-resets the session identity. *)
Definition kill : M unit :=
  emit (SessionCall OpKill) ;;
  updSession (withSessionId None).

(** Modelled from the spec: [consumeContextWarning()] hands the pending
    warning to the caller, once. *)
Definition consumeContextWarning : M (option jsstring) :=
  emit (SessionCall OpConsumeContextWarning) ;;
  w ← get;
  updSession (withContextWarning None) ;;
  mret (contextWarning (session w)).

(** *** [checkInterrupt] ([src/utils.ts]) *)

(** [Bun.sleep(ms)] *)
Definition sleep (ms : Z) : M unit :=
  w ← get; setClock (clock w + ms)%Z.

Definition checkInterrupt (text : jsstring) : M jsstring :=
  if negb (truthy text) || negb (startsWith text (lit "!")) then mret text
  else
    let strippedText := trimStart (sliceFrom text 1) in
    w ← get;
    (if isRunning (session w) then
       markInterrupt ;;
       _ ← stop;
       sleep 100 ;;
       clearStopRequested
     else mret tt) ;;
    mret strippedText.

(** *** The streaming query

    Modelled from the spec: [sendMessageStreaming] of [src/session.ts],
    which is not among the source files. The query is recorded, the
    adapter's events are handed to [onEvent] in order, and the call
    resolves with the final text or rejects. *)

Definition StatusCallback : Type := jsstring -> jsstring -> option Z -> M unit.

Definition adapterStep (onEvent : StatusCallback) (step : AdapterStep) : M unit :=
  match step with
  | Emit now statusType content segmentId =>
      setClock now ;; onEvent statusType content segmentId
  | SessionCreated sid => updSession (withSessionId (Some sid))
  | ContextWarning warning => updSession (withContextWarning (Some warning))
  | Concurrent (InterruptMessage text) => _ ← checkInterrupt text; mret tt
  | Concurrent StopCommand => _ ← stop; mret tt
  end.

Definition sendMessageStreaming (prompt username : jsstring) (userId : Z)
    (onEvent : StatusCallback) (chatId : option Z) : M jsstring :=
  n ← tickInvocations;
  emit (Invoked prompt username userId chatId) ;;
  let script := adapter env n in
  forEach (steps script) (adapterStep onEvent) ;;
  emit (Ended (result script)) ;;
  match result script with
  | Resolve finalText => mret finalText
  | Reject errorStr => throw errorStr
  end.

(** *** [createStatusCallback] ([src/handlers/streaming.ts]) *)

Definition getState (st : nat) : M StreamingState :=
  w ← get; mret (stateAt w st).

Definition putState (st : nat) (s : StreamingState) : M unit :=
  w ← get; setHeap (<[st := s]> (heap w)).

(** [new StreamingState()] *)
Definition allocState : M nat :=
  w ← get; setHeap (heap w ++ [newState]) ;; mret (length (heap w)).

Definition pushToolMessage (st : nat) (msg : Message) : M unit :=
  s ← getState st;
  putState st {| textMessages := textMessages s;
                 toolMessages := toolMessages s ++ [msg];
                 lastEditTimes := lastEditTimes s |}.

Definition setTextMessage (st : nat) (segmentId : Z) (msg : Message) : M unit :=
  s ← getState st;
  putState st {| textMessages := <[segmentId := msg]> (textMessages s);
                 toolMessages := toolMessages s;
                 lastEditTimes := lastEditTimes s |}.

Definition setLastEditTime (st : nat) (segmentId : Z) (now : Z) : M unit :=
  s ← getState st;
  putState st {| textMessages := textMessages s;
                 toolMessages := toolMessages s;
                 lastEditTimes := <[segmentId := now]> (lastEditTimes s) |}.

(** [content.length > limit ? content.slice(0, limit) + "..." : content] *)
Definition ellipsize (limit : nat) (content : jsstring) : jsstring :=
  if (limit <? length content)%nat then slice content 0 limit ++ lit "..."
  else content.

(** The loop that re-renders an oversized segment, from index [i]. Every
    round advances [i] by [TELEGRAM_SAFE_LIMIT]; [fuel] bounds the rounds
    and is never exhausted when it exceeds the length of [formatted]. *)
Fixpoint sendChunks (fuel : nat) (ctx : Context) (formatted : jsstring) (i : nat) : M unit :=
  match fuel with
  | O => mret tt
  | S fuel' =>
      if (i <? length formatted)%nat then
        let chunk := slice formatted i (i + TELEGRAM_SAFE_LIMIT) in
        try_catch (_ ← reply ctx chunk HTML; mret tt)
                  (fun htmlError => _ ← reply ctx chunk Plain; mret tt) ;;
        sendChunks fuel' ctx formatted (i + TELEGRAM_SAFE_LIMIT)
      else mret tt
  end.

(** The branch of a [thinking] event. *)
Definition onThinking (ctx : Context) (st : nat) (content : jsstring) : M unit :=
  let preview := ellipsize 500 content in
  thinkingMsg ← reply ctx ([55358; 56800] ++ lit " <i>" ++ preview ++ lit "</i>") HTML;
  pushToolMessage st thinkingMsg.

(** The branch of a [tool] event. *)
Definition onTool (ctx : Context) (st : nat) (content : jsstring) : M unit :=
  toolMsg ← reply ctx content HTML;
  pushToolMessage st toolMsg.

(** The branch of a [text] event with a segment identifier. *)
Definition onText (ctx : Context) (st : nat) (content : jsstring) (segmentId : Z) : M unit :=
  w ← get;
  let now := clock w in
  state ← getState st;
  let lastEdit := default 0%Z (lastEditTimes state !! segmentId) in
  match textMessages state !! segmentId with
  | None =>
      let display := ellipsize TELEGRAM_SAFE_LIMIT content in
      let formatted := convertMarkdownToHtml env display in
      try_catch
        (msg ← reply ctx formatted HTML; setTextMessage st segmentId msg)
        (fun htmlError =>
           msg ← reply ctx formatted Plain; setTextMessage st segmentId msg) ;;
      setLastEditTime st segmentId now
  | Some msg =>
      if (now - lastEdit >? STREAMING_THROTTLE_MS)%Z then
        let display := ellipsize TELEGRAM_SAFE_LIMIT content in
        let formatted := convertMarkdownToHtml env display in
        try_catch
          (editMessageText msg formatted HTML)
          (fun htmlError =>
             try_catch (editMessageText msg formatted Plain)
                       (fun editError => mret tt)) ;;
        setLastEditTime st segmentId now
      else mret tt
  end.

(** The branch of a [segment_end] event with a segment identifier. *)
Definition onSegmentEnd (ctx : Context) (st : nat) (content : jsstring) (segmentId : Z) : M unit :=
  state ← getState st;
  match textMessages state !! segmentId with
  | Some msg =>
      if truthy content then
        let formatted := convertMarkdownToHtml env content in
        if (length formatted <=? TELEGRAM_MESSAGE_LIMIT)%nat then
          try_catch (editMessageText msg formatted HTML) (fun error => mret tt)
        else
          try_catch (deleteMessage msg) (fun error => mret tt) ;;
          sendChunks (S (length formatted)) ctx formatted 0
      else mret tt
  | None => mret tt
  end.

(** The branch of a [done] event. *)
Definition onDone (st : nat) : M unit :=
  state ← getState st;
  forEach (toolMessages state) (fun toolMsg =>
    try_catch (deleteMessage toolMsg) (fun error => mret tt)).

(** [statusType === t && segmentId !== undefined] *)
Definition withSegment (statusType t : jsstring) (segmentId : option Z) : option Z :=
  if streq statusType t then segmentId else None.

Definition statusCallback (ctx : Context) (st : nat) : StatusCallback :=
  fun statusType content segmentId =>
  try_catch
    (if streq statusType (lit "thinking") then onThinking ctx st content
     else if streq statusType (lit "tool") then onTool ctx st content
     else match withSegment statusType (lit "text") segmentId with
     | Some segmentId => onText ctx st content segmentId
     | None =>
     match withSegment statusType (lit "segment_end") segmentId with
     | Some segmentId => onSegmentEnd ctx st content segmentId
     | None =>
     if streq statusType (lit "done") then onDone st
     else mret tt
     end end)
    (fun error => mret tt).

(** *** [handleText] ([src/handlers/text.ts]) *)

(** [auditLog] and [auditLogRateLimit] of [src/utils.ts]: the entry is
    appended to the audit log; a failure to write is caught inside
    [writeAuditLog], so neither ever throws. *)
Definition auditLog (userId : Z) (username messageType content response : jsstring) : M unit :=
  emit (Audited {| audit_event := lit "message"; audit_user := userId;
                   audit_username := username; audit_type := messageType;
                   audit_content := content; audit_response := response |}).

Definition auditLogRateLimit (userId : Z) (username retryAfter : jsstring) : M unit :=
  emit (Audited {| audit_event := lit "rate_limit"; audit_user := userId;
                   audit_username := username; audit_type := [];
                   audit_content := retryAfter; audit_response := [] |}).

(** [startTypingIndicator(ctx)]: a loop runs until the returned
    controller's [stop] is called. *)
Definition startTypingIndicator : M (M unit) :=
  w ← get;
  setTypingLoops (S (typingLoops w)) ;;
  mret (w' ← get; setTypingLoops (pred (typingLoops w'))).

Inductive LoopControl : Type := Break | Continue (state : nat).

(** The [try] block of one attempt. *)
Definition handleText_try (ctx : Context) (message username : jsstring)
    (userId : Z) (chatId : Z) (state : nat) : M LoopControl :=
  response ← sendMessageStreaming message username userId
               (statusCallback ctx state) (Some chatId);
  contextWarning ← consumeContextWarning;
  (if optTruthy contextWarning then
     statusCallback ctx state (lit "context_warning") (default [] contextWarning) None
   else mret tt) ;;
  auditLog userId username (lit "TEXT") message response ;;
  mret Break.

(** The [catch] block of one attempt. *)
Definition handleText_catch (ctx : Context) (attempt : nat) (state : nat)
    (errorStr : jsstring) : M LoopControl :=
  let isClaudeCodeCrash := includes errorStr (lit "exited with code") in
  s ← getState state;
  forEach (toolMessages s) (fun toolMsg =>
    try_catch (deleteMessage toolMsg) (fun _ => mret tt)) ;;
  if isClaudeCodeCrash && (attempt <? MAX_RETRIES)%nat then
    kill ;;
    _ ← reply ctx ([9888; 65039] ++ lit " Claude crashed, retrying...") Plain;
    state' ← allocState;
    mret (Continue state')
  else
    (if includes errorStr (lit "abort") || includes errorStr (lit "cancel") then
       wasInterrupt ← consumeInterruptFlag;
       if negb wasInterrupt then
         _ ← reply ctx ([55357; 57041] ++ lit " Query stopped.") Plain; mret tt
       else mret tt
     else
       _ ← reply ctx ([10060] ++ lit " Error: " ++ slice errorStr 0 200) Plain;
       mret tt) ;;
    mret Break.

(** [for (let attempt = 0; attempt <= MAX_RETRIES; attempt++)], with
    [left = MAX_RETRIES + 1 - attempt] rounds to go. *)
Fixpoint handleText_loop (left : nat) (ctx : Context) (message username : jsstring)
    (userId : Z) (chatId : Z) (attempt : nat) (state : nat) : M unit :=
  match left with
  | O => mret tt
  | S left' =>
      control ← try_catch
                  (handleText_try ctx message username userId chatId state)
                  (handleText_catch ctx attempt state);
      match control with
      | Break => mret tt
      | Continue state' =>
          handleText_loop left' ctx message username userId chatId (S attempt) state'
      end
  end.

Definition handleText (ctx : Context) : M unit :=
  let userId := from_id ctx in
  let username := if optTruthy (from_username ctx)
                  then default [] (from_username ctx) else lit "unknown" in
  let chatId := chat ctx in
  let message := message_text ctx in
  if negb (numTruthy userId) || negb (optTruthy message) || negb (numTruthy chatId)
  then mret tt
  else
    let userId := default 0%Z userId in
    let chatId := default 0%Z chatId in
    let message := default [] message in
    if negb (isAuthorized env userId) then
      _ ← reply ctx (lit "Unauthorized. Contact the bot owner for access.") Plain;
      mret tt
    else
      message ← checkInterrupt message;
      if negb (truthy (trim message)) then mret tt
      else
        let '(allowed, retryAfter) := rateLimiterCheck env userId in
        if negb allowed then
          auditLogRateLimit userId username retryAfter ;;
          _ ← reply ctx ([9203] ++ lit " Rate limited. Please wait "
                           ++ retryAfter ++ lit " seconds.") Plain;
          mret tt
        else
          updSession (withLastMessage (Some message)) ;;
          w ← get;
          (if negb (isActive (session w)) then
             let title := if (50 <? length message)%nat
                          then slice message 0 47 ++ lit "..." else message in
             updSession (withConversationTitle (Some title))
           else mret tt) ;;
          stopProcessing ← startProcessing;
          typing ← startTypingIndicator;
          state ← allocState;
          handleText_loop (S MAX_RETRIES) ctx message username userId chatId 0 state ;;
          stopProcessing ;;
          typing.

(** *** [runHeartbeat] ([src/heartbeat.ts]) *)

Definition silentCallback : StatusCallback := fun _ _ _ => mret tt.

Definition runHeartbeat : M unit :=
  w ← get;
  if negb (isActive (session w)) || negb (optTruthy (sessionId (session w)))
  then mret tt
  else if isRunning (session w) then mret tt
  else
    setLastHeartbeat (clock w) ;;
    try_catch
      (response ← sendMessageStreaming (HEARTBEAT_PROMPT env) (lit "heartbeat") 0
                    silentCallback None;
       if shouldSuppressHeartbeatResponse response then mret tt
       else
         let preview := slice (stripHeartbeatToken response) 0 100 in
         mret tt)
      (fun error => mret tt).

End Program.

(** * Further parts of the program

    [startHeartbeat] and [stopHeartbeat] of [src/heartbeat.ts],
    [createAskUserKeyboard] of [src/handlers/streaming.ts], the voice
    transcription of [src/utils.ts], the environment set-up of
    [src/config.ts] and the archive helpers of
    [src/handlers/document.ts]. *)

From Stdlib Require Import DecimalNat Sorted Permutation.

(** ** More of JavaScript's strings and arrays *)

(** [s.endsWith(p)] *)
Definition endsWith (s p : jsstring) : bool := startsWith (rev s) (rev p).

(** [s.split(sep)] for a separator of one code unit. *)
Fixpoint split (sep : N) (s : jsstring) : list jsstring :=
  match s with
  | [] => [[]]
  | c :: t =>
      if c =? sep then [] :: split sep t
      else match split sep t with
           | [] => [[c]]
           | h :: r => (c :: h) :: r
           end
  end.

(** [a.join(sep)] *)
Fixpoint join (sep : jsstring) (a : list jsstring) : jsstring :=
  match a with
  | [] => []
  | x :: rest =>
      match rest with
      | [] => x
      | _ :: _ => x ++ sep ++ join sep rest
      end
  end.

(** [a.includes(x)] for an array of strings. *)
Definition arrayIncludes (a : list jsstring) (x : jsstring) : bool :=
  existsb (streq x) a.

(** [x || d] for an environment variable that may be unset. *)
Definition envOr (x : option jsstring) (d : jsstring) : jsstring :=
  if optTruthy x then default [] x else d.

(** The decimal digits of a natural number, as a template literal
    prints an array index. *)
Fixpoint digits (d : Decimal.uint) : jsstring :=
  match d with
  | Decimal.Nil => []
  | Decimal.D0 d => 48 :: digits d
  | Decimal.D1 d => 49 :: digits d
  | Decimal.D2 d => 50 :: digits d
  | Decimal.D3 d => 51 :: digits d
  | Decimal.D4 d => 52 :: digits d
  | Decimal.D5 d => 53 :: digits d
  | Decimal.D6 d => 54 :: digits d
  | Decimal.D7 d => 55 :: digits d
  | Decimal.D8 d => 56 :: digits d
  | Decimal.D9 d => 57 :: digits d
  end.

Definition decimal (n : nat) : jsstring := digits (Nat.to_uint n).

(** The order of [Array.prototype.sort] without a comparator, on
    strings: code unit by code unit. *)
Fixpoint lexle (a b : jsstring) : bool :=
  match a, b with
  | [], _ => true
  | _ :: _, [] => false
  | x :: a', y :: b' =>
      if x <? y then true else if y <? x then false else lexle a' b'
  end.

Fixpoint insertSorted (x : jsstring) (l : list jsstring) : list jsstring :=
  match l with
  | [] => [x]
  | y :: t => if lexle x y then x :: l else y :: insertSorted x t
  end.

(** [entries.sort()] *)
Fixpoint sortStrings (l : list jsstring) : list jsstring :=
  match l with
  | [] => []
  | x :: t => insertSorted x (sortStrings t)
  end.

(** ** The heartbeat timer ([src/heartbeat.ts])

    The timers of the runtime, as far as the module uses them:
    [setInterval] arms a fresh timer and [clearInterval] disarms one. *)

Record Timers : Type := mkTimers {
  heartbeatTimer : option nat;      (* the module variable, [null] or a timer *)
  armed : list nat;                 (* the intervals the runtime will fire *)
  nextTimer : nat
}.

Definition noTimers : Timers :=
  {| heartbeatTimer := None; armed := []; nextTimer := 0 |}.

Definition setInterval (t : Timers) : nat * Timers :=
  (nextTimer t,
   {| heartbeatTimer := heartbeatTimer t; armed := armed t ++ [nextTimer t];
      nextTimer := S (nextTimer t) |}).

Definition clearInterval (id : nat) (t : Timers) : Timers :=
  {| heartbeatTimer := heartbeatTimer t;
     armed := List.filter (fun j => negb (j =? id)%nat) (armed t);
     nextTimer := nextTimer t |}.

Definition setHeartbeatTimer (o : option nat) (t : Timers) : Timers :=
  {| heartbeatTimer := o; armed := armed t; nextTimer := nextTimer t |}.

Definition startHeartbeat (HEARTBEAT_ENABLED : bool) (t : Timers) : Timers :=
  if negb HEARTBEAT_ENABLED then t
  else match heartbeatTimer t with
       | Some _ => t
       | None => let '(id, t') := setInterval t in setHeartbeatTimer (Some id) t'
       end.

Definition stopHeartbeat (t : Timers) : Timers :=
  match heartbeatTimer t with
  | Some id => setHeartbeatTimer None (clearInterval id t)
  | None => t
  end.

(** What the rest of the program does to the timer. *)
Inductive TimerCall : Type := StartHeartbeat | StopHeartbeat.

Definition timerCall (HEARTBEAT_ENABLED : bool) (t : Timers) (c : TimerCall) : Timers :=
  match c with
  | StartHeartbeat => startHeartbeat HEARTBEAT_ENABLED t
  | StopHeartbeat => stopHeartbeat t
  end.

(** ** [createAskUserKeyboard] ([src/handlers/streaming.ts]) *)

Definition BUTTON_LABEL_MAX_LENGTH : nat := 30.

Record Button : Type := mkButton { button_text : jsstring; callback_data : jsstring }.

(** The [InlineKeyboard] builder of the grammy library: rows of buttons,
    one empty row to begin with; [text] adds a button to the last row and
    [row] opens a new one. *)
Definition InlineKeyboard : Type := list (list Button).

Definition newInlineKeyboard : InlineKeyboard := [[]].

Definition keyboardText (label data : jsstring) (keyboard : InlineKeyboard) : InlineKeyboard :=
  match rev keyboard with
  | [] => []
  | lastRow :: front =>
      rev front ++ [lastRow ++ [{| button_text := label; callback_data := data |}]]
  end.

Definition keyboardRow (keyboard : InlineKeyboard) : InlineKeyboard := keyboard ++ [[]].

(** The loop of [createAskUserKeyboard], from index [idx]. *)
Fixpoint askUserRows (requestId : jsstring) (options : list jsstring) (idx : nat)
    (keyboard : InlineKeyboard) : InlineKeyboard :=
  match options with
  | [] => keyboard
  | option :: rest =>
      let display := if (BUTTON_LABEL_MAX_LENGTH <? length option)%nat
                     then slice option 0 BUTTON_LABEL_MAX_LENGTH ++ lit "..."
                     else option in
      let callbackData := lit "askuser:" ++ requestId ++ lit ":" ++ decimal idx in
      askUserRows requestId rest (S idx)
        (keyboardRow (keyboardText display callbackData keyboard))
  end.

Definition createAskUserKeyboard (requestId : jsstring) (options : list jsstring)
    : InlineKeyboard :=
  askUserRows requestId options 0 newInlineKeyboard.

(** ** Voice transcription ([src/utils.ts]) *)

(** What [googleSpeechClient.recognize] does: it throws (as does reading
    the audio file), or answers with results, each with the transcript of
    its first alternative when there is one. *)
Inductive Recognition : Type :=
| RecognizeThrows
| Recognized (results : option (list (option jsstring))).

(** What [openaiClient.audio.transcriptions.create] does. *)
Inductive Whisper : Type :=
| WhisperThrows
| Whispered (text : jsstring).

(** The configuration and the two services. A client is [None] when its
    credentials are not configured. *)
Record Speech : Type := mkSpeech {
  TRANSCRIPTION_PROVIDER : jsstring;
  googleSpeechClient : option Recognition;
  openaiClient : option Whisper
}.

Inductive Provider : Type := Google | OpenAI.

(** A transcription returns its result, [None] for [null], and the
    providers it has called. *)
Definition transcribeWithGoogle (s : Speech) : option jsstring * list Provider :=
  match googleSpeechClient s with
  | None => (None, [])
  | Some RecognizeThrows => (None, [Google])
  | Some (Recognized results) =>
      let transcription :=
        option_map (fun rs => join (lit " ") (List.filter truthy (omap id rs))) results in
      (if optTruthy transcription then transcription else None, [Google])
  end.

Definition transcribeWithOpenAI (s : Speech) : option jsstring * list Provider :=
  match openaiClient s with
  | None => (None, [])
  | Some WhisperThrows => (None, [OpenAI])
  | Some (Whispered text) => (Some text, [OpenAI])
  end.

Definition isSome {A} (o : option A) : bool :=
  match o with Some _ => true | None => false end.

Definition transcribeVoice (s : Speech) : option jsstring * list Provider :=
  if streq (TRANSCRIPTION_PROVIDER s) (lit "google") && isSome (googleSpeechClient s) then
    let '(result, calls1) := transcribeWithGoogle s in
    if optTruthy result then (result, calls1)
    else if isSome (openaiClient s) then
      let '(fallbackResult, calls2) := transcribeWithOpenAI s in
      (fallbackResult, calls1 ++ calls2)
    else (None, calls1)
  else if streq (TRANSCRIPTION_PROVIDER s) (lit "openai") && isSome (openaiClient s) then
    let '(result, calls1) := transcribeWithOpenAI s in
    if optTruthy result then (result, calls1)
    else if isSome (googleSpeechClient s) then
      let '(fallbackResult, calls2) := transcribeWithGoogle s in
      (fallbackResult, calls1 ++ calls2)
    else (None, calls1)
  else if isSome (googleSpeechClient s) then transcribeWithGoogle s
  else if isSome (openaiClient s) then transcribeWithOpenAI s
  else (None, []).

(** The clients of [src/utils.ts] and the settings of [src/config.ts]
    they come from: a client exists when its credential is not empty. *)
Definition GOOGLE_APPLICATION_CREDENTIALS (env : option jsstring) : jsstring := envOr env [].

Definition OPENAI_API_KEY (env : option jsstring) : jsstring := envOr env [].

Definition TRANSCRIPTION_AVAILABLE (google_env openai_env : option jsstring) : bool :=
  truthy (GOOGLE_APPLICATION_CREDENTIALS google_env) || truthy (OPENAI_API_KEY openai_env).

Definition speechOf (provider_env google_env openai_env : option jsstring)
    (recognize : Recognition) (whisper : Whisper) : Speech :=
  {| TRANSCRIPTION_PROVIDER := envOr provider_env (lit "google");
     googleSpeechClient :=
       if truthy (GOOGLE_APPLICATION_CREDENTIALS google_env) then Some recognize else None;
     openaiClient :=
       if truthy (OPENAI_API_KEY openai_env) then Some whisper else None |}.

(** ** Environment set-up ([src/config.ts]) *)

Definition EXTRA_PATHS (HOME : jsstring) : list jsstring :=
  [ HOME ++ lit "/.local/bin";
    HOME ++ lit "/.bun/bin";
    lit "/opt/homebrew/bin";
    lit "/opt/homebrew/sbin";
    lit "/usr/local/bin" ].

(** [pathParts] after the loop over [EXTRA_PATHS]. *)
Definition pathParts (HOME : jsstring) (PATH : option jsstring) : list jsstring :=
  let currentPath := envOr PATH [] in
  fold_left
    (fun pathParts extraPath =>
       if negb (arrayIncludes pathParts extraPath) then extraPath :: pathParts
       else pathParts)
    (EXTRA_PATHS HOME) (split 58 currentPath).

(** The value the module gives to [process.env.PATH]. *)
Definition augmentedPath (HOME : jsstring) (PATH : option jsstring) : jsstring :=
  join (lit ":") (pathParts HOME PATH).

Definition WORKING_DIR (HOME : jsstring) (CLAUDE_WORKING_DIR : option jsstring) : jsstring :=
  envOr CLAUDE_WORKING_DIR HOME.

Definition defaultAllowedPaths (HOME : jsstring) (CLAUDE_WORKING_DIR : option jsstring)
    : list jsstring :=
  [ WORKING_DIR HOME CLAUDE_WORKING_DIR;
    HOME ++ lit "/Documents";
    HOME ++ lit "/Downloads";
    HOME ++ lit "/Desktop";
    HOME ++ lit "/.claude" ].

(** [ALLOWED_PATHS], from the environment variable of that name. *)
Definition ALLOWED_PATHS (HOME : jsstring) (CLAUDE_WORKING_DIR : option jsstring)
    (ALLOWED_PATHS_env : option jsstring) : list jsstring :=
  let allowedPathsStr := envOr ALLOWED_PATHS_env [] in
  if truthy allowedPathsStr then
    List.filter truthy (map trim (split 44 allowedPathsStr))
  else defaultAllowedPaths HOME CLAUDE_WORKING_DIR.

(** ** Archives ([src/handlers/document.ts]) *)

Definition TEXT_EXTENSIONS : list jsstring :=
  [ lit ".md"; lit ".txt"; lit ".json"; lit ".yaml"; lit ".yml"; lit ".csv";
    lit ".xml"; lit ".html"; lit ".css"; lit ".js"; lit ".ts"; lit ".py";
    lit ".sh"; lit ".env"; lit ".log"; lit ".cfg"; lit ".ini"; lit ".toml" ].

Definition ARCHIVE_EXTENSIONS : list jsstring :=
  [ lit ".zip"; lit ".tar"; lit ".tar.gz"; lit ".tgz" ].

Definition MAX_ARCHIVE_CONTENT : nat := N.to_nat 50000.

Definition TEMP_DIR : jsstring := lit "/tmp/telegram-bot".

(** The shell commands of [extractArchive]. *)
Inductive ShellCommand : Type := Mkdir | Unzip | Tar.

(** The files of the extracted archive, as [Bun.file] shows them:
    whether the path exists, its size, and its text, [None] when reading
    it throws. *)
Record Files : Type := mkFiles {
  fileExists : jsstring -> bool;
  fileSize : jsstring -> N;
  fileText : jsstring -> option jsstring
}.

Section Archives.

(** [String.prototype.toLowerCase] *)
Context (toLowerCase : jsstring -> jsstring).

Definition isArchive (fileName : jsstring) : bool :=
  let lower := toLowerCase fileName in
  existsb (fun ext => endsWith lower ext) ARCHIVE_EXTENSIONS.

Definition getArchiveExtension (fileName : jsstring) : jsstring :=
  let lower := toLowerCase fileName in
  if endsWith lower (lit ".tar.gz") then lit ".tar.gz"
  else if endsWith lower (lit ".tgz") then lit ".tgz"
  else if endsWith lower (lit ".tar") then lit ".tar"
  else if endsWith lower (lit ".zip") then lit ".zip"
  else [].

(** [extractArchive]: the shell commands it has run, in order, and how
    it ends. [now] is [Date.now()] in decimal; [shellFails] tells which
    commands fail, and with which error. *)
Definition extractArchive (shellFails : ShellCommand -> option jsstring)
    (now : jsstring) (fileName : jsstring) : list ShellCommand * Outcome jsstring :=
  let ext := getArchiveExtension fileName in
  let extractDir := TEMP_DIR ++ lit "/archive_" ++ now in
  match shellFails Mkdir with
  | Some e => ([Mkdir], Thrown e)
  | None =>
      if streq ext (lit ".zip") then
        match shellFails Unzip with
        | Some e => ([Mkdir; Unzip], Thrown e)
        | None => ([Mkdir; Unzip], Returned extractDir)
        end
      else if streq ext (lit ".tar") || streq ext (lit ".tar.gz") || streq ext (lit ".tgz")
      then
        match shellFails Tar with
        | Some e => ([Mkdir; Tar], Thrown e)
        | None => ([Mkdir; Tar], Returned extractDir)
        end
      else ([Mkdir], Thrown (lit "Error: Unknown archive type: " ++ ext))
  end.

(** [buildFileTree], from the entries the glob scan yields. *)
Definition buildFileTree (entries : list jsstring) : list jsstring :=
  firstn 100 (sortStrings entries).

(** The loop of [extractArchiveContent]: [contents] and [totalSize] so
    far, over the paths of the tree still to visit. *)
Fixpoint collectContents (files : Files) (tree : list jsstring)
    (contents : list (jsstring * jsstring)) (totalSize : nat)
    : list (jsstring * jsstring) :=
  match tree with
  | [] => contents
  | relativePath :: rest =>
      if negb (fileExists files relativePath) then
        collectContents files rest contents totalSize
      else
        let size := fileSize files relativePath in
        if size =? 0 then collectContents files rest contents totalSize
        else
          let ext := lit "." ++ toLowerCase (List.last (split 46 relativePath) []) in
          if negb (arrayIncludes TEXT_EXTENSIONS ext) then
            collectContents files rest contents totalSize
          else if 100000 <? size then collectContents files rest contents totalSize
          else
            match fileText files relativePath with
            | None => collectContents files rest contents totalSize
            | Some text =>
                let truncated := slice text 0 (N.to_nat 10000) in
                if (MAX_ARCHIVE_CONTENT <? totalSize + length truncated)%nat
                then contents
                else collectContents files rest
                       (contents ++ [(relativePath, truncated)])
                       (totalSize + length truncated)
            end
  end.

Definition extractArchiveContent (files : Files) (entries : list jsstring)
    : list jsstring * list (jsstring * jsstring) :=
  let tree := buildFileTree entries in
  (tree, collectContents files tree [] 0).

End Archives.

(** ** The specification's vocabulary

    The definitions below follow the words of the specification; the
    theorems compare them with the program. *)

(** Empty or whitespace-only. *)
Definition blank (s : jsstring) : Prop := Forall (fun c => isWhiteSpace c = true) s.
Definition ci_equal (a b : jsstring) : Prop := map canonicalize a = map canonicalize b.
Definition ackPhrases : list jsstring :=
  [ lit "ok"; lit "okay"; lit "ack"; lit "acknowledged"; lit "noted";
    [226; 339; 8220]; [240; 376; 8216];
    lit "heartbeat ok"; lit "heartbeat received"; lit "heartbeat acknowledged";
    lit "session active"; lit "session alive" ].
Definition ackPhrase (t : jsstring) : Prop :=
  exists p, In p ackPhrases /\ (ci_equal t p \/ ci_equal t (p ++ lit ".")).

(** The strings an anchored, case-insensitive pattern accepts. *)
Inductive lang : regex -> jsstring -> Prop :=
| lang_eps : lang Eps []
| lang_chr a c : canonicalize a = canonicalize c -> lang (Chr a) [c]
| lang_cat r1 r2 s1 s2 : lang r1 s1 -> lang r2 s2 -> lang (Cat r1 r2) (s1 ++ s2)
| lang_alt_l r1 r2 s : lang r1 s -> lang (Alt r1 r2) s
| lang_alt_r r1 r2 s : lang r2 s -> lang (Alt r1 r2) s
| lang_opt_skip r : lang (Opt r) []
| lang_opt_take r s : lang r s -> lang (Opt r) s.

(** The events appended to the log between two worlds. *)
Definition since (w w' : World) : list Event := drop (length (log w)) (log w').

(** The transport calls among a list of events, failed ones included. *)
Fixpoint calls (evs : list Event) : list TransportCall :=
  match evs with
  | [] => []
  | Sent c _ :: rest => c :: calls rest
  | _ :: rest => calls rest
  end.

(** The queries among a list of events. *)
Fixpoint queries (evs : list Event) : list jsstring :=
  match evs with
  | [] => []
  | Invoked prompt _ _ _ :: rest => prompt :: queries rest
  | _ :: rest => queries rest
  end.

(** The session operations among a list of events. *)
Fixpoint sessionCalls (evs : list Event) : list SessionOp :=
  match evs with
  | [] => []
  | SessionCall op :: rest => op :: sessionCalls rest
  | _ :: rest => sessionCalls rest
  end.

Definition deleteOf (msg : Message) : TransportCall :=
  DeleteMessage (chat_id msg) (message_id msg).

(** ** Sample collaborators, for running the program on concrete inputs *)

Definition idleSession : Session :=
  {| sessionId := None; isRunning := false; stopRequested := false;
     interruptRequested := false; conversationTitle := None;
     lastMessage := None; contextWarning := None |}.

Definition activeSession : Session :=
  {| sessionId := Some (lit "0a1b2c3d4e"); isRunning := false;
     stopRequested := false; interruptRequested := false;
     conversationTitle := Some (lit "hello"); lastMessage := Some (lit "hello");
     contextWarning := None |}.

Definition worldOf (s : Session) : World :=
  {| session := s; heap := []; log := []; ncalls := 0; ninvocations := 0;
     clock := 0; typingLoops := 0; lastHeartbeat := None |}.

(** A transport that accepts every call and an assistant that answers
    every query with one text segment. *)
Definition calmEnv : Env :=
  {| convertMarkdownToHtml := fun s => s;
     transportFailure := fun _ _ => None;
     adapter := fun _ =>
       {| steps := [ Emit 10 (lit "text") (lit "Hi") (Some 0%Z);
                     Emit 20 (lit "segment_end") (lit "Hi there") (Some 0%Z);
                     Emit 30 (lit "done") [] None ];
          result := Resolve (lit "Hi there") |};
     isAuthorized := fun _ => true;
     rateLimiterCheck := fun _ => (true, []);
     HEARTBEAT_PROMPT := lit "heartbeat";
     stopAcknowledged := true |}.

Definition sampleCtx (text : string) : Context :=
  {| from_id := Some 7%Z; from_username := Some (lit "joe");
     chat := Some 5%Z; message_text := Some (lit text) |}.

(** ** Frames

    [rendering st w w'] says that going from [w] to [w'] only talked to
    the chat transport and only touched the streaming state [st]. *)

Definition isSent (e : Event) : Prop :=
  match e with Sent _ _ => True | _ => False end.

Record rendering (st : nat) (w w' : World) : Prop := mkRendering {
  rendering_session : session w' = session w;
  rendering_invocations : ninvocations w' = ninvocations w;
  rendering_clock : clock w' = clock w;
  rendering_typing : typingLoops w' = typingLoops w;
  rendering_heartbeat : lastHeartbeat w' = lastHeartbeat w;
  rendering_heap_length : length (heap w') = length (heap w);
  rendering_heap_other : forall j, j <> st -> heap w' !! j = heap w !! j;
  rendering_log : exists evs, log w' = log w ++ evs /\ Forall isSent evs
}.

(** The world after one more transport call. *)
Definition sent (c : TransportCall) (ok : bool) (w : World) : World :=
  wLog (log w ++ [Sent c ok]) (wCalls (S (ncalls w)) w).

(** ** Streaming text: what the specification expects to see *)


Definition chatOf (ctx : Context) : Z := default 0%Z (chat ctx).






(** The world after the state object [st] went through [f]. *)
Definition touch (st : nat) (f : StreamingState -> StreamingState) (w : World) : World :=
  wHeap (<[st := f (stateAt w st)]> (heap w)) w.

Definition withTextMessage (seg : Z) (msg : Message) (s : StreamingState) : StreamingState :=
  {| textMessages := <[seg := msg]> (textMessages s);
     toolMessages := toolMessages s; lastEditTimes := lastEditTimes s |}.

Definition withLastEditTime (seg : Z) (now : Z) (s : StreamingState) : StreamingState :=
  {| textMessages := textMessages s; toolMessages := toolMessages s;
     lastEditTimes := <[seg := now]> (lastEditTimes s) |}.

Definition withToolMessage (msg : Message) (s : StreamingState) : StreamingState :=
  {| textMessages := textMessages s; toolMessages := toolMessages s ++ [msg];
     lastEditTimes := lastEditTimes s |}.

(** ** End of a segment: what the specification expects to see *)





(** A world in which segment 0 of the state object 0 has the message 1 of
    chat 5, last updated at time 10. *)
Definition streamingWorld : World :=
  wClock 20
    (wHeap [ {| textMessages := {[ 0%Z := {| chat_id := 5; message_id := 1 |} ]};
               toolMessages := [ {| chat_id := 5; message_id := 0 |} ];
               lastEditTimes := {[ 0%Z := 10%Z ]} |} ]
           (wCalls 2 (worldOf (withRunning true activeSession)))).

(** ** Frames of a query

    [streaming st w w'] says that going from [w] to [w'] is what may
    happen while a query is under way: transport calls made for the state
    object [st], and another handler interrupting or stopping. The
    [isRunning] flag, the number of queries and the other state objects
    stay as they are. *)

Definition duringQuery (e : Event) : Prop :=
  match e with
  | Sent _ _ => True
  | SessionCall OpMarkInterrupt | SessionCall OpStop
  | SessionCall OpClearStopRequested => True
  | _ => False
  end.

Record streaming (st : nat) (w w' : World) : Prop := mkStreaming {
  streaming_running : isRunning (session w') = isRunning (session w);
  streaming_invocations : ninvocations w' = ninvocations w;
  streaming_typing : typingLoops w' = typingLoops w;
  streaming_heap_length : length (heap w') = length (heap w);
  streaming_heap_other : forall j, j <> st -> heap w' !! j = heap w !! j;
  streaming_log : exists evs, log w' = log w ++ evs /\ Forall duringQuery evs
}.

(** A computation that keeps to the frame [R]. *)
Definition frames {A} (R : World -> World -> Prop) (m : M A) : Prop :=
  forall w, R w (m w).2.

(** A computation that always returns. *)
Definition total {A} (m : M A) : Prop :=
  forall w, exists a w', m w = (Returned a, w').

(** ** The text handler: what the specification expects to see *)

Definition retryNotice : jsstring := [9888; 65039] ++ lit " Claude crashed, retrying...".
Definition stopNotice : jsstring := [55357; 57041] ++ lit " Query stopped.".
Definition errorNotice (errorStr : jsstring) : jsstring :=
  [10060] ++ lit " Error: " ++ slice errorStr 0 200.

(** The failure classes of the specification, as the handler tells them
    apart. *)
Definition isCrash (errorStr : jsstring) : bool := includes errorStr (lit "exited with code").
Definition isCancel (errorStr : jsstring) : bool :=
  includes errorStr (lit "abort") || includes errorStr (lit "cancel").

(** An assistant whose queries fail with a plain error, and a transport
    that is down for plain-text messages. *)
Definition brokenEnv : Env :=
  {| convertMarkdownToHtml := fun s => s;
     transportFailure := fun _ c =>
       match c with
       | Reply _ _ Plain => Some (lit "Error: Network request failed")
       | _ => None
       end;
     adapter := fun _ =>
       {| steps := [ Emit 10 (lit "tool") (lit "Bash: ls") None ];
          result := Reject (lit "Error: boom") |};
     isAuthorized := fun _ => true;
     rateLimiterCheck := fun _ => (true, []);
     HEARTBEAT_PROMPT := lit "heartbeat";
     stopAcknowledged := true |}.

(** An assistant that crashes at the first query; during the second one
    the user sends a new message with the interrupt prefix, and the query
    is cancelled. *)
Definition crashThenInterruptEnv : Env :=
  {| convertMarkdownToHtml := fun s => s;
     transportFailure := fun _ _ => None;
     adapter := fun n =>
       match n with
       | O => {| steps := [ Emit 10 (lit "tool") (lit "Bash: ls") None ];
                 result := Reject (lit "Error: Claude Code process exited with code 1") |}
       | _ => {| steps := [ Emit 20 (lit "text") (lit "Let me") (Some 0%Z);
                            Concurrent (InterruptMessage (lit "! never mind")) ];
                 result := Reject (lit "AbortError: The operation was aborted") |}
       end;
     isAuthorized := fun _ => true;
     rateLimiterCheck := fun _ => (true, []);
     HEARTBEAT_PROMPT := lit "heartbeat";
     stopAcknowledged := true |}.

(** An assistant that crashes at the first query and answers the second. *)
Definition crashOnceEnv : Env :=
  {| convertMarkdownToHtml := fun s => s;
     transportFailure := fun _ _ => None;
     adapter := fun n =>
       match n with
       | O => {| steps := [ Emit 10 (lit "tool") (lit "Bash: ls") None ];
                 result := Reject (lit "Error: Claude Code process exited with code 1") |}
       | _ => {| steps := [ Emit 20 (lit "text") (lit "Done") (Some 0%Z);
                            Emit 30 (lit "segment_end") (lit "Done.") (Some 0%Z);
                            Emit 40 (lit "done") [] None ];
                 result := Resolve (lit "Done.") |}
       end;
     isAuthorized := fun _ => true;
     rateLimiterCheck := fun _ => (true, []);
     HEARTBEAT_PROMPT := lit "heartbeat";
     stopAcknowledged := true |}.

(** The handler takes the message: sender, chat and text are there, the
    sender is authorized and within the rate limit, and the text neither
    carries the interrupt prefix nor is blank. *)
Record accepted (env : Env) (ctx : Context) (userId chatId : Z)
    (message username : jsstring) : Prop := mkAccepted {
  accepted_from : from_id ctx = Some userId;
  accepted_user : userId <> 0%Z;
  accepted_chat : chat ctx = Some chatId;
  accepted_chat_id : chatId <> 0%Z;
  accepted_text : message_text ctx = Some message;
  accepted_plain : startsWith message (lit "!") = false;
  accepted_not_blank : trim message <> [];
  accepted_username :
    username = (if optTruthy (from_username ctx)
                then default [] (from_username ctx) else lit "unknown");
  accepted_authorized : isAuthorized env userId = true;
  accepted_rate : (rateLimiterCheck env userId).1 = true
}.

(** The session as the handler leaves it before the first query. *)
Definition titled (message : jsstring) (s : Session) : Session :=
  let s1 := withLastMessage (Some message) s in
  if negb (isActive s1) then
    withConversationTitle
      (Some (if (50 <? length message)%nat then slice message 0 47 ++ lit "..."
             else message)) s1
  else s1.

(** The world in which the retry loop starts. *)
Definition started (message : jsstring) (w : World) : World :=
  wHeap (heap w ++ [newState])
    (wTypingLoops (S (typingLoops w))
       (wSession (withRunning true (titled message (session w)))
          (wLog (log w ++ [SessionCall OpStartProcessing]) w))).

Definition textAudit (userId : Z) (username message response : jsstring) : AuditEntry :=
  {| audit_event := lit "message"; audit_user := userId; audit_username := username;
     audit_type := lit "TEXT"; audit_content := message; audit_response := response |}.

(** What is left of the handler once the retry loop is over. *)
Definition finish : M unit :=
  (emit (SessionCall OpStopProcessing) ;; updSession (withRunning false)) ;;
  (w' ← get; setTypingLoops (pred (typingLoops w'))).

(** ** Frames of a silent query

    [quiet w w'] says that going from [w] to [w'] made no transport call
    and no query, and left the state objects and the running flag alone:
    what a query with a silent event sink may do. *)

Definition isSessionCall (e : Event) : Prop :=
  match e with SessionCall _ => True | _ => False end.

Record quiet (w w' : World) : Prop := mkQuiet {
  quiet_running : isRunning (session w') = isRunning (session w);
  quiet_invocations : ninvocations w' = ninvocations w;
  quiet_calls : ncalls w' = ncalls w;
  quiet_typing : typingLoops w' = typingLoops w;
  quiet_heartbeat : lastHeartbeat w' = lastHeartbeat w;
  quiet_heap : heap w' = heap w;
  quiet_log : exists evs, log w' = log w ++ evs /\ Forall isSessionCall evs
}.

(** ** What a streaming state never loses

    [keeps st w w'] says that, from [w] to [w'], every segment of the
    state object [st] that had a message still has the same one, and the
    list of ephemeral messages was only extended. *)
Definition keeps (st : nat) (w w' : World) : Prop :=
  (forall seg msg,
      textMessages (stateAt w st) !! seg = Some msg ->
      textMessages (stateAt w' st) !! seg = Some msg)
  /\ exists more, toolMessages (stateAt w' st) = toolMessages (stateAt w st) ++ more.

(** The messages a run of events created: one for every reply the
    transport accepted, numbered by the position of the call, starting
    from the call number [n]. *)
Fixpoint createdFrom (n : nat) (evs : list Event) : list Message :=
  match evs with
  | [] => []
  | Sent (Reply chatId _ _) true :: rest =>
      {| chat_id := chatId; message_id := Z.of_nat n |} :: createdFrom (S n) rest
  | Sent _ _ :: rest => createdFrom (S n) rest
  | _ :: rest => createdFrom n rest
  end.

(** A [thinking] or [tool] event. *)
Definition isEphemeral (step : AdapterStep) : Prop :=
  match step with
  | Emit _ statusType _ _ => statusType = lit "thinking" \/ statusType = lit "tool"
  | _ => False
  end.

(** The world after a list of adapter steps handed to the status
    callback of the state object [st]. *)
Definition dispatch (env : Env) (ctx : Context) (st : nat) (evs : list AdapterStep)
    (w : World) : World :=
  exec (forEach evs (adapterStep env (statusCallback env ctx st))) w.

(** ** The text handler: who is answered

    An update the handler does not drop at once: it names a user and a
    chat and carries a text. *)
Record addressed (ctx : Context) (userId chatId : Z) (message : jsstring) : Prop :=
  mkAddressed {
  addressed_from : from_id ctx = Some userId;
  addressed_user : userId <> 0%Z;
  addressed_chat : chat ctx = Some chatId;
  addressed_chat_id : chatId <> 0%Z;
  addressed_text : message_text ctx = Some message;
  addressed_not_empty : message <> []
}.

(** [ctx.from?.username || "unknown"] *)
Definition usernameOf (ctx : Context) : jsstring :=
  if optTruthy (from_username ctx) then default [] (from_username ctx) else lit "unknown".

(** The text the interrupt check hands back. *)
Definition strippedText (text : jsstring) : jsstring :=
  if startsWith text (lit "!") then trimStart (sliceFrom text 1) else text.

Definition unauthorizedNotice : jsstring :=
  lit "Unauthorized. Contact the bot owner for access.".

Definition rateNotice (retryAfter : jsstring) : jsstring :=
  [9203] ++ lit " Rate limited. Please wait " ++ retryAfter ++ lit " seconds.".

Definition rateAudit (userId : Z) (username retryAfter : jsstring) : AuditEntry :=
  {| audit_event := lit "rate_limit"; audit_user := userId; audit_username := username;
     audit_type := []; audit_content := retryAfter; audit_response := [] |}.

(** The number of hard resets among a list of events. *)
Fixpoint killOps (ops : list SessionOp) : nat :=
  match ops with
  | [] => 0
  | OpKill :: rest => S (killOps rest)
  | _ :: rest => killOps rest
  end.

Definition kills (evs : list Event) : nat := killOps (sessionCalls evs).

(** What the handler keeps, outside its own start and finish: the typing
    indicators running and the running flag. *)
Definition steady (w w' : World) : Prop :=
  typingLoops w' = typingLoops w /\ isRunning (session w') = isRunning (session w).

(** The title and the last message of the session stay as they are. *)
Definition labelled (w w' : World) : Prop :=
  conversationTitle (session w') = conversationTitle (session w)
  /\ lastMessage (session w') = lastMessage (session w).

(** The title a first message gives to a conversation. *)
Definition titleOf (message : jsstring) : jsstring :=
  if (50 <? length message)%nat then slice message 0 47 ++ lit "..." else message.

(** An update that passes the first test of the handler. *)
Definition isAddressed (ctx : Context) : bool :=
  numTruthy (from_id ctx) && optTruthy (message_text ctx) && numTruthy (chat ctx).

(** An environment in which nobody is authorized, and one in which the
    rate limiter refuses everybody. *)
Definition strangerEnv : Env :=
  {| convertMarkdownToHtml := convertMarkdownToHtml calmEnv;
     transportFailure := transportFailure calmEnv;
     adapter := adapter calmEnv;
     isAuthorized := fun _ => false;
     rateLimiterCheck := rateLimiterCheck calmEnv;
     HEARTBEAT_PROMPT := HEARTBEAT_PROMPT calmEnv;
     stopAcknowledged := stopAcknowledged calmEnv |}.

Definition busyEnv : Env :=
  {| convertMarkdownToHtml := convertMarkdownToHtml calmEnv;
     transportFailure := transportFailure calmEnv;
     adapter := adapter calmEnv;
     isAuthorized := isAuthorized calmEnv;
     rateLimiterCheck := fun _ => (false, lit "12.5");
     HEARTBEAT_PROMPT := HEARTBEAT_PROMPT calmEnv;
     stopAcknowledged := stopAcknowledged calmEnv |}.

(** ** The heartbeat timer

    What every reachable state of the timers satisfies: the runtime
    holds the interval the module remembers, and no other. *)
Definition timersOk (t : Timers) : Prop :=
  armed t = match heartbeatTimer t with Some id => [id] | None => [] end.

(** ** The ask-user keyboard

    The buttons of the options from index [idx] on. *)
Fixpoint buttonsFrom (requestId : jsstring) (options : list jsstring) (idx : nat)
    : list Button :=
  match options with
  | [] => []
  | option :: rest =>
      {| button_text := ellipsize BUTTON_LABEL_MAX_LENGTH option;
         callback_data := lit "askuser:" ++ requestId ++ lit ":" ++ decimal idx |}
      :: buttonsFrom requestId rest (S idx)
  end.

(** ** Voice transcription *)

(** The client of a provider is configured. *)
Definition configured (s : Speech) (p : Provider) : bool :=
  match p with
  | Google => isSome (googleSpeechClient s)
  | OpenAI => isSome (openaiClient s)
  end.

(** What a provider answers when asked. *)
Definition answerOf (s : Speech) (p : Provider) : option jsstring :=
  match p with
  | Google => (transcribeWithGoogle s).1
  | OpenAI => (transcribeWithOpenAI s).1
  end.

(** The provider the configuration prefers. *)
Definition preferred (s : Speech) : Provider :=
  if streq (TRANSCRIPTION_PROVIDER s) (lit "openai") && isSome (openaiClient s)
  then OpenAI
  else if isSome (googleSpeechClient s) then Google else OpenAI.

Definition otherProvider (p : Provider) : Provider :=
  match p with Google => OpenAI | OpenAI => Google end.

(** Google is preferred and hears nothing, and OpenAI fails. *)
Definition sampleSpeech : Speech :=
  {| TRANSCRIPTION_PROVIDER := lit "google";
     googleSpeechClient := Some (Recognized (Some [None; Some []]));
     openaiClient := Some WhisperThrows |}.

(** ** Archives *)

(** A file of the tree whose text [extractArchiveContent] would take, if
    the budget allows: it exists, is not empty, has the extension of a
    text file, is not too large, and can be read. *)
Definition readable (toLowerCase : jsstring -> jsstring) (files : Files)
    (relativePath : jsstring) : bool :=
  fileExists files relativePath
  && negb (fileSize files relativePath =? 0)
  && arrayIncludes TEXT_EXTENSIONS
       (lit "." ++ toLowerCase (List.last (split 46 relativePath) []))
  && negb (100000 <? fileSize files relativePath)
  && isSome (fileText files relativePath).

(** What is kept of the text of a file. *)
Definition excerpt (files : Files) (relativePath : jsstring) : jsstring :=
  slice (default [] (fileText files relativePath)) 0 (N.to_nat 10000).

Definition totalLength (contents : list (jsstring * jsstring)) : nat :=
  list_sum (map (fun c => length c.2) contents).

(** * Properties *)

(** ** Trimming, searching and replacing *)

Section StringFacts.

Definition ws (s : jsstring) : Prop := Forall (fun c => isWhiteSpace c = true) s.
Definition solid (p : jsstring) : Prop := Forall (fun c => isWhiteSpace c = false) p.

Lemma trimStart_split s : exists l, ws l /\ s = l ++ trimStart s.
Proof.
  induction s as [|c s IH]; simpl.
  - exists []. split; [constructor | reflexivity].
  - destruct (isWhiteSpace c) eqn:E.
    + destruct IH as (l & Hl & Hs). exists (c :: l). split.
      * constructor; assumption.
      * simpl. congruence.
    + exists []. split; [constructor | reflexivity].
Qed.

Lemma trimStart_ws_app l s : ws l -> trimStart (l ++ s) = trimStart s.
Proof.
  induction 1 as [|c l Hc _ IH]; simpl; [reflexivity|]. now rewrite Hc.
Qed.

Lemma trimStart_head s c t : trimStart s = c :: t -> isWhiteSpace c = false.
Proof.
  induction s as [|a s IH]; simpl; [discriminate|].
  destruct (isWhiteSpace a) eqn:E; [exact IH|]. intros [= -> _]. exact E.
Qed.

Lemma trimStart_fix c t : isWhiteSpace c = false -> trimStart (c :: t) = c :: t.
Proof. intros H. simpl. now rewrite H. Qed.

Lemma ws_rev l : ws l -> ws (rev l).
Proof. unfold ws. intros H. now apply Forall_rev. Qed.

Lemma trimEnd_split s : exists r, ws r /\ s = trimEnd s ++ r.
Proof.
  unfold trimEnd. destruct (trimStart_split (rev s)) as (l & Hl & Hs).
  exists (rev l). split; [now apply ws_rev|].
  rewrite <- rev_app_distr, <- Hs. now rewrite rev_involutive.
Qed.

Lemma trimEnd_ws_app s r : ws r -> trimEnd (s ++ r) = trimEnd s.
Proof.
  intros H. unfold trimEnd. rewrite rev_app_distr.
  rewrite trimStart_ws_app; [reflexivity | now apply ws_rev].
Qed.

(** trimming the end leaves a non-blank start in place *)
Lemma trimEnd_cons_solid c t : isWhiteSpace c = false -> exists t', trimEnd (c :: t) = c :: t'.
Proof.
  intros Hc. unfold trimEnd. simpl.
  destruct (trimStart_split (rev t ++ [c])) as (l & Hl & Hs).
  assert (exists u, trimStart (rev t ++ [c]) = u ++ [c]) as [u Hu].
  { clear Hs Hl l. induction (rev t) as [|a r IH]; simpl.
    - rewrite Hc. now exists [].
    - destruct (isWhiteSpace a); [exact IH|]. now exists (a :: r). }
  rewrite Hu, rev_app_distr. simpl. eauto.
Qed.


Lemma trim_split s : exists l r, ws l /\ ws r /\ s = l ++ trim s ++ r.
Proof.
  destruct (trimStart_split s) as (l & Hl & Hs).
  destruct (trimEnd_split (trimStart s)) as (r & Hr & Ht).
  exists l, r. unfold trim. split; [assumption|]. split; [assumption|]. congruence.
Qed.

Lemma trim_nil_blank s : trim s = [] <-> ws s.
Proof.
  split.
  - intros H. destruct (trim_split s) as (l & r & Hl & Hr & Hs).
    rewrite H in Hs. simpl in Hs. subst s. now apply Forall_app.
  - intros H. unfold trim.
    assert (trimStart s = []) as ->.
    { rewrite <- (app_nil_r s). rewrite trimStart_ws_app; auto. }
    reflexivity.
Qed.

Lemma trim_ws_app l s r : ws l -> ws r -> trim (l ++ s ++ r) = trim s.
Proof.
  intros Hl Hr. unfold trim. rewrite trimStart_ws_app by assumption.
  destruct (trimStart_split s) as (l' & Hl' & Hs).
  destruct (trimStart s) as [|c t] eqn:E.
  - rewrite app_nil_r in Hs. subst l'.
    assert (trimStart (s ++ r) = []) as ->; [|reflexivity].
    rewrite trimStart_ws_app by assumption.
    rewrite <- (app_nil_r r). now rewrite trimStart_ws_app.
  - pose proof (trimStart_head _ _ _ E) as Hc.
    rewrite Hs at 1. rewrite <- app_assoc, trimStart_ws_app by assumption.
    rewrite <- app_comm_cons, trimStart_fix by assumption.
    rewrite app_comm_cons. now apply trimEnd_ws_app.
Qed.

Lemma startsWith_spec s p : startsWith s p = true <-> exists post, s = p ++ post.
Proof.
  revert s. induction p as [|a p IH]; intros s; simpl.
  - split; [intros _; now exists s | now destruct s].
  - destruct s as [|c s].
    + split; [discriminate | intros [post H]; discriminate].
    + simpl. rewrite andb_true_iff, N.eqb_eq, IH. split.
      * intros [-> [post ->]]. now exists post.
      * intros [post [= -> ->]]. split; [reflexivity | now exists post].
Qed.


Lemma startsWith_length s p : startsWith s p = true -> (length p <= length s)%nat.
Proof.
  rewrite startsWith_spec. intros [post ->]. rewrite length_app. lia.
Qed.

Lemma startsWith_app_ws s r p :
  ws r -> solid p -> startsWith (s ++ r) p = startsWith s p.
Proof.
  intros Hr Hp. revert s. induction Hp as [|a p Ha _ IH]; intros s.
  - now destruct s, r.
  - destruct s as [|c s]; simpl.
    + destruct Hr as [|c r Hc _]; simpl; [reflexivity|].
      destruct (N.eqb_spec c a) as [->|]; [congruence | reflexivity].
    + now rewrite IH.
Qed.

Lemma startsWith_ws_head c s a p :
  isWhiteSpace c = true -> isWhiteSpace a = false -> startsWith (c :: s) (a :: p) = false.
Proof.
  intros Hc Ha. simpl. destruct (N.eqb_spec c a) as [->|]; [congruence | reflexivity].
Qed.

Section Solid.
Variables (a : N) (p : jsstring).
Hypothesis Hsolid : solid (a :: p).

Let Ha : isWhiteSpace a = false.
Proof. now inversion Hsolid. Qed.

Lemma includes_ws r : ws r -> includes r (a :: p) = false.
Proof.
  induction 1 as [|c r Hc _ IH]; [reflexivity|].
  cbn [includes]. now rewrite startsWith_ws_head, IH.
Qed.

Lemma includes_ws_l l s : ws l -> includes (l ++ s) (a :: p) = includes s (a :: p).
Proof.
  induction 1 as [|c l Hc _ IH]; [reflexivity|].
  rewrite <- app_comm_cons. cbn [includes]. now rewrite startsWith_ws_head, IH.
Qed.

Lemma includes_ws_r s r : ws r -> includes (s ++ r) (a :: p) = includes s (a :: p).
Proof.
  intros Hr. induction s as [|c s IH].
  - simpl app. now rewrite includes_ws.
  - rewrite <- app_comm_cons. cbn [includes].
    rewrite IH, app_comm_cons, startsWith_app_ws; auto.
Qed.

Lemma replace_ws r x : ws r -> replace r (a :: p) x = r.
Proof.
  induction 1 as [|c r Hc _ IH]; [reflexivity|].
  cbn [replace]. now rewrite startsWith_ws_head, IH.
Qed.

Lemma replace_ws_l l s x : ws l -> replace (l ++ s) (a :: p) x = l ++ replace s (a :: p) x.
Proof.
  induction 1 as [|c l Hc _ IH]; [reflexivity|].
  rewrite <- !app_comm_cons. cbn [replace]. now rewrite startsWith_ws_head, IH.
Qed.

Lemma replace_ws_r s r x : ws r -> replace (s ++ r) (a :: p) x = replace s (a :: p) x ++ r.
Proof.
  intros Hr. induction s as [|c s IH].
  - simpl app. now rewrite replace_ws.
  - rewrite <- app_comm_cons. cbn [replace].
    rewrite app_comm_cons, startsWith_app_ws by auto.
    destruct (startsWith (c :: s) (a :: p)) eqn:E.
    + apply startsWith_length in E.
      rewrite skipn_app, <- app_assoc. f_equal.
      replace (length (a :: p) - length (c :: s))%nat with 0%nat by lia.
      reflexivity.
    + rewrite <- app_comm_cons. now rewrite IH.
Qed.

Lemma trim_replace_trim s x :
  trim (replace (trim s) (a :: p) x) = trim (replace s (a :: p) x).
Proof.
  destruct (trim_split s) as (l & r & Hl & Hr & Hs).
  rewrite Hs at 2. rewrite replace_ws_l, replace_ws_r by assumption.
  now rewrite trim_ws_app.
Qed.

Lemma includes_trim s : includes (trim s) (a :: p) = includes s (a :: p).
Proof.
  destruct (trim_split s) as (l & r & Hl & Hr & Hs).
  rewrite Hs at 2. now rewrite includes_ws_l, includes_ws_r.
Qed.
End Solid.

End StringFacts.

Section RegexFacts.

Hint Constructors lang : core.

Lemma nullable_spec r : nullable r = true <-> lang r [].
Proof.
  induction r as [| |a|r1 IH1 r2 IH2|r1 IH1 r2 IH2|r IH]; simpl.
  - split; [discriminate | inversion 1].
  - split; auto.
  - split; [discriminate | inversion 1].
  - rewrite andb_true_iff, IH1, IH2. split.
    + intros [H1 H2]. change (@nil N) with (@nil N ++ []). auto.
    + inversion 1 as [| |? ? s1 s2 H1 H2 E1 E2| | | |]; subst.
      apply app_eq_nil in E2 as [-> ->]. auto.
  - rewrite orb_true_iff, IH1, IH2. split.
    + intros [H|H]; auto.
    + inversion 1; subst; auto.
  - split; auto.
Qed.

Lemma deriv_spec c r s : lang (deriv c r) s <-> lang r (c :: s).
Proof.
  revert s. induction r as [| |a|r1 IH1 r2 IH2|r1 IH1 r2 IH2|r IH]; intros s; simpl.
  - split; inversion 1.
  - split; inversion 1.
  - unfold chr_eqb_i. destruct (N.eqb_spec (canonicalize a) (canonicalize c)) as [E|E].
    + split; inversion 1; subst; auto.
    + split; inversion 1; subst; contradiction.
  - destruct (nullable r1) eqn:En.
    + split.
      * inversion 1 as [| | |? ? ? H1| ? ? ? H1| |]; subst.
        -- inversion H1 as [| |? ? s1 s2 Ha Hb| | | |]; subst.
           apply IH1 in Ha. change (c :: s1 ++ s2) with ((c :: s1) ++ s2). auto.
        -- apply IH2 in H1. apply nullable_spec in En.
           change (c :: s) with ([] ++ c :: s). auto.
      * inversion 1 as [| |? ? s1 s2 Ha Hb E1 E2| | | |]; subst.
        destruct s1 as [|c1 s1]; simpl in E2; subst.
        -- apply lang_alt_r. now apply IH2.
        -- injection E2 as -> <-. apply lang_alt_l. apply lang_cat; [now apply IH1 | assumption].
    + split.
      * inversion 1 as [| |? ? s1 s2 Ha Hb| | | |]; subst.
        apply IH1 in Ha. change (c :: s1 ++ s2) with ((c :: s1) ++ s2). auto.
      * inversion 1 as [| |? ? s1 s2 Ha Hb E1 E2| | | |]; subst.
        destruct s1 as [|c1 s1]; simpl in E2; subst.
        -- apply nullable_spec in Ha. congruence.
        -- injection E2 as -> <-. apply lang_cat; [now apply IH1 | assumption].
  - split.
    + inversion 1; subst; [apply lang_alt_l; now apply IH1 | apply lang_alt_r; now apply IH2].
    + inversion 1; subst; [apply lang_alt_l; now apply IH1 | apply lang_alt_r; now apply IH2].
  - rewrite IH. split; [auto|]. inversion 1; subst; auto.
Qed.

Lemma test_spec r s : test r s = true <-> lang r s.
Proof.
  revert r. induction s as [|c s IH]; intros r; simpl.
  - apply nullable_spec.
  - rewrite IH. apply deriv_spec.
Qed.

Lemma lang_word w s : lang (word w) s <-> ci_equal s w.
Proof.
  unfold ci_equal. revert s. induction w as [|a w IH]; intros s; simpl.
  - split.
    + inversion 1. reflexivity.
    + destruct s; [auto | discriminate].
  - split.
    + inversion 1 as [| |? ? s1 s2 Ha Hb| | | |]; subst.
      inversion Ha; subst. simpl. f_equal; [congruence | now apply IH].
    + destruct s as [|c s]; [discriminate|]. simpl. intros [= E1 E2].
      change (c :: s) with ([c] ++ s). apply lang_cat; [auto | now apply IH].
Qed.

Lemma lang_alts ws s : lang (alts ws) s <-> exists w, In w ws /\ ci_equal s w.
Proof.
  induction ws as [|w ws IH]; simpl.
  - split; [inversion 1 | intros (w & [] & _)].
  - split.
    + inversion 1 as [| | |? ? ? Hl|? ? ? Hr| |]; subst.
      * exists w. split; [now left | now apply lang_word].
      * apply IH in Hr as (w' & Hin & Hw'). exists w'. auto.
    + intros (w' & [<- | Hin] & Hw').
      * apply lang_alt_l. now apply lang_word.
      * apply lang_alt_r. apply IH. eauto.
Qed.

Lemma ci_equal_app a b c d : ci_equal a c -> ci_equal b d -> ci_equal (a ++ b) (c ++ d).
Proof. unfold ci_equal. intros H1 H2. rewrite !map_app. congruence. Qed.

Lemma ci_equal_split s a b :
  ci_equal s (a ++ b) -> exists s1 s2, s = s1 ++ s2 /\ ci_equal s1 a /\ ci_equal s2 b.
Proof.
  unfold ci_equal. rewrite map_app. intros H.
  apply List.map_eq_app in H as (s1 & s2 & -> & H1 & H2). eauto.
Qed.

(** [/^(w1|...|wn)\.?$/i] *)
Lemma lang_words_dot ws d s :
  lang (Cat (alts ws) (Opt (Chr d))) s
  <-> exists w, In w ws /\ (ci_equal s w \/ ci_equal s (w ++ [d])).
Proof.
  split.
  - inversion 1 as [| |? ? s1 s2 Ha Hb| | | |]; subst.
    apply lang_alts in Ha as (w & Hin & Hw). exists w. split; [assumption|].
    inversion Hb as [| | | | | |? ? Hc]; subst.
    + left. now rewrite app_nil_r.
    + right. inversion Hc; subst. apply ci_equal_app; [assumption|].
      unfold ci_equal. simpl. congruence.
  - intros (w & Hin & [Hw | Hw]).
    + rewrite <- (app_nil_r s). apply lang_cat; [|auto]. apply lang_alts. eauto.
    + apply ci_equal_split in Hw as (s1 & s2 & -> & H1 & H2).
      apply lang_cat; [apply lang_alts; eauto|].
      apply lang_opt_take. destruct s2 as [|c [|? ?]]; try discriminate.
      injection H2 as H2. auto.
Qed.

(** [/^prefix (w1|...|wn)\.?$/i] *)
Lemma lang_prefix_words_dot pre ws d s :
  lang (Cat (word pre) (Cat (alts ws) (Opt (Chr d)))) s
  <-> exists w, In w (map (app pre) ws) /\ (ci_equal s w \/ ci_equal s (w ++ [d])).
Proof.
  split.
  - inversion 1 as [| |? ? s1 s2 Ha Hb| | | |]; subst.
    apply lang_word in Ha. apply lang_words_dot in Hb as (w & Hin & Hw).
    exists (pre ++ w). split; [now apply in_map|].
    destruct Hw as [Hw | Hw]; [left | right; rewrite <- app_assoc];
      now apply ci_equal_app.
  - intros (w' & Hin & Hw). apply in_map_iff in Hin as (w & <- & Hin).
    assert (exists s1 s2, s = s1 ++ s2 /\ ci_equal s1 pre
                          /\ (ci_equal s2 w \/ ci_equal s2 (w ++ [d])))
      as (s1 & s2 & -> & H1 & H2).
    { destruct Hw as [Hw | Hw].
      - apply ci_equal_split in Hw as (s1 & s2 & -> & H1 & H2). eauto 6.
      - rewrite <- app_assoc in Hw.
        apply ci_equal_split in Hw as (s1 & s2 & -> & H1 & H2). eauto 6. }
    apply lang_cat; [now apply lang_word|]. apply lang_words_dot. eauto.
Qed.

Lemma ackPatterns_spec t :
  existsb (fun pattern => test pattern t) ackPatterns = true <-> ackPhrase t.
Proof.
  unfold ackPatterns, ackPhrase. cbn [existsb].
  rewrite orb_false_r, !orb_true_iff, !test_spec.
  rewrite lang_words_dot, !lang_prefix_words_dot.
  change ackPhrases with
    (ackWords1 ++ map (app (lit "heartbeat ")) ackWords2
               ++ map (app (lit "session ")) ackWords3).
  change (lit ".") with [46].
  split.
  - intros [(w & Hin & H) | [(w & Hin & H) | (w & Hin & H)]];
      exists w; (split; [|exact H]); rewrite !in_app_iff; auto.
  - intros (w & Hin & H). rewrite !in_app_iff in Hin.
    destruct Hin as [Hin | [Hin | Hin]]; eauto 6.
Qed.

End RegexFacts.


(** ** Running the effects *)

Ltac mred :=
  cbv beta iota zeta delta
    [mbind M_bind mret M_ret throw try_catch get modify emit setSession setHeap
     setClock setTypingLoops setLastHeartbeat tickCalls tickInvocations
     updSession exec outcome wSession wHeap wLog wCalls wInvocations wClock
     wTypingLoops wLastHeartbeat];
  cbn [session heap log ncalls ninvocations clock typingLoops lastHeartbeat fst snd
       sessionId isRunning stopRequested interruptRequested conversationTitle
       lastMessage contextWarning].

Lemma bind_returned {A B} (m : M A) (f : A -> M B) w a w1 :
  m w = (Returned a, w1) -> (m ≫= f) w = f a w1.
Proof. intros H. unfold mbind, M_bind. now rewrite H. Qed.

Lemma bind_thrown {A B} (m : M A) (f : A -> M B) w e w1 :
  m w = (Thrown e, w1) -> (m ≫= f) w = (Thrown e, w1).
Proof. intros H. unfold mbind, M_bind. now rewrite H. Qed.

Lemma try_catch_returned {A} (m : M A) h w a w1 :
  m w = (Returned a, w1) -> try_catch m h w = (Returned a, w1).
Proof. intros H. unfold try_catch. now rewrite H. Qed.

Lemma try_catch_thrown {A} (m : M A) h w e w1 :
  m w = (Thrown e, w1) -> try_catch m h w = h e w1.
Proof. intros H. unfold try_catch. now rewrite H. Qed.

Lemma since_app w w' evs : log w' = log w ++ evs -> since w w' = evs.
Proof. intros H. unfold since. rewrite H. apply drop_app_length. Qed.

Lemma calls_app l1 l2 : calls (l1 ++ l2) = calls l1 ++ calls l2.
Proof.
  induction l1 as [|e l1 IH]; [reflexivity|].
  destruct e; simpl; now rewrite IH.
Qed.

(** ** [checkInterrupt] and the heartbeat *)

Section SessionFacts.

Context (env : Env).


(** C8. A heartbeat tick that finds a query running, or no session
    identifier, returns at once: the world after the tick is the world
    before it, so no query is issued, the session is untouched and
    nothing is left behind to run later. *)
Theorem heartbeat_tick_skipped (w : World) :
  isRunning (session w) = true \/ optTruthy (sessionId (session w)) = false ->
  runHeartbeat env w = (Returned tt, w).
Proof.
  intros H. unfold runHeartbeat. mred.
  destruct (optTruthy (sessionId (session w))) eqn:Hid.
  - destruct H as [H | H]; [|discriminate]. rewrite H.
    now destruct (negb (isActive (session w))).
  - now rewrite orb_true_r.
Qed.

End SessionFacts.

Lemma heartbeat_tick_skipped_witness :
  runHeartbeat calmEnv (worldOf (withRunning true activeSession))
  = (Returned tt, worldOf (withRunning true activeSession)).
Proof. apply heartbeat_tick_skipped. left. reflexivity. Defined.

(** ** The status callback *)

Lemma rendering_refl st w : rendering st w w.
Proof.
  constructor; try reflexivity. exists []. split; [now rewrite app_nil_r | constructor].
Qed.

Lemma rendering_trans st w1 w2 w3 :
  rendering st w1 w2 -> rendering st w2 w3 -> rendering st w1 w3.
Proof.
  intros [s1 i1 c1 t1 h1 l1 o1 (e1 & H1 & F1)] [s2 i2 c2 t2 h2 l2 o2 (e2 & H2 & F2)].
  constructor; try congruence.
  - intros j Hj. rewrite o2, o1; auto.
  - exists (e1 ++ e2). split; [now rewrite H2, H1, app_assoc | now apply Forall_app].
Qed.

Lemma rendering_same_heap st st' w w' :
  rendering st w w' -> heap w' = heap w -> rendering st' w w'.
Proof.
  intros [s1 i1 c1 t1 h1 l1 o1 g1] Hh. constructor; try assumption.
  intros j _. now rewrite Hh.
Qed.

Section CallbackFacts.

Context (env : Env).

(** One transport call: it is logged, it counts, and it either returns
    or throws the transport's error. *)
Lemma transport_run c w :
  exists ok w',
    log w' = log w ++ [Sent c ok] /\ ncalls w' = S (ncalls w)
    /\ heap w' = heap w /\ (forall st, rendering st w w')
    /\ match transportFailure env (ncalls w) c with
       | None => ok = true /\ transport env c w = (Returned tt, w')
       | Some e => ok = false /\ transport env c w = (Thrown e, w')
       end.
Proof.
  unfold transport. mred.
  destruct (transportFailure env (ncalls w) c) as [e|]; mred;
    eexists _, _; (split; [|split; [|split; [|split; [|split; reflexivity]]]]);
    cbn; try reflexivity;
    intros st; constructor; cbn; try reflexivity;
    eexists; (split; [reflexivity | repeat constructor]).
Qed.

(** A guarded transport call never throws. *)
Lemma guarded_transport_run c w :
  exists ok w',
    try_catch (transport env c) (fun _ => mret tt) w = (Returned tt, w')
    /\ log w' = log w ++ [Sent c ok] /\ ncalls w' = S (ncalls w)
    /\ heap w' = heap w /\ (forall st, rendering st w w').
Proof.
  destruct (transport_run c w) as (ok & w' & Hlog & Hn & Hh & Hr & Hrun).
  exists ok, w'. split; [|auto].
  destruct (transportFailure env (ncalls w) c) as [e|]; destruct Hrun as [_ Hrun].
  - now rewrite (try_catch_thrown _ _ _ _ _ Hrun).
  - now rewrite (try_catch_returned _ _ _ _ _ Hrun).
Qed.

(** Best-effort deletion of a list of messages: every deletion is
    attempted, in order, whatever the earlier ones did. *)
Lemma delete_each_run (msgs : list Message) w :
  exists w' evs,
    forEach msgs (fun toolMsg =>
      try_catch (deleteMessage env toolMsg) (fun _ => mret tt)) w = (Returned tt, w')
    /\ log w' = log w ++ evs /\ calls evs = map deleteOf msgs
    /\ length evs = length msgs
    /\ ncalls w' = (ncalls w + length msgs)%nat
    /\ heap w' = heap w /\ (forall st, rendering st w w').
Proof.
  revert w. induction msgs as [|m msgs IH]; intros w.
  - exists w, []. cbn [forEach map calls length]. rewrite app_nil_r, Nat.add_0_r.
    repeat (split; [reflexivity|]). intros st. apply rendering_refl.
  - destruct (guarded_transport_run (deleteOf m) w)
      as (ok & w1 & Hrun & Hlog & Hn & Hh & Hr).
    destruct (IH w1) as (w' & evs & Hrun' & Hlog' & Hc & Hl & Hn' & Hh' & Hr').
    exists w', (Sent (deleteOf m) ok :: evs).
    cbn [forEach]. unfold deleteMessage at 1.
    rewrite (bind_returned _ _ _ _ _ Hrun).
    split; [exact Hrun'|].
    split; [now rewrite Hlog', Hlog, <- app_assoc|].
    split; [cbn; now rewrite Hc|].
    split; [cbn; now rewrite Hl|].
    split; [cbn; lia|].
    split; [congruence|].
    intros st. eapply rendering_trans; eauto.
Qed.

Lemma streq_refl s : streq s s = true.
Proof. unfold streq. now apply bool_decide_eq_true. Qed.

Lemma statusCallback_done ctx st content segmentId :
  statusCallback env ctx st (lit "done") content segmentId
  = try_catch (onDone env st) (fun _ => mret tt).
Proof.
  unfold statusCallback.
  replace (streq (lit "done") (lit "thinking")) with false by (symmetry; vm_compute; reflexivity).
  replace (streq (lit "done") (lit "tool")) with false by (symmetry; vm_compute; reflexivity).
  unfold withSegment.
  replace (streq (lit "done") (lit "text")) with false by (symmetry; vm_compute; reflexivity).
  replace (streq (lit "done") (lit "segment_end")) with false by (symmetry; vm_compute; reflexivity).
  now rewrite streq_refl.
Qed.

(** C5. Whatever the event and whatever the transport does, the status
    callback returns normally; and on [done] a deletion is attempted for
    every ephemeral message, in order, even when earlier deletions
    fail. *)
Theorem statusCallback_absorbs_failures
    (ctx : Context) (st : nat) (statusType content : jsstring)
    (segmentId : option Z) (w : World) :
  outcome (statusCallback env ctx st statusType content segmentId) w = Returned tt
  /\ outcome (statusCallback env ctx st (lit "done") content segmentId) w = Returned tt
  /\ calls (since w (exec (statusCallback env ctx st (lit "done") content segmentId) w))
     = map deleteOf (toolMessages (stateAt w st)).
Proof.
  assert (Hret : forall ty, outcome (statusCallback env ctx st ty content segmentId) w
                            = Returned tt).
  { intros ty. unfold statusCallback, outcome, try_catch.
    match goal with |- context [ let (_, _) := ?m w in _ ] => destruct (m w) as [[[]|e] w'] end;
      reflexivity. }
  split; [apply Hret|]. split; [apply Hret|].
  rewrite statusCallback_done.
  destruct (delete_each_run (toolMessages (stateAt w st)) w)
    as (w' & evs & Hrun & Hlog & Hc & _).
  assert (Hdone : onDone env st w = (Returned tt, w')).
  { unfold onDone. now rewrite (bind_returned _ _ w (stateAt w st) w) by reflexivity. }
  unfold exec. rewrite (try_catch_returned _ _ _ _ _ Hdone). cbn [snd].
  now rewrite (since_app _ _ _ Hlog).
Qed.

End CallbackFacts.

(** ** Text events and the throttle *)

Ltac wsimpl :=
  cbn [session heap log ncalls ninvocations clock typingLoops lastHeartbeat fst snd
       sent touch wSession wHeap wLog wCalls wInvocations wClock wTypingLoops
       wLastHeartbeat textMessages toolMessages lastEditTimes withTextMessage
       withLastEditTime withToolMessage].

Section TextFacts.

Context (env : Env) (ctx : Context) (st : nat).

Lemma transport_eq c w :
  transport env c w
  = match transportFailure env (ncalls w) c with
    | None => (Returned tt, sent c true w)
    | Some e => (Thrown e, sent c false w)
    end.
Proof.
  unfold transport, sent. mred.
  now destruct (transportFailure env (ncalls w) c).
Qed.

Lemma reply_eq text mode w :
  reply env ctx text mode w
  = match transportFailure env (ncalls w) (Reply (chatOf ctx) text mode) with
    | None => (Returned {| chat_id := chatOf ctx; message_id := Z.of_nat (ncalls w) |},
               sent (Reply (chatOf ctx) text mode) true w)
    | Some e => (Thrown e, sent (Reply (chatOf ctx) text mode) false w)
    end.
Proof.
  unfold reply. rewrite (bind_returned _ _ w w w) by reflexivity.
  fold (chatOf ctx). unfold mbind at 1, M_bind at 1. rewrite transport_eq.
  now destruct (transportFailure env (ncalls w) _).
Qed.

Lemma getState_eq w : getState st w = (Returned (stateAt w st), w).
Proof. reflexivity. Qed.

Lemma putState_eq s w :
  putState st s w = (Returned tt, wHeap (<[st := s]> (heap w)) w).
Proof. reflexivity. Qed.

Lemma stateAt_put s w :
  (st < length (heap w))%nat -> stateAt (wHeap (<[st := s]> (heap w)) w) st = s.
Proof.
  intros H. unfold stateAt. cbn [heap wHeap].
  now rewrite list_lookup_insert_eq.
Qed.


Lemma setTextMessage_eq seg msg w :
  setTextMessage st seg msg w = (Returned tt, touch st (withTextMessage seg msg) w).
Proof. reflexivity. Qed.

Lemma setLastEditTime_eq seg now w :
  setLastEditTime st seg now w = (Returned tt, touch st (withLastEditTime seg now) w).
Proof. reflexivity. Qed.

Lemma pushToolMessage_eq msg w :
  pushToolMessage st msg w = (Returned tt, touch st (withToolMessage msg) w).
Proof. reflexivity. Qed.

Lemma stateAt_touch f w :
  (st < length (heap w))%nat -> stateAt (touch st f w) st = f (stateAt w st).
Proof.
  intros H. unfold stateAt at 1, touch. cbn [heap wHeap].
  now rewrite list_lookup_insert_eq.
Qed.

Lemma stateAt_touch_ne j f w : j <> st -> stateAt (touch st f w) j = stateAt w j.
Proof.
  intros H. unfold stateAt, touch. cbn [heap wHeap].
  now rewrite list_lookup_insert_ne by congruence.
Qed.

Lemma length_heap_touch f w : length (heap (touch st f w)) = length (heap w).
Proof. unfold touch. cbn [heap wHeap]. apply length_insert. Qed.

Lemma stateAt_sent c ok w j : stateAt (sent c ok w) j = stateAt w j.
Proof. reflexivity. Qed.

Lemma since_sent_touch w w' evs : log w' = log w ++ evs -> since w w' = evs.
Proof. apply since_app. Qed.





End TextFacts.


(** ** The end of a segment *)


Section SegmentEndFacts.

Context (env : Env) (ctx : Context) (st : nat).









End SegmentEndFacts.




(** ** Frames *)

Section Frames.

Context (R : World -> World -> Prop).
Hypothesis R_refl : forall w, R w w.
Hypothesis R_trans : forall w1 w2 w3, R w1 w2 -> R w2 w3 -> R w1 w3.

Lemma frames_ret {A} (a : A) : frames R (mret a).
Proof. intros w. apply R_refl. Qed.

Lemma frames_get : frames R get.
Proof. intros w. apply R_refl. Qed.

Lemma frames_throw {A} e : frames R (@throw A e).
Proof. intros w. apply R_refl. Qed.

Lemma frames_bind {A B} (m : M A) (f : A -> M B) :
  frames R m -> (forall a, frames R (f a)) -> frames R (m ≫= f).
Proof.
  intros Hm Hf w. unfold mbind, M_bind. specialize (Hm w).
  destruct (m w) as [[a|e] w1]; cbn [snd] in *; [|assumption].
  eapply R_trans; [eassumption | apply Hf].
Qed.

Lemma frames_try_catch {A} (m : M A) h :
  frames R m -> (forall e, frames R (h e)) -> frames R (try_catch m h).
Proof.
  intros Hm Hh w. unfold try_catch. specialize (Hm w).
  destruct (m w) as [[a|e] w1]; cbn [snd] in *; [assumption|].
  eapply R_trans; [eassumption | apply Hh].
Qed.

Lemma frames_forEach {A} (xs : list A) body :
  (forall x, frames R (body x)) -> frames R (forEach xs body).
Proof.
  intros Hb. induction xs as [|x xs IH]; cbn [forEach].
  - apply frames_ret.
  - apply frames_bind; auto.
Qed.

End Frames.

Lemma total_ret {A} (a : A) : total (mret a).
Proof. intros w. now exists a, w. Qed.

Lemma total_bind {A B} (m : M A) (f : A -> M B) :
  total m -> (forall a, total (f a)) -> total (m ≫= f).
Proof.
  intros Hm Hf w. destruct (Hm w) as (a & w1 & H1).
  rewrite (bind_returned _ _ _ _ _ H1). apply Hf.
Qed.

Lemma total_try_catch {A} (m : M A) h : (forall e, total (h e)) -> total (try_catch m h).
Proof.
  intros Hh w. unfold try_catch.
  destruct (m w) as [[a|e] w1]; [now exists a, w1 | apply Hh].
Qed.

Lemma total_forEach {A} (xs : list A) body :
  (forall x, total (body x)) -> total (forEach xs body).
Proof.
  intros Hb. induction xs as [|x xs IH]; cbn [forEach].
  - apply total_ret.
  - apply total_bind; auto.
Qed.

Lemma rendering_streaming st w w' : rendering st w w' -> streaming st w w'.
Proof.
  intros [s1 i1 c1 t1 h1 l1 o1 (evs & Hlog & Hall)].
  constructor; try assumption; [now rewrite s1|].
  exists evs. split; [assumption|].
  eapply Forall_impl; [eassumption|]. now intros [].
Qed.

Lemma streaming_refl st w : streaming st w w.
Proof. apply rendering_streaming, rendering_refl. Qed.

Lemma streaming_trans st w1 w2 w3 :
  streaming st w1 w2 -> streaming st w2 w3 -> streaming st w1 w3.
Proof.
  intros [r1 i1 t1 l1 o1 (e1 & H1 & F1)] [r2 i2 t2 l2 o2 (e2 & H2 & F2)].
  constructor; try congruence.
  - intros j Hj. rewrite o2, o1; auto.
  - exists (e1 ++ e2). split; [now rewrite H2, H1, app_assoc | now apply Forall_app].
Qed.

Section CallbackFrames.

Context (env : Env) (ctx : Context) (st : nat).

Local Abbreviation renders := (frames (rendering st)).

Lemma renders_transport c : renders (transport env c).
Proof.
  intros w. destruct (transport_run env c w) as (ok & w' & _ & _ & _ & Hr & Hrun).
  destruct (transportFailure env (ncalls w) c); destruct Hrun as [_ ->]; apply Hr.
Qed.

Lemma renders_reply text mode : renders (reply env ctx text mode).
Proof.
  unfold reply. apply frames_bind; [apply rendering_trans | apply frames_get; apply rendering_refl |].
  intros w0. apply frames_bind; [apply rendering_trans | apply renders_transport |].
  intros _. apply frames_ret, rendering_refl.
Qed.

Lemma renders_touch f : renders (fun w => (Returned tt, touch st f w)).
Proof.
  intros w. cbn [snd]. constructor; try reflexivity.
  - apply length_heap_touch.
  - intros j Hj. unfold touch. cbn [heap wHeap].
    now rewrite list_lookup_insert_ne by congruence.
  - exists []. split; [now rewrite app_nil_r | constructor].
Qed.

Ltac frame_step :=
  lazymatch goal with
  | |- frames _ (reply _ _ _ _) => apply renders_reply
  | |- frames _ (transport _ _) => apply renders_transport
  | |- frames _ (mret _) => apply frames_ret; apply rendering_refl
  | |- frames _ get => apply frames_get; apply rendering_refl
  | |- frames _ (try_catch _ _) =>
      apply frames_try_catch; [apply rendering_trans | | intros ?]
  | |- frames _ (forEach _ _) =>
      apply frames_forEach; [apply rendering_refl | apply rendering_trans | intros ?]
  | |- frames _ (_ ≫= _) => apply frames_bind; [apply rendering_trans | | intros ?]
  end.

Lemma renders_sendChunks formatted : forall fuel i,
  renders (sendChunks env fuel ctx formatted i).
Proof.
  induction fuel as [|fuel IH]; intros i; cbn [sendChunks].
  - frame_step.
  - destruct (i <? length formatted)%nat; [|frame_step].
    frame_step; [repeat frame_step | apply IH].
Qed.

Lemma renders_getState : renders (getState st).
Proof. unfold getState. repeat frame_step. Qed.

Lemma renders_onDone : renders (onDone env st).
Proof.
  unfold onDone. apply frames_bind; [apply rendering_trans | apply renders_getState |].
  intros s. repeat frame_step. unfold deleteMessage. frame_step.
Qed.

(** The status callback talks to the transport and touches its own state
    object, nothing else. *)
Lemma renders_statusCallback statusType content segmentId :
  renders (statusCallback env ctx st statusType content segmentId).
Proof.
  unfold statusCallback. frame_step; [|frame_step].
  destruct (streq statusType (lit "thinking")).
  { unfold onThinking. frame_step; [frame_step|]. apply (renders_touch (withToolMessage _)). }
  destruct (streq statusType (lit "tool")).
  { unfold onTool. frame_step; [frame_step|]. apply (renders_touch (withToolMessage _)). }
  destruct (withSegment statusType (lit "text") segmentId) as [seg|].
  { unfold onText. frame_step; [frame_step|].
    apply frames_bind; [apply rendering_trans | apply renders_getState |]. intros s.
    destruct (textMessages s !! seg) as [msg|].
    - destruct (_ >? _)%Z; [|frame_step].
      unfold editMessageText. repeat frame_step.
      apply (renders_touch (withLastEditTime _ _)).
    - frame_step.
      + frame_step.
        * frame_step; [frame_step|]. apply (renders_touch (withTextMessage _ _)).
        * frame_step; [frame_step|]. apply (renders_touch (withTextMessage _ _)).
      + apply (renders_touch (withLastEditTime _ _)). }
  destruct (withSegment statusType (lit "segment_end") segmentId) as [seg|].
  { unfold onSegmentEnd.
    apply frames_bind; [apply rendering_trans | apply renders_getState |]. intros s.
    destruct (textMessages s !! seg) as [msg|]; [|frame_step].
    destruct (truthy content); [|frame_step].
    destruct (_ <=? _)%nat.
    - unfold editMessageText. repeat frame_step.
    - unfold deleteMessage. frame_step; [repeat frame_step|]. apply renders_sendChunks. }
  destruct (streq statusType (lit "done")); [apply renders_onDone | frame_step].
Qed.

Lemma total_statusCallback statusType content segmentId :
  total (statusCallback env ctx st statusType content segmentId).
Proof.
  unfold statusCallback. apply total_try_catch. intros e. apply total_ret.
Qed.

End CallbackFrames.

(** ** The streaming query *)

Section QueryFacts.

Context (env : Env) (ctx : Context) (st : nat).

Local Abbreviation streams := (frames (streaming st)).

Ltac prim :=
  intros w; mred; constructor; cbn; try reflexivity;
  eexists; (split; [try reflexivity | repeat constructor]);
  rewrite <- ?app_assoc; try reflexivity; now rewrite app_nil_r.

Lemma streams_stop : streams (stop env).
Proof.
  intros w. unfold stop. mred. destruct (isRunning (session w)) eqn:Hrun.
  - mred. constructor; cbn; try reflexivity; try exact Hrun.
    eexists. split; [reflexivity | repeat constructor].
  - mred. constructor; cbn; try reflexivity.
    eexists. split; [reflexivity | repeat constructor].
Qed.

Lemma total_stop : total (stop env).
Proof.
  intros w. unfold stop. mred. destruct (isRunning (session w)); mred; eauto.
Qed.

Lemma streams_checkInterrupt text : streams (checkInterrupt env text).
Proof.
  intros w. unfold checkInterrupt.
  destruct (negb (truthy text) || negb (startsWith text (lit "!"))).
  { apply streaming_refl. }
  unfold markInterrupt, stop, sleep, clearStopRequested, withInterruptRequested,
    withStopRequested.
  mred. destruct (isRunning (session w)) eqn:Hrun; mred.
  - rewrite Hrun. mred. constructor; cbn; try reflexivity; try (symmetry; exact Hrun).
    eexists. split; [now rewrite <- !app_assoc | repeat constructor].
  - apply streaming_refl.
Qed.

Lemma total_checkInterrupt text : total (checkInterrupt env text).
Proof.
  intros w. unfold checkInterrupt.
  destruct (negb (truthy text) || negb (startsWith text (lit "!"))).
  { now eexists _, _. }
  unfold markInterrupt, stop, sleep, clearStopRequested, withInterruptRequested.
  mred. destruct (isRunning (session w)) eqn:Hrun; mred; [rewrite Hrun; mred|]; eauto.
Qed.

Lemma adapterStep_total step : total (adapterStep env (statusCallback env ctx st) step).
Proof.
  destruct step as [now ty content seg | sid | warning | [text|]]; cbn [adapterStep].
  - apply total_bind; [intros w; now eexists _, _|]. intros _. apply total_statusCallback.
  - intros w. now eexists _, _.
  - intros w. now eexists _, _.
  - apply total_bind; [apply total_checkInterrupt | intros _; apply total_ret].
  - apply total_bind; [apply total_stop | intros _; apply total_ret].
Qed.

Lemma adapterStep_streams step : streams (adapterStep env (statusCallback env ctx st) step).
Proof.
  destruct step as [now ty content seg | sid | warning | [text|]]; cbn [adapterStep].
  - apply frames_bind; [apply streaming_trans | |].
    + intros w. mred. constructor; cbn; try reflexivity.
      exists []. split; [now rewrite app_nil_r | constructor].
    + intros _ w. apply rendering_streaming, renders_statusCallback.
  - intros w. mred. constructor; cbn; try reflexivity.
    exists []. split; [now rewrite app_nil_r | constructor].
  - intros w. mred. constructor; cbn; try reflexivity.
    exists []. split; [now rewrite app_nil_r | constructor].
  - apply frames_bind; [apply streaming_trans | apply streams_checkInterrupt |].
    intros _. apply frames_ret, streaming_refl.
  - apply frames_bind; [apply streaming_trans | apply streams_stop |].
    intros _. apply frames_ret, streaming_refl.
Qed.

(** A query with the status callback as its sink: it is recorded, the
    adapter's steps run, and the call resolves or rejects as the adapter
    says. *)
Lemma sendMessageStreaming_run prompt username userId chatId w :
  let script := adapter env (ninvocations w) in
  exists w' evs,
    sendMessageStreaming env prompt username userId (statusCallback env ctx st) chatId w
    = (match result script with
       | Resolve finalText => Returned finalText
       | Reject errorStr => Thrown errorStr
       end, w')
    /\ log w' = log w ++ Invoked prompt username userId chatId :: evs
                       ++ [Ended (result script)]
    /\ Forall duringQuery evs
    /\ isRunning (session w') = isRunning (session w)
    /\ ninvocations w' = S (ninvocations w)
    /\ typingLoops w' = typingLoops w
    /\ length (heap w') = length (heap w)
    /\ (forall j, j <> st -> heap w' !! j = heap w !! j).
Proof.
  cbv zeta. unfold sendMessageStreaming.
  set (w1 := wLog (log w ++ [Invoked prompt username userId chatId])
               (wInvocations (S (ninvocations w)) w)).
  rewrite (bind_returned _ _ w (ninvocations w) (wInvocations (S (ninvocations w)) w))
    by reflexivity.
  rewrite (bind_returned _ _ _ tt w1) by reflexivity.
  set (script := adapter env (ninvocations w)).
  destruct (total_forEach (steps script) (adapterStep env (statusCallback env ctx st))
              adapterStep_total w1) as ([] & w2 & Hrun).
  pose proof (frames_forEach (streaming st) (streaming_refl st) (streaming_trans st)
                (steps script) _ adapterStep_streams w1) as Hframe.
  rewrite Hrun in Hframe. cbn [snd] in Hframe.
  destruct Hframe as [r2 i2 t2 l2 o2 (evs & Hlog & Hall)].
  rewrite (bind_returned _ _ _ _ _ Hrun).
  rewrite (bind_returned _ _ _ tt (wLog (log w2 ++ [Ended (result script)]) w2))
    by reflexivity.
  exists (wLog (log w2 ++ [Ended (result script)]) w2), evs.
  split; [now destruct (result script)|].
  cbn [log wLog session ninvocations typingLoops heap].
  split; [rewrite Hlog; subst w1; cbn [log wLog]; now rewrite <- !app_assoc|].
  split; [assumption|].
  repeat split; assumption.
Qed.

Lemma statusCallback_context_warning content w :
  statusCallback env ctx st (lit "context_warning") content None w = (Returned tt, w).
Proof.
  unfold statusCallback.
  replace (streq (lit "context_warning") (lit "thinking")) with false
    by (symmetry; vm_compute; reflexivity).
  replace (streq (lit "context_warning") (lit "tool")) with false
    by (symmetry; vm_compute; reflexivity).
  unfold withSegment.
  replace (streq (lit "context_warning") (lit "text")) with false
    by (symmetry; vm_compute; reflexivity).
  replace (streq (lit "context_warning") (lit "segment_end")) with false
    by (symmetry; vm_compute; reflexivity).
  replace (streq (lit "context_warning") (lit "done")) with false
    by (symmetry; vm_compute; reflexivity).
  reflexivity.
Qed.

End QueryFacts.

(** ** The text handler *)


Section HandlerFacts.

Context (env : Env) (ctx : Context).

(** The interrupt check of a "!" message that finds a query running. *)
Lemma checkInterrupt_running text w :
  startsWith text (lit "!") = true ->
  isRunning (session w) = true ->
  checkInterrupt env text w
  = (Returned (trimStart (sliceFrom text 1)),
     wSession (withStopRequested false
                 (withStopRequested true (withInterruptRequested true (session w))))
       (wLog (log w ++ [SessionCall OpMarkInterrupt; SessionCall OpStop;
                        SessionCall OpClearStopRequested])
          (wClock (clock w + 100) w))).
Proof.
  intros Hbang Hrun. unfold checkInterrupt. rewrite Hbang.
  assert (truthy text = true) as -> by (destruct text; [discriminate|reflexivity]).
  cbn [negb orb].
  unfold markInterrupt, stop, sleep, clearStopRequested, withInterruptRequested,
    withStopRequested.
  mred. rewrite Hrun. mred. rewrite Hrun. mred. now rewrite <- !app_assoc.
Qed.



End HandlerFacts.


(** C1 fails on the program: the assistant's query fails, the handler's
    own error reply is rejected by the transport, and the handler leaves
    through the exception without ever calling [stopProcessing]. The
    running flag stays set and the typing indicator keeps running. *)
Theorem handleText_leaves_isRunning_set :
  let w := worldOf idleSession in
  let r := handleText brokenEnv (sampleCtx "hi") w in
  r.1 = Thrown (lit "Error: Network request failed")
  /\ isRunning (session w) = false
  /\ isRunning (session r.2) = true
  /\ typingLoops r.2 = 1%nat
  /\ sessionCalls (since w r.2) = [OpStartProcessing].
Proof. vm_compute. repeat split; reflexivity. Qed.

(** ** The retry loop *)

Ltac lnorm := repeat (progress (cbn [app]; rewrite <- ?app_assoc)).

Section RetryFacts.

Context (env : Env) (ctx : Context).

(** The handler up to the retry loop. *)
Lemma handleText_accepted userId chatId message username w :
  accepted env ctx userId chatId message username ->
  handleText env ctx w
  = (handleText_loop env (S MAX_RETRIES) ctx message username userId chatId 0
       (length (heap w)) ;; finish) (started message w).
Proof.
  intros [Hfrom Huser Hchat Hchatid Htext Hplain Hblank Hname Hauth Hrate].
  unfold handleText. rewrite Hfrom, Hchat, Htext. cbn [numTruthy optTruthy default from_option id].
  assert (truthy message = true) as -> by (destruct message; [now destruct Hblank | reflexivity]).
  destruct (Z.eqb_spec userId 0) as [|_]; [contradiction|].
  destruct (Z.eqb_spec chatId 0) as [|_]; [contradiction|].
  cbn [negb orb]. rewrite Hauth. cbn [negb].
  unfold checkInterrupt. rewrite Hplain, orb_true_r.
  rewrite (bind_returned _ _ w message w) by reflexivity.
  assert (truthy (trim message) = true) as -> by (now destruct (trim message)).
  cbn [negb]. destruct (rateLimiterCheck env userId) as [allowed retryAfter].
  cbn [fst] in Hrate. subst allowed. cbn [negb].
  rewrite <- Hname.
  unfold startProcessing, startTypingIndicator, allocState, started, titled.
  mred. destruct (negb (isActive (withLastMessage (Some message) (session w)))); reflexivity.
Qed.

(** The [try] block of one attempt. *)
Lemma try_run message username userId chatId st w :
  let script := adapter env (ninvocations w) in
  exists w' evs,
    Forall duringQuery evs
    /\ isRunning (session w') = isRunning (session w)
    /\ ninvocations w' = S (ninvocations w)
    /\ typingLoops w' = typingLoops w
    /\ length (heap w') = length (heap w)
    /\ (forall j, j <> st -> heap w' !! j = heap w !! j)
    /\ match result script with
       | Resolve response =>
           handleText_try env ctx message username userId chatId st w
           = (Returned Break, w')
           /\ log w' = log w ++ Invoked message username userId (Some chatId) :: evs
                        ++ [Ended (Resolve response);
                            SessionCall OpConsumeContextWarning;
                            Audited (textAudit userId username message response)]
       | Reject errorStr =>
           handleText_try env ctx message username userId chatId st w
           = (Thrown errorStr, w')
           /\ log w' = log w ++ Invoked message username userId (Some chatId) :: evs
                        ++ [Ended (Reject errorStr)]
       end.
Proof.
  cbv zeta. unfold handleText_try.
  destruct (sendMessageStreaming_run env ctx st message username userId (Some chatId) w)
    as (w1 & evs & Hrun & Hlog & Hall & Hr & Hi & Ht & Hl & Ho).
  cbv zeta in Hrun, Hlog.
  destruct (result (adapter env (ninvocations w))) as [response | errorStr].
  - rewrite (bind_returned _ _ _ _ _ Hrun).
    set (w2 := wSession (withContextWarning None (session w1))
                 (wLog (log w1 ++ [SessionCall OpConsumeContextWarning]) w1)).
    rewrite (bind_returned _ _ w1 (contextWarning (session w1)) w2) by reflexivity.
    assert (Hcb : (if optTruthy (contextWarning (session w1))
                   then statusCallback env ctx st (lit "context_warning")
                          (default [] (contextWarning (session w1))) None
                   else mret tt) w2 = (Returned tt, w2)).
    { destruct (optTruthy _); [apply statusCallback_context_warning | reflexivity]. }
    rewrite (bind_returned _ _ _ _ _ Hcb).
    exists (wLog (log w2 ++ [Audited (textAudit userId username message response)]) w2), evs.
    subst w2. wsimpl. cbn [isRunning withContextWarning].
    repeat (split; [assumption|]).
    split; [reflexivity|]. rewrite Hlog. now lnorm.
  - exists w1, evs. rewrite (bind_thrown _ _ _ _ _ Hrun). auto 10.
Qed.

(** The [catch] block of an attempt that is retried. *)
Lemma catch_retry attempt state errorStr w :
  isCrash errorStr = true ->
  (attempt < MAX_RETRIES)%nat ->
  (forall n, transportFailure env n (Reply (chatOf ctx) retryNotice Plain) = None) ->
  exists w' cleanup,
    handleText_catch env ctx attempt state errorStr w
    = (Returned (Continue (length (heap w))), w')
    /\ log w' = log w ++ cleanup
                 ++ [SessionCall OpKill; Sent (Reply (chatOf ctx) retryNotice Plain) true]
    /\ calls cleanup = map deleteOf (toolMessages (stateAt w state))
    /\ Forall isSent cleanup
    /\ isRunning (session w') = isRunning (session w)
    /\ ninvocations w' = ninvocations w
    /\ typingLoops w' = typingLoops w
    /\ heap w' = heap w ++ [newState].
Proof.
  intros Hcrash Hattempt Hnotice. unfold handleText_catch.
  fold (isCrash errorStr). rewrite Hcrash.
  destruct (Nat.ltb_spec attempt MAX_RETRIES) as [_|]; [|lia]. cbn [andb].
  destruct (delete_each_run env (toolMessages (stateAt w state)) w)
    as (w1 & cleanup & Hrun & Hlog & Hcalls & _ & _ & Hheap & Hframe).
  destruct (Hframe 0%nat) as [Hs Hi _ Ht _ _ _ (evs' & Hlog' & Hall)].
  rewrite Hlog in Hlog'. apply app_inv_head in Hlog'. subst evs'.
  rewrite (bind_returned _ _ w (stateAt w state) w) by reflexivity.
  rewrite (bind_returned _ _ _ _ _ Hrun).
  set (w2 := wSession (withSessionId None (session w1))
               (wLog (log w1 ++ [SessionCall OpKill]) w1)).
  rewrite (bind_returned _ _ w1 tt w2) by reflexivity.
  fold retryNotice. unfold mbind at 1, M_bind at 1. rewrite reply_eq, Hnotice.
  unfold allocState. mred.
  eexists _, cleanup. split; [subst w2; wsimpl; rewrite Hheap; reflexivity|].
  subst w2. wsimpl. cbn [isRunning withSessionId].
  split; [rewrite Hlog; now lnorm|].
  split; [assumption|]. split; [assumption|].
  split; [now rewrite Hs|]. split; [assumption|]. split; [assumption|].
  rewrite ?Hheap. reflexivity.
Qed.

(** The [catch] block of a failure that is neither retried nor a
    cancellation. *)
Lemma catch_error attempt state errorStr w :
  isCancel errorStr = false ->
  isCrash errorStr && (attempt <? MAX_RETRIES)%nat = false ->
  exists w' cleanup r ok,
    handleText_catch env ctx attempt state errorStr w = (r, w')
    /\ (r = Returned Break \/ exists e, r = Thrown e)
    /\ log w' = log w ++ cleanup
                 ++ [Sent (Reply (chatOf ctx) (errorNotice errorStr) Plain) ok]
    /\ calls cleanup = map deleteOf (toolMessages (stateAt w state))
    /\ Forall isSent cleanup
    /\ isRunning (session w') = isRunning (session w)
    /\ heap w' = heap w.
Proof.
  intros Hcancel Hterminal. unfold handleText_catch.
  fold (isCrash errorStr). rewrite Hterminal.
  change (includes errorStr (lit "abort") || includes errorStr (lit "cancel"))
    with (isCancel errorStr). rewrite Hcancel.
  destruct (delete_each_run env (toolMessages (stateAt w state)) w)
    as (w1 & cleanup & Hrun & Hlog & Hcalls & _ & _ & Hheap & Hframe).
  destruct (Hframe 0%nat) as [Hs Hi _ Ht _ _ _ (evs' & Hlog' & Hall)].
  rewrite Hlog in Hlog'. apply app_inv_head in Hlog'. subst evs'.
  rewrite (bind_returned _ _ w (stateAt w state) w) by reflexivity.
  rewrite (bind_returned _ _ _ _ _ Hrun).
  fold (errorNotice errorStr).
  unfold mbind at 1, M_bind at 1. unfold mbind at 1, M_bind at 1. rewrite reply_eq.
  destruct (transportFailure env (ncalls w1) _) as [e|].
  - eexists _, cleanup, _, false. split; [reflexivity|].
    split; [eauto|]. wsimpl.
    split; [now rewrite Hlog, <- app_assoc|].
    split; [assumption|]. split; [assumption|]. split; [now rewrite Hs | assumption].
  - eexists _, cleanup, _, true. split; [reflexivity|].
    split; [now left|]. wsimpl.
    split; [now rewrite Hlog, <- app_assoc|].
    split; [assumption|]. split; [assumption|]. split; [now rewrite Hs | assumption].
Qed.

Lemma queries_sent evs : Forall isSent evs -> queries evs = [].
Proof.
  induction 1 as [|e evs He _ IH]; [reflexivity|].
  destruct e; cbn in *; try contradiction; assumption.
Qed.

Lemma queries_app l1 l2 : queries (l1 ++ l2) = queries l1 ++ queries l2.
Proof.
  induction l1 as [|e l1 IH]; [reflexivity|].
  destruct e; cbn; now rewrite IH.
Qed.

Lemma sessionCall_not_sent op evs : Forall isSent evs -> ~ In (SessionCall op) evs.
Proof.
  intros Hall Hin. rewrite Forall_forall in Hall.
  apply list_elem_of_In, Hall in Hin. exact Hin.
Qed.

(** The [catch] block of a failure that is not retried and is a
    cancellation. *)
Lemma catch_cancelled_sent attempt state errorStr w :
  isCancel errorStr = true ->
  isCrash errorStr && (attempt <? MAX_RETRIES)%nat = false ->
  exists w1 cleanup,
    log w1 = log w ++ cleanup
    /\ Forall isSent cleanup
    /\ calls cleanup = map deleteOf (toolMessages (stateAt w state))
    /\ session w1 = session w /\ heap w1 = heap w
    /\ typingLoops w1 = typingLoops w /\ ninvocations w1 = ninvocations w
    /\ if interruptRequested (session w) then
         handleText_catch env ctx attempt state errorStr w
         = (Returned Break,
            wSession (withInterruptRequested false (session w1))
              (wLog (log w1 ++ [SessionCall OpConsumeInterruptFlag]) w1))
       else
         exists r ok,
           handleText_catch env ctx attempt state errorStr w
           = (r, sent (Reply (chatOf ctx) stopNotice Plain) ok
                   (wSession (withInterruptRequested false (session w1))
                      (wLog (log w1 ++ [SessionCall OpConsumeInterruptFlag]) w1)))
           /\ (r = Returned Break \/ exists e, r = Thrown e).
Proof.
  intros Hcancel Hterminal. unfold handleText_catch.
  fold (isCrash errorStr). rewrite Hterminal.
  change (includes errorStr (lit "abort") || includes errorStr (lit "cancel"))
    with (isCancel errorStr). rewrite Hcancel.
  destruct (delete_each_run env (toolMessages (stateAt w state)) w)
    as (w1 & cleanup & Hrun & Hlog & Hcalls & _ & _ & Hheap & Hframe).
  destruct (Hframe 0%nat) as [Hs Hi _ Ht _ _ _ (evs' & Hlog' & Hall)].
  rewrite Hlog in Hlog'. apply app_inv_head in Hlog'. subst evs'.
  exists w1, cleanup. repeat (split; [assumption|]).
  rewrite (bind_returned _ _ w (stateAt w state) w) by reflexivity.
  rewrite (bind_returned _ _ _ _ _ Hrun).
  unfold consumeInterruptFlag, withInterruptRequested. mred.
  rewrite <- Hs. destruct (interruptRequested (session w1)); cbn [negb].
  - reflexivity.
  - fold stopNotice. rewrite reply_eq. wsimpl.
    destruct (transportFailure env (ncalls w1) _); eauto 7.
Qed.

(** The [catch] block of a failure that is not retried. *)
Lemma catch_terminal attempt state errorStr w :
  isCrash errorStr && (attempt <? MAX_RETRIES)%nat = false ->
  exists r w' cleanup report,
    handleText_catch env ctx attempt state errorStr w = (r, w')
    /\ (r = Returned Break \/ exists e, r = Thrown e)
    /\ log w' = log w ++ cleanup ++ report
    /\ Forall isSent cleanup
    /\ calls cleanup = map deleteOf (toolMessages (stateAt w state))
    /\ heap w' = heap w
    /\ isRunning (session w') = isRunning (session w)
    /\ queries report = [] /\ ~ In (SessionCall OpKill) report
    /\ (isCancel errorStr = false ->
        exists ok, report = [Sent (Reply (chatOf ctx) (errorNotice errorStr) Plain) ok]).
Proof.
  intros Hterminal. destruct (isCancel errorStr) eqn:Hcancel.
  - destruct (catch_cancelled_sent attempt state errorStr w Hcancel Hterminal)
      as (w1 & cleanup & Hlog & Hsent & Hcalls & Hs & Hheap & _ & _ & Hcatch).
    destruct (interruptRequested (session w)).
    + eexists _, _, cleanup, [_]. split; [exact Hcatch|].
      split; [now left|]. wsimpl. cbn [isRunning withInterruptRequested].
      split; [now rewrite Hlog, <- app_assoc|].
      split; [assumption|]. split; [assumption|]. split; [assumption|].
      split; [now rewrite Hs|]. split; [reflexivity|].
      split; [intros [H|[]]; discriminate | discriminate].
    + destruct Hcatch as (r & ok & Hcatch & Hr).
      eexists _, _, cleanup, [_; _]. split; [exact Hcatch|].
      split; [assumption|]. wsimpl. cbn [isRunning withInterruptRequested].
      split; [rewrite Hlog; now lnorm|].
      split; [assumption|]. split; [assumption|]. split; [assumption|].
      split; [now rewrite Hs|]. split; [reflexivity|].
      split; [intros [H|[H|[]]]; discriminate | discriminate].
  - destruct (catch_error attempt state errorStr w Hcancel Hterminal)
      as (w2 & cleanup & r & ok & Hcatch & Hr & Hlog & Hcalls & Hsent & Hrun & Hheap).
    exists r, w2, cleanup, [Sent (Reply (chatOf ctx) (errorNotice errorStr) Plain) ok].
    repeat (split; [assumption|]). split; [reflexivity|].
    split; [intros [H|[]]; discriminate | eauto].
Qed.

Lemma finish_eq w :
  finish w = (Returned tt,
              wTypingLoops (pred (typingLoops w))
                (wSession (withRunning false (session w))
                   (wLog (log w ++ [SessionCall OpStopProcessing]) w))).
Proof. reflexivity. Qed.

(** The second and last attempt, and the end of the handler. *)
Lemma last_attempt message username userId chatId st w :
  chatOf ctx = chatId ->
  let second := result (adapter env (ninvocations w)) in
  let r := (handleText_loop env 1 ctx message username userId chatId 1 st ;; finish) w in
  exists evs tail,
    log r.2 = log w ++ Invoked message username userId (Some chatId) :: evs
                    ++ Ended second :: tail
    /\ Forall duringQuery evs
    /\ length (heap r.2) = length (heap w)
    /\ (forall j, j <> st -> heap r.2 !! j = heap w !! j)
    /\ match second with
       | Resolve response =>
           tail = [ SessionCall OpConsumeContextWarning;
                    Audited (textAudit userId username message response);
                    SessionCall OpStopProcessing ]
           /\ r.1 = Returned tt /\ isRunning (session r.2) = false
       | Reject errorStr =>
           queries tail = [] /\ ~ In (SessionCall OpKill) tail
           /\ (isCancel errorStr = false ->
               exists cleanup ok rest,
                 tail = cleanup ++ Sent (Reply chatId (errorNotice errorStr) Plain) ok :: rest
                 /\ Forall isSent cleanup /\ calls rest = [])
       end.
Proof.
  intros Hchat. cbv zeta. cbn [handleText_loop].
  destruct (try_run message username userId chatId st w)
    as (w1 & evs & Hall & Hr & Hi & Ht & Hl & Ho & Hcase).
  cbv zeta in Hcase.
  destruct (result (adapter env (ninvocations w))) as [response | errorStr].
  - destruct Hcase as [Hrun Hlog].
    rewrite (bind_returned _ _ w tt w1).
    2: { rewrite (bind_returned _ _ w Break w1)
           by (now rewrite (try_catch_returned _ _ _ _ _ Hrun)).
         reflexivity. }
    rewrite finish_eq. cbn [fst snd]. wsimpl.
    exists evs. eexists. split; [rewrite Hlog; lnorm; reflexivity|].
    split; [assumption|]. split; [assumption|]. split; [assumption|].
    split; [reflexivity|]. split; reflexivity.
  - destruct Hcase as [Hrun Hlog].
    assert (Hterminal : isCrash errorStr && (1 <? MAX_RETRIES)%nat = false)
      by apply andb_false_r.
    destruct (catch_terminal 1 st errorStr w1 Hterminal)
      as (r & w2 & cleanup & report & Hcatch & Hr2 & Hlog2 & Hsent & Hcalls & Hheap
          & Hrun2 & Hq & Hkill & Herror).
    match goal with |- context [log (?t).2] => set (whole := t) end.
    assert (Hwhole : exists rest,
              log whole.2 = log w2 ++ rest /\ heap whole.2 = heap w2
              /\ (rest = [] \/ rest = [SessionCall OpStopProcessing])).
    { subst whole. destruct Hr2 as [-> | [e ->]].
      - rewrite (bind_returned _ _ w tt w2).
        2: { rewrite (bind_returned _ _ w Break w2); [reflexivity|].
             now rewrite (try_catch_thrown _ _ _ _ _ Hrun). }
        rewrite finish_eq. cbn [snd]. wsimpl. eauto 6.
      - rewrite (bind_thrown _ _ w e w2).
        2: { rewrite (bind_thrown _ _ w e w2); [reflexivity|].
             now rewrite (try_catch_thrown _ _ _ _ _ Hrun). }
        cbn [snd]. exists []. rewrite app_nil_r. auto. }
    destruct Hwhole as (rest & Hlog3 & Hheap3 & Hrest).
    exists evs, (cleanup ++ report ++ rest).
    split; [rewrite Hlog3, Hlog2, Hlog; now lnorm|].
    split; [assumption|].
    split; [rewrite Hheap3, Hheap; assumption|].
    split; [intros j Hj; rewrite Hheap3, Hheap; now apply Ho|].
    assert (Hrest_q : queries rest = [] /\ calls rest = [] /\ ~ In (SessionCall OpKill) rest).
    { destruct Hrest as [-> | ->]; cbn; (split; [|split]); auto;
        intros [H|[]]; discriminate. }
    destruct Hrest_q as (Hq3 & Hc3 & Hk3).
    split; [rewrite !queries_app, (queries_sent _ Hsent), Hq, Hq3; reflexivity|].
    split.
    + rewrite !in_app_iff. intros [H | [H | H]]; [|auto|auto].
      now apply (sessionCall_not_sent OpKill cleanup).
    + intros Hcancel. destruct (Herror Hcancel) as (ok & ->).
      rewrite Hchat. exists cleanup, ok, rest. auto.
Qed.

End RetryFacts.

(** ** Crash and retry *)

Section RetryTheorem.

Context (env : Env) (ctx : Context).

Lemma bind_assoc_run {A B C} (m : M A) (f : A -> M B) (g : B -> M C) w :
  ((m ≫= f) ≫= g) w = (m ≫= (fun a => f a ≫= g)) w.
Proof. unfold mbind, M_bind. now destruct (m w) as [[a|e] w1]. Qed.

(** X15. Crash and retry. A message the handler takes, whose first
    query fails with a crash and whose retry notice the transport
    accepts, is retried once: the ephemeral messages of the first
    attempt are deleted, [kill] is called, the user is told, a fresh
    state object is allocated and the same prompt is issued again, and
    that is all there is between the two queries. When the second query
    answers, nothing but the context-warning check, the audit entry and
    the release of the running flag follows: no failure message. When it
    fails too, no third query and no second [kill] follow, and unless
    the failure is a cancellation the error message is the last thing
    sent to the user. *)
Theorem crash_retry (userId chatId : Z) (message username errorStr : jsstring) (w : World) :
  accepted env ctx userId chatId message username ->
  result (adapter env (ninvocations w)) = Reject errorStr ->
  isCrash errorStr = true ->
  (forall n, transportFailure env n (Reply chatId retryNotice Plain) = None) ->
  let r := handleText env ctx w in
  let second := result (adapter env (S (ninvocations w))) in
  let query := Invoked message username userId (Some chatId) in
  exists evs0 cleanup evs1 tail,
    since w r.2
    = SessionCall OpStartProcessing :: query :: evs0
      ++ Ended (Reject errorStr) :: cleanup
      ++ SessionCall OpKill :: Sent (Reply chatId retryNotice Plain) true
      :: query :: evs1 ++ Ended second :: tail
    /\ Forall duringQuery evs0 /\ Forall duringQuery evs1
    /\ Forall isSent cleanup
    /\ calls cleanup = map deleteOf (toolMessages (stateAt r.2 (length (heap w))))
    /\ length (heap r.2) = S (S (length (heap w)))
    /\ match second with
       | Resolve response =>
           tail = [ SessionCall OpConsumeContextWarning;
                    Audited (textAudit userId username message response);
                    SessionCall OpStopProcessing ]
           /\ r.1 = Returned tt /\ isRunning (session r.2) = false
       | Reject errorStr' =>
           queries tail = [] /\ ~ In (SessionCall OpKill) tail
           /\ (isCancel errorStr' = false ->
               exists cleanup' ok rest,
                 tail = cleanup' ++ Sent (Reply chatId (errorNotice errorStr') Plain) ok :: rest
                 /\ Forall isSent cleanup' /\ calls rest = [])
       end.
Proof.
  intros Hadm Hfirst Hcrash Hnotice. cbv zeta.
  assert (Hchat : chatOf ctx = chatId).
  { unfold chatOf. now rewrite (accepted_chat _ _ _ _ _ _ Hadm). }
  rewrite (handleText_accepted env ctx userId chatId message username w Hadm).
  set (w0 := started message w). set (st0 := length (heap w)).
  (* the first attempt *)
  destruct (try_run env ctx message username userId chatId st0 w0)
    as (w3 & evs0 & Hall0 & Hr3 & Hi3 & Ht3 & Hl3 & Ho3 & Hcase).
  cbv zeta in Hcase. change (ninvocations w0) with (ninvocations w) in Hcase, Hi3.
  rewrite Hfirst in Hcase. destruct Hcase as [Htry Hlog3].
  rewrite <- Hchat in Hnotice.
  destruct (catch_retry env ctx 0 st0 errorStr w3 Hcrash ltac:(unfold MAX_RETRIES; lia) Hnotice)
    as (w4 & cleanup & Hcatch & Hlog4 & Hcalls & Hsent & Hr4 & Hi4 & Ht4 & Hheap4).
  rewrite Hchat in Hlog4.
  assert (Hlen3 : length (heap w3) = S st0).
  { rewrite Hl3. subst w0 st0. unfold started. wsimpl. rewrite length_app. cbn. lia. }
  change (handleText_loop env (S MAX_RETRIES) ctx message username userId chatId 0 st0)
    with (control ← try_catch (handleText_try env ctx message username userId chatId st0)
                              (handleText_catch env ctx 0 st0);
          match control with
          | Break => mret tt
          | Continue state' =>
              handleText_loop env 1 ctx message username userId chatId 1 state'
          end).
  rewrite bind_assoc_run.
  rewrite (bind_returned _ _ w0 (Continue (length (heap w3))) w4)
    by (now rewrite (try_catch_thrown _ _ _ _ _ Htry)).
  rewrite Hlen3.
  (* the second attempt *)
  destruct (last_attempt env ctx message username userId chatId (S st0) w4 Hchat)
    as (evs1 & tail & Hlog5 & Hall1 & Hl5 & Ho5 & Hcase).
  cbv zeta in Hlog5, Hl5, Ho5, Hcase. rewrite Hi4, Hi3 in Hlog5, Hcase.
  set (r := (handleText_loop env 1 ctx message username userId chatId 1 (S st0)
             ;; finish) w4) in *.
  exists evs0, cleanup, evs1, tail.
  split.
  { apply since_app. rewrite Hlog5, Hlog4, Hlog3. subst w0. unfold started. wsimpl.
    now lnorm. }
  split; [assumption|]. split; [assumption|]. split; [assumption|].
  split.
  { rewrite Hcalls. do 2 f_equal. unfold stateAt. f_equal.
    rewrite Ho5 by lia. rewrite Hheap4. symmetry. apply lookup_app_l. lia. }
  split; [rewrite Hl5, Hheap4, length_app, Hlen3; cbn; lia|].
  exact Hcase.
Qed.

End RetryTheorem.

Lemma sample_accepted env :
  isAuthorized env 7%Z = true -> (rateLimiterCheck env 7%Z).1 = true ->
  accepted env (sampleCtx "hi") 7 5 (lit "hi") (lit "joe").
Proof.
  intros Hauth Hrate. constructor; try reflexivity; try discriminate; assumption.
Defined.

Lemma crash_retry_witness :
  let w := worldOf idleSession in
  let r := handleText crashOnceEnv (sampleCtx "hi") w in
  let query := Invoked (lit "hi") (lit "joe") 7 (Some 5%Z) in
  exists evs0 cleanup evs1 tail,
    since w r.2
    = SessionCall OpStartProcessing :: query :: evs0
      ++ Ended (Reject (lit "Error: Claude Code process exited with code 1")) :: cleanup
      ++ SessionCall OpKill :: Sent (Reply 5 retryNotice Plain) true
      :: query :: evs1 ++ Ended (Resolve (lit "Done.")) :: tail
    /\ Forall duringQuery evs0 /\ Forall duringQuery evs1
    /\ Forall isSent cleanup
    /\ calls cleanup = map deleteOf (toolMessages (stateAt r.2 0))
    /\ length (heap r.2) = 2%nat
    /\ tail = [ SessionCall OpConsumeContextWarning;
                Audited (textAudit 7 (lit "joe") (lit "hi") (lit "Done."));
                SessionCall OpStopProcessing ]
       /\ r.1 = Returned tt /\ isRunning (session r.2) = false.
Proof.
  apply (crash_retry crashOnceEnv (sampleCtx "hi") 7%Z 5%Z (lit "hi") (lit "joe")
           (lit "Error: Claude Code process exited with code 1") (worldOf idleSession)).
  - apply sample_accepted; reflexivity.
  - reflexivity.
  - reflexivity.
  - intros n. reflexivity.
Defined.

(** ** A heartbeat that fires *)

Lemma quiet_refl w : quiet w w.
Proof.
  constructor; try reflexivity. exists []. split; [now rewrite app_nil_r | constructor].
Qed.

Lemma quiet_trans w1 w2 w3 : quiet w1 w2 -> quiet w2 w3 -> quiet w1 w3.
Proof.
  intros [r1 i1 c1 t1 h1 p1 (e1 & H1 & F1)] [r2 i2 c2 t2 h2 p2 (e2 & H2 & F2)].
  constructor; try congruence.
  exists (e1 ++ e2). split; [now rewrite H2, H1, app_assoc | now apply Forall_app].
Qed.

Lemma calls_sessionCalls evs : Forall isSessionCall evs -> calls evs = [].
Proof.
  induction 1 as [|e evs He _ IH]; [reflexivity|].
  destruct e; cbn in *; try contradiction; assumption.
Qed.

Lemma queries_sessionCalls evs : Forall isSessionCall evs -> queries evs = [].
Proof.
  induction 1 as [|e evs He _ IH]; [reflexivity|].
  destruct e; cbn in *; try contradiction; assumption.
Qed.

Section HeartbeatFacts.

Context (env : Env).

Lemma quiet_stop : frames quiet (stop env).
Proof.
  intros w. unfold stop. mred. destruct (isRunning (session w)) eqn:Hrun; mred;
    (constructor; cbn; try reflexivity; try exact Hrun;
     eexists; (split; [reflexivity | repeat constructor])).
Qed.

Lemma quiet_checkInterrupt text : frames quiet (checkInterrupt env text).
Proof.
  intros w. unfold checkInterrupt.
  destruct (negb (truthy text) || negb (startsWith text (lit "!"))).
  { apply quiet_refl. }
  unfold markInterrupt, stop, sleep, clearStopRequested, withInterruptRequested,
    withStopRequested.
  mred. destruct (isRunning (session w)) eqn:Hrun; mred.
  - rewrite Hrun. mred. constructor; cbn; try reflexivity; try (symmetry; exact Hrun).
    eexists. split; [now rewrite <- !app_assoc | repeat constructor].
  - apply quiet_refl.
Qed.

Lemma silentStep_total step : total (adapterStep env silentCallback step).
Proof.
  destruct step as [now ty content seg | sid | warning | [text|]]; cbn [adapterStep];
    try (intros w; now eexists _, _).
  - apply total_bind; [apply total_checkInterrupt | intros _; apply total_ret].
  - apply total_bind; [apply total_stop | intros _; apply total_ret].
Qed.

Lemma silentStep_quiet step : frames quiet (adapterStep env silentCallback step).
Proof.
  destruct step as [now ty content seg | sid | warning | [text|]]; cbn [adapterStep].
  - intros w. unfold silentCallback. mred. constructor; cbn; try reflexivity.
    exists []. split; [now rewrite app_nil_r | constructor].
  - intros w. mred. constructor; cbn; try reflexivity.
    exists []. split; [now rewrite app_nil_r | constructor].
  - intros w. mred. constructor; cbn; try reflexivity.
    exists []. split; [now rewrite app_nil_r | constructor].
  - apply frames_bind; [apply quiet_trans | apply quiet_checkInterrupt |].
    intros _. apply frames_ret, quiet_refl.
  - apply frames_bind; [apply quiet_trans | apply quiet_stop |].
    intros _. apply frames_ret, quiet_refl.
Qed.

(** A query with the silent sink of the heartbeat. *)
Lemma silent_query prompt username userId chatId w :
  let script := adapter env (ninvocations w) in
  exists w' evs,
    sendMessageStreaming env prompt username userId silentCallback chatId w
    = (match result script with
       | Resolve finalText => Returned finalText
       | Reject errorStr => Thrown errorStr
       end, w')
    /\ log w' = log w ++ Invoked prompt username userId chatId :: evs
                       ++ [Ended (result script)]
    /\ Forall isSessionCall evs
    /\ isRunning (session w') = isRunning (session w)
    /\ ninvocations w' = S (ninvocations w)
    /\ lastHeartbeat w' = lastHeartbeat w
    /\ heap w' = heap w.
Proof.
  cbv zeta. unfold sendMessageStreaming.
  set (w1 := wLog (log w ++ [Invoked prompt username userId chatId])
               (wInvocations (S (ninvocations w)) w)).
  rewrite (bind_returned _ _ w (ninvocations w) (wInvocations (S (ninvocations w)) w))
    by reflexivity.
  rewrite (bind_returned _ _ _ tt w1) by reflexivity.
  set (script := adapter env (ninvocations w)).
  destruct (total_forEach (steps script) (adapterStep env silentCallback)
              silentStep_total w1) as ([] & w2 & Hrun).
  pose proof (frames_forEach quiet quiet_refl quiet_trans (steps script) _
                silentStep_quiet w1) as Hframe.
  rewrite Hrun in Hframe. cbn [snd] in Hframe.
  destruct Hframe as [r2 i2 c2 t2 h2 p2 (evs & Hlog & Hall)].
  rewrite (bind_returned _ _ _ _ _ Hrun).
  rewrite (bind_returned _ _ _ tt (wLog (log w2 ++ [Ended (result script)]) w2))
    by reflexivity.
  exists (wLog (log w2 ++ [Ended (result script)]) w2), evs.
  split; [now destruct (result script)|].
  cbn [log wLog session ninvocations lastHeartbeat heap].
  split; [rewrite Hlog; subst w1; cbn [log wLog]; now rewrite <- !app_assoc|].
  split; [assumption|].
  repeat split; assumption.
Qed.

(** X1. A heartbeat tick that finds a session and no query running issues
    exactly one query: the configured prompt, in the name of
    "heartbeat", user 0, without a chat. Nothing is sent to the chat
    while it runs or after it, whatever the assistant answers; the tick
    returns normally even when the query fails; and the time of the tick
    is remembered. *)
Theorem heartbeat_tick_fires (w : World) :
  optTruthy (sessionId (session w)) = true ->
  isRunning (session w) = false ->
  let r := runHeartbeat env w in
  exists evs,
    r.1 = Returned tt
    /\ since w r.2
       = Invoked (HEARTBEAT_PROMPT env) (lit "heartbeat") 0 None :: evs
         ++ [Ended (result (adapter env (ninvocations w)))]
    /\ Forall isSessionCall evs
    /\ calls (since w r.2) = []
    /\ queries (since w r.2) = [HEARTBEAT_PROMPT env]
    /\ ninvocations r.2 = S (ninvocations w)
    /\ lastHeartbeat r.2 = Some (clock w)
    /\ heap r.2 = heap w
    /\ isRunning (session r.2) = false.
Proof.
  intros Hid Hidle. cbv zeta.
  set (w0 := wLastHeartbeat (Some (clock w)) w).
  destruct (silent_query (HEARTBEAT_PROMPT env) (lit "heartbeat") 0%Z None w0)
    as (w3 & evs & Hquery & Hlog & Hall & Hr & Hi & Hh & Hheap).
  cbv zeta in Hquery, Hlog.
  change (ninvocations w0) with (ninvocations w) in *.
  change (log w0) with (log w) in Hlog.
  assert (Hrun : runHeartbeat env w = (Returned tt, w3)).
  { unfold runHeartbeat.
    rewrite (bind_returned _ _ w w w) by reflexivity.
    assert (isActive (session w) = true) as ->
      by (unfold isActive; destruct (sessionId (session w)); [reflexivity | discriminate]).
    rewrite Hid, Hidle. cbn [negb orb].
    rewrite (bind_returned _ _ w tt w0) by reflexivity.
    unfold try_catch. unfold mbind at 1, M_bind at 1. rewrite Hquery.
    destruct (result (adapter env (ninvocations w))) as [response|e]; [|reflexivity].
    now destruct (shouldSuppressHeartbeatResponse response). }
  rewrite Hrun. cbn [fst snd]. exists evs. rewrite (since_app _ _ _ Hlog).
  split; [reflexivity|]. split; [reflexivity|]. split; [assumption|].
  cbn [calls queries].
  rewrite calls_app, queries_app, (calls_sessionCalls _ Hall),
    (queries_sessionCalls _ Hall).
  split; [reflexivity|]. split; [reflexivity|]. split; [assumption|].
  split; [assumption|]. split; [assumption|]. now rewrite Hr.
Qed.

End HeartbeatFacts.

Lemma heartbeat_tick_fires_witness :
  let r := runHeartbeat calmEnv (worldOf activeSession) in
  exists evs,
    r.1 = Returned tt
    /\ since (worldOf activeSession) r.2
       = Invoked (lit "heartbeat") (lit "heartbeat") 0 None :: evs
         ++ [Ended (Resolve (lit "Hi there"))]
    /\ Forall isSessionCall evs
    /\ calls (since (worldOf activeSession) r.2) = []
    /\ queries (since (worldOf activeSession) r.2) = [lit "heartbeat"]
    /\ ninvocations r.2 = 1%nat
    /\ lastHeartbeat r.2 = Some 0%Z
    /\ heap r.2 = []
    /\ isRunning (session r.2) = false.
Proof.
  apply (heartbeat_tick_fires calmEnv (worldOf activeSession)); reflexivity.
Defined.

(** ** Suppression and stripping of heartbeat responses *)

Lemma trim_idempotent s : trim (trim s) = trim s.
Proof.
  destruct (trim_split s) as (l & r & Hl & Hr & Hs).
  rewrite Hs at 2. now rewrite trim_ws_app.
Qed.

Lemma replace_absent s p x : includes s p = false -> replace s p x = s.
Proof.
  induction s as [|c s IH]; cbn [includes replace]; intros H;
    apply orb_false_iff in H as [H1 H2]; rewrite H1; [reflexivity|].
  now rewrite IH.
Qed.

Lemma solid_token : solid HEARTBEAT_TOKEN.
Proof.
  unfold solid. apply Forall_forall. intros c Hc.
  apply list_elem_of_In in Hc. vm_compute in Hc.
  repeat (destruct Hc as [<- | Hc]; [reflexivity|]). destruct Hc.
Qed.

(** X2. The classification looks at the trimmed response only: whitespace
    around a response never changes whether it is suppressed. *)
Theorem shouldSuppress_ignores_outer_whitespace (response : jsstring) :
  shouldSuppressHeartbeatResponse (trim response)
  = shouldSuppressHeartbeatResponse response.
Proof.
  unfold shouldSuppressHeartbeatResponse. rewrite trim_idempotent.
  destruct response as [|c r]; [reflexivity|].
  cbn [truthy negb]. destruct (trim (c :: r)); reflexivity.
Qed.

(** X3. A response that is not suppressed always leaves something to show
    once the token is stripped; and when it carries the token, what it
    leaves is longer than [MAX_ACK_LENGTH]. This is the text of which the
    heartbeat logs a preview. *)
Theorem unsuppressed_response_has_content (response : jsstring) :
  shouldSuppressHeartbeatResponse response = false ->
  stripHeartbeatToken response <> []
  /\ (includes response HEARTBEAT_TOKEN = true ->
      (MAX_ACK_LENGTH < length (stripHeartbeatToken response))%nat).
Proof.
  pose proof solid_token as Hsolid.
  change HEARTBEAT_TOKEN with (91 :: List.tl HEARTBEAT_TOKEN) in Hsolid.
  unfold shouldSuppressHeartbeatResponse, stripHeartbeatToken.
  change HEARTBEAT_TOKEN with (91 :: List.tl HEARTBEAT_TOKEN).
  cbv zeta. rewrite (trim_replace_trim _ _ Hsolid), (includes_trim _ _ Hsolid).
  destruct response as [|c0 r0] eqn:Er; cbn [truthy negb]; [discriminate|].
  rewrite <- Er. clear Er c0 r0.
  destruct (trim response) as [|c t] eqn:Et; cbn [truthy negb]; [discriminate|].
  rewrite <- Et.
  set (tok := 91 :: List.tl HEARTBEAT_TOKEN) in *.
  destruct (includes response tok) eqn:Hinc.
  - destruct (trim (replace response tok [])) as [|c' t'] eqn:Es; cbn [truthy negb orb];
      [discriminate|].
    destruct (Nat.leb_spec (length (c' :: t')) MAX_ACK_LENGTH) as [|Hlong]; [discriminate|].
    intros _. split; [discriminate | intros _; exact Hlong].
  - intros _. rewrite (replace_absent _ _ _ Hinc), Et. split; [discriminate | discriminate].
Qed.

Lemma unsuppressed_response_has_content_witness :
  stripHeartbeatToken (lit "Reminder: the build is still red") <> []
  /\ (includes (lit "Reminder: the build is still red") HEARTBEAT_TOKEN = true ->
      (MAX_ACK_LENGTH < length (stripHeartbeatToken (lit "Reminder: the build is still red")))%nat).
Proof.
  apply (unsuppressed_response_has_content (lit "Reminder: the build is still red")).
  vm_compute. reflexivity.
Defined.

Lemma ackPhrase_short t : ackPhrase t -> (length t <= 23)%nat.
Proof.
  intros (p & Hin & H).
  assert (Hp : (length p <= 22)%nat).
  { vm_compute in Hin.
    repeat (destruct Hin as [<- | Hin]; [vm_compute; lia|]). destruct Hin. }
  unfold ci_equal in H.
  destruct H as [H | H]; apply (f_equal (@length N)) in H; rewrite !length_map in H.
  - lia.
  - rewrite length_app in H. change (length (lit ".")) with 1%nat in H. lia.
Qed.

(** X4. A long response is shown. A response that after trimming has more
    than 23 code units, the length of the longest acknowledgment phrase
    with its dot, is not suppressed, unless it contains the heartbeat
    token and at most [MAX_ACK_LENGTH] code units are left once the token
    is stripped. *)
Theorem long_response_not_suppressed (response : jsstring) :
  (23 < length (trim response))%nat ->
  includes response HEARTBEAT_TOKEN = false
  \/ (MAX_ACK_LENGTH < length (stripHeartbeatToken response))%nat ->
  shouldSuppressHeartbeatResponse response = false.
Proof.
  intros Hlong Hcase.
  unfold shouldSuppressHeartbeatResponse, stripHeartbeatToken in *.
  change HEARTBEAT_TOKEN with (91 :: List.tl HEARTBEAT_TOKEN) in Hcase |- *.
  pose proof solid_token as Hsolid.
  change HEARTBEAT_TOKEN with (91 :: List.tl HEARTBEAT_TOKEN) in Hsolid.
  cbv zeta. rewrite (trim_replace_trim _ _ Hsolid), (includes_trim _ _ Hsolid).
  assert (Hack : existsb (fun pattern => test pattern (trim response)) ackPatterns = false).
  { destruct (existsb _ ackPatterns) eqn:E; [|reflexivity].
    apply ackPatterns_spec, ackPhrase_short in E. lia. }
  rewrite Hack.
  destruct response as [|c0 r0] eqn:Er; [cbn in Hlong; lia|].
  cbn [truthy negb]. rewrite <- Er in *. clear Er c0 r0.
  destruct (trim response) as [|c t] eqn:Et; [cbn in Hlong; lia|].
  cbn [truthy negb].
  set (tok := 91 :: List.tl HEARTBEAT_TOKEN) in *.
  destruct (includes response tok) eqn:Hinc; [|reflexivity].
  destruct Hcase as [Hcase | Hcase]; [discriminate|].
  destruct (trim (replace response tok [])) as [|c' t'] eqn:Es; [cbn in Hcase; lia|].
  cbn [truthy negb orb].
  destruct (Nat.leb_spec (length (c' :: t')) MAX_ACK_LENGTH); [lia | reflexivity].
Qed.

Lemma long_response_not_suppressed_witness :
  shouldSuppressHeartbeatResponse (lit "Reminder: the build is still red") = false.
Proof.
  apply (long_response_not_suppressed (lit "Reminder: the build is still red")).
  - vm_compute. lia.
  - left. reflexivity.
Defined.

(** ** More on the status callback *)

Lemma streq_false a b : a <> b -> streq a b = false.
Proof. intros H. unfold streq. now apply bool_decide_eq_false. Qed.

Lemma streq_true a b : streq a b = true -> a = b.
Proof. unfold streq. apply bool_decide_eq_true. Qed.

Lemma keeps_refl st w : keeps st w w.
Proof. split; [auto | exists []; now rewrite app_nil_r]. Qed.

Lemma keeps_trans st w1 w2 w3 : keeps st w1 w2 -> keeps st w2 w3 -> keeps st w1 w3.
Proof.
  intros [H1 (m1 & T1)] [H2 (m2 & T2)]. split; [auto|].
  exists (m1 ++ m2). now rewrite T2, T1, app_assoc.
Qed.

Lemma keeps_same_heap st w w' : heap w' = heap w -> keeps st w w'.
Proof.
  intros H. unfold keeps, stateAt. rewrite H.
  split; [auto | exists []; now rewrite app_nil_r].
Qed.

Lemma stateAt_touch_any st f w :
  stateAt (touch st f w) st = f (stateAt w st) \/ stateAt (touch st f w) st = stateAt w st.
Proof.
  destruct (Nat.lt_ge_cases st (length (heap w))) as [Hlt | Hge].
  - left. now apply stateAt_touch.
  - right. unfold stateAt, touch. cbn [heap wHeap]. now rewrite list_insert_ge.
Qed.

Lemma keeps_touch st f w :
  (forall seg msg, textMessages (stateAt w st) !! seg = Some msg ->
                   textMessages (f (stateAt w st)) !! seg = Some msg) ->
  (exists more, toolMessages (f (stateAt w st)) = toolMessages (stateAt w st) ++ more) ->
  keeps st w (touch st f w).
Proof.
  intros Htext Htool. destruct (stateAt_touch_any st f w) as [E | E]; unfold keeps; rewrite E.
  - split; assumption.
  - split; [auto | exists []; now rewrite app_nil_r].
Qed.

Lemma keeps_tool st msg w : keeps st w (touch st (withToolMessage msg) w).
Proof. apply keeps_touch; [auto | now exists [msg]]. Qed.

Lemma keeps_edit_time st seg now w : keeps st w (touch st (withLastEditTime seg now) w).
Proof. apply keeps_touch; [auto | exists []; cbn; now rewrite app_nil_r]. Qed.

Lemma keeps_new_text st seg msg w :
  textMessages (stateAt w st) !! seg = None ->
  keeps st w (touch st (withTextMessage seg msg) w).
Proof.
  intros Hnone. apply keeps_touch; [|exists []; cbn; now rewrite app_nil_r].
  intros seg' msg' H. cbn [textMessages withTextMessage].
  rewrite lookup_insert_ne; [assumption | congruence].
Qed.

Section CallbackInvariants.

Context (env : Env) (ctx : Context) (st : nat).

Local Abbreviation holds := (frames (keeps st)).

Lemma holds_transport c : holds (transport env c).
Proof.
  intros w. rewrite transport_eq.
  destruct (transportFailure env (ncalls w) c); now apply keeps_same_heap.
Qed.

Lemma holds_reply text mode : holds (reply env ctx text mode).
Proof.
  intros w. rewrite reply_eq.
  destruct (transportFailure env (ncalls w) _); now apply keeps_same_heap.
Qed.

Ltac hold_step :=
  lazymatch goal with
  | |- frames _ (reply _ _ _ _) => apply holds_reply
  | |- frames _ (transport _ _) => apply holds_transport
  | |- frames _ (editMessageText _ _ _ _) => apply holds_transport
  | |- frames _ (deleteMessage _ _) => apply holds_transport
  | |- frames _ (mret _) => apply frames_ret; apply keeps_refl
  | |- frames _ get => apply frames_get; apply keeps_refl
  | |- frames _ (getState _) => intros ?; apply keeps_refl
  | |- frames _ (pushToolMessage _ _) => intros ?; apply keeps_tool
  | |- frames _ (setLastEditTime _ _ _) => intros ?; apply keeps_edit_time
  | |- frames _ (try_catch _ _) =>
      apply frames_try_catch; [apply keeps_trans | | intros ?]
  | |- frames _ (forEach _ _) =>
      apply frames_forEach; [apply keeps_refl | apply keeps_trans | intros ?]
  | |- frames _ (_ ≫= _) => apply frames_bind; [apply keeps_trans | | intros ?]
  end.

Lemma holds_sendChunks formatted : forall fuel i,
  holds (sendChunks env fuel ctx formatted i).
Proof.
  induction fuel as [|fuel IH]; intros i; cbn [sendChunks].
  - hold_step.
  - destruct (i <? length formatted)%nat; [|hold_step].
    hold_step; [repeat hold_step | apply IH].
Qed.

(** The creation of a segment's message keeps what the state has. *)
Lemma holds_create seg formatted w :
  textMessages (stateAt w st) !! seg = None ->
  keeps st w
    (try_catch
       (msg ← reply env ctx formatted HTML; setTextMessage st seg msg)
       (fun htmlError => msg ← reply env ctx formatted Plain; setTextMessage st seg msg)
       w).2.
Proof.
  intros Hnone. unfold try_catch. unfold mbind at 1, M_bind at 1. rewrite reply_eq.
  destruct (transportFailure env (ncalls w) _) as [e|].
  - unfold mbind at 1, M_bind at 1. rewrite reply_eq.
    destruct (transportFailure env _ _) as [e'|].
    + now apply keeps_same_heap.
    + rewrite setTextMessage_eq. cbn [snd].
      eapply keeps_trans; [|apply keeps_new_text; exact Hnone].
      now apply keeps_same_heap.
  - cbv beta iota. rewrite setTextMessage_eq. cbn [snd].
    eapply keeps_trans; [|apply keeps_new_text; exact Hnone].
    now apply keeps_same_heap.
Qed.

Lemma holds_onText content seg : holds (onText env ctx st content seg).
Proof.
  intros w. unfold onText.
  rewrite (bind_returned _ _ w w w) by reflexivity.
  rewrite (bind_returned _ _ w _ w (getState_eq st w)).
  destruct (textMessages (stateAt w st) !! seg) as [msg|] eqn:Hmsg.
  - destruct (_ >? _)%Z; [|apply keeps_refl].
    revert w Hmsg. intros w0 _. generalize (clock w0). intros now. revert w0.
    change (holds (try_catch
                     (editMessageText env msg
                        (convertMarkdownToHtml env (ellipsize TELEGRAM_SAFE_LIMIT content))
                        HTML)
                     (fun _ => try_catch
                                 (editMessageText env msg
                                    (convertMarkdownToHtml env
                                       (ellipsize TELEGRAM_SAFE_LIMIT content)) Plain)
                                 (fun _ => mret tt)) ;;
                   setLastEditTime st seg now)).
    repeat hold_step.
  - unfold mbind at 1, M_bind at 1.
    pose proof (holds_create seg
                  (convertMarkdownToHtml env (ellipsize TELEGRAM_SAFE_LIMIT content))
                  w Hmsg) as Hc.
    destruct (try_catch _ _ w) as [[[]|e] w1]; cbn [snd] in Hc; [|exact Hc].
    eapply keeps_trans; [exact Hc|]. rewrite setLastEditTime_eq. apply keeps_edit_time.
Qed.

Lemma holds_onSegmentEnd content seg : holds (onSegmentEnd env ctx st content seg).
Proof.
  unfold onSegmentEnd. hold_step; [hold_step|].
  destruct (textMessages _ !! seg) as [msg|]; [|hold_step].
  destruct (truthy content); [|hold_step].
  destruct (_ <=? _)%nat; [repeat hold_step|].
  hold_step; [repeat hold_step | apply holds_sendChunks].
Qed.

Lemma holds_statusCallback statusType content segmentId :
  holds (statusCallback env ctx st statusType content segmentId).
Proof.
  unfold statusCallback. hold_step; [|hold_step].
  destruct (streq statusType (lit "thinking")).
  { unfold onThinking. repeat hold_step. }
  destruct (streq statusType (lit "tool")).
  { unfold onTool. repeat hold_step. }
  destruct (withSegment statusType (lit "text") segmentId) as [seg|].
  { apply holds_onText. }
  destruct (withSegment statusType (lit "segment_end") segmentId) as [seg|].
  { apply holds_onSegmentEnd. }
  destruct (streq statusType (lit "done")); [|hold_step].
  unfold onDone. repeat hold_step.
Qed.

Lemma holds_adapterStep step : holds (adapterStep env (statusCallback env ctx st) step).
Proof.
  destruct step as [now ty content seg | sid | warning | [text|]]; cbn [adapterStep].
  - hold_step; [|apply holds_statusCallback]. intros w. now apply keeps_same_heap.
  - intros w. now apply keeps_same_heap.
  - intros w. now apply keeps_same_heap.
  - intros w. apply keeps_same_heap.
    pose proof (quiet_heap _ _ (quiet_checkInterrupt env text w)) as H.
    unfold mbind, M_bind. destruct (checkInterrupt env text w) as [[a|e] w1]; exact H.
  - intros w. apply keeps_same_heap.
    pose proof (quiet_heap _ _ (quiet_stop env w)) as H.
    unfold mbind, M_bind. destruct (stop env w) as [[a|e] w1]; exact H.
Qed.

(** X6. Message identity. Through any run of adapter steps handed to the
    status callback, whatever the events and whatever the transport
    does, a segment that has a message keeps that very message, and no
    ephemeral message is forgotten: their list only grows at its end. *)
Theorem streaming_keeps_messages (steps : list AdapterStep) (w : World) :
  keeps st w (dispatch env ctx st steps w).
Proof.
  revert w. unfold dispatch, exec.
  change (holds (forEach steps (adapterStep env (statusCallback env ctx st)))).
  hold_step. apply holds_adapterStep.
Qed.

Lemma createdFrom_sent n ev rest :
  isSent ev -> createdFrom n (ev :: rest) = createdFrom n [ev] ++ createdFrom (S n) rest.
Proof. destruct ev as [[chatId text mode| |] []| | | |]; cbn; try tauto; reflexivity. Qed.

Lemma ephemeral_step step w :
  (st < length (heap w))%nat -> isEphemeral step ->
  exists ev w',
    adapterStep env (statusCallback env ctx st) step w = (Returned tt, w')
    /\ log w' = log w ++ [ev] /\ isSent ev
    /\ ncalls w' = S (ncalls w)
    /\ length (heap w') = length (heap w)
    /\ toolMessages (stateAt w' st)
       = toolMessages (stateAt w st) ++ createdFrom (ncalls w) [ev].
Proof.
  intros Hst Heph. destruct step as [now ty content seg | | |]; try contradiction.
  cbn [adapterStep isEphemeral] in *.
  rewrite (bind_returned _ _ w tt (wClock now w)) by reflexivity.
  set (w0 := wClock now w).
  assert (Hst0 : (st < length (heap w0))%nat) by exact Hst.
  unfold statusCallback.
  assert (Hbody : exists text,
    (if streq ty (lit "thinking") then onThinking env ctx st content
     else if streq ty (lit "tool") then onTool env ctx st content
     else match withSegment ty (lit "text") seg with
     | Some segmentId => onText env ctx st content segmentId
     | None =>
     match withSegment ty (lit "segment_end") seg with
     | Some segmentId => onSegmentEnd env ctx st content segmentId
     | None => if streq ty (lit "done") then onDone env st else mret tt
     end end)
    = (msg ← reply env ctx text HTML; pushToolMessage st msg)).
  { destruct Heph as [-> | ->].
    - rewrite streq_refl. eexists. reflexivity.
    - replace (streq (lit "tool") (lit "thinking")) with false
        by (symmetry; vm_compute; reflexivity).
      rewrite streq_refl. eexists. reflexivity. }
  destruct Hbody as (text & ->).
  unfold try_catch. unfold mbind at 1, M_bind at 1. rewrite reply_eq.
  destruct (transportFailure env (ncalls w0) _) as [e|].
  - eexists _, _. split; [reflexivity|].
    cbn. repeat (split; [reflexivity || exact I|]). now rewrite app_nil_r.
  - rewrite pushToolMessage_eq. eexists _, _. split; [reflexivity|].
    rewrite stateAt_touch by exact Hst0. rewrite length_heap_touch.
    cbn. repeat (split; [reflexivity || exact I|]). reflexivity.
Qed.

(** X7. Ephemeral messages. After a run of [thinking] and [tool] events the
    state lists, in order, one message for every notification the
    transport accepted, carrying the number of its call, and none for a
    notification that failed; [done] then attempts the deletion of
    exactly the listed messages, in that order. *)
Theorem ephemerals_recorded_then_deleted (steps : list AdapterStep)
    (content : jsstring) (segmentId : option Z) (w : World) :
  (st < length (heap w))%nat ->
  Forall isEphemeral steps ->
  let w1 := dispatch env ctx st steps w in
  let w2 := exec (statusCallback env ctx st (lit "done") content segmentId) w1 in
  toolMessages (stateAt w1 st)
  = toolMessages (stateAt w st) ++ createdFrom (ncalls w) (since w w1)
  /\ length (since w w1) = length steps
  /\ calls (since w1 w2) = map deleteOf (toolMessages (stateAt w1 st)).
Proof.
  intros Hst Hall w1 w2.
  assert (Hrun : exists evs,
    log w1 = log w ++ evs /\ length evs = length steps
    /\ toolMessages (stateAt w1 st)
       = toolMessages (stateAt w st) ++ createdFrom (ncalls w) evs).
  { subst w1. clear w2. unfold dispatch, exec. revert w Hst.
    induction Hall as [|step steps Hstep Hall IH]; intros w Hst.
    - exists []. cbn. now rewrite !app_nil_r.
    - destruct (ephemeral_step step w Hst Hstep) as (ev & w' & Hw' & Hlog & Hev & Hn & Hh & Ht).
      cbn [forEach]. rewrite (bind_returned _ _ _ _ _ Hw').
      destruct (IH w') as (evs & Hlog' & Hlen & Ht'); [now rewrite Hh|].
      exists (ev :: evs). rewrite Hlog', Hlog, <- app_assoc. split; [reflexivity|].
      split; [cbn; now rewrite Hlen|].
      rewrite Ht', Ht, Hn, <- app_assoc. f_equal. symmetry. now apply createdFrom_sent. }
  destruct Hrun as (evs & Hlog & Hlen & Htools).
  rewrite (since_app _ _ _ Hlog). split; [exact Htools|]. split; [exact Hlen|].
  subst w2. unfold exec. rewrite statusCallback_done.
  destruct (delete_each_run env (toolMessages (stateAt w1 st)) w1)
    as (w' & evs' & Hdel & Hlog' & Hcalls & _).
  unfold onDone. rewrite (try_catch_returned _ _ w1 tt w').
  - cbn [snd]. now rewrite (since_app _ _ _ Hlog').
  - rewrite (bind_returned _ _ w1 _ w1 (getState_eq st w1)). exact Hdel.
Qed.

(** X8. Events the callback does not know. An event that is not
    [thinking], [tool] or [done], and that is not a [text] or
    [segment_end] with a segment identifier, returns at once: no
    transport call, no change of the state. A [text] or [segment_end]
    that carries no segment identifier is among them. *)
Theorem statusCallback_ignores_other_events
    (statusType content : jsstring) (segmentId : option Z) (w : World) :
  statusType <> lit "thinking" -> statusType <> lit "tool" -> statusType <> lit "done" ->
  segmentId = None \/ (statusType <> lit "text" /\ statusType <> lit "segment_end") ->
  statusCallback env ctx st statusType content segmentId w = (Returned tt, w).
Proof.
  intros H1 H2 H3 H4. unfold statusCallback, withSegment.
  rewrite (streq_false _ _ H1), (streq_false _ _ H2), (streq_false _ _ H3).
  destruct H4 as [-> | [H4 H5]].
  - now destruct (streq statusType (lit "text")), (streq statusType (lit "segment_end")).
  - now rewrite (streq_false _ _ H4), (streq_false _ _ H5).
Qed.

End CallbackInvariants.

Lemma ephemerals_recorded_then_deleted_witness :
  let steps := [ Emit 30 (lit "thinking") (lit "hm") None;
                 Emit 40 (lit "tool") (lit "Bash: ls") None ] in
  let w := streamingWorld in
  let w1 := dispatch calmEnv (sampleCtx "hi") 0 steps w in
  let w2 := exec (statusCallback calmEnv (sampleCtx "hi") 0 (lit "done") [] None) w1 in
  toolMessages (stateAt w1 0)
  = toolMessages (stateAt w 0) ++ createdFrom (ncalls w) (since w w1)
  /\ length (since w w1) = length steps
  /\ calls (since w1 w2) = map deleteOf (toolMessages (stateAt w1 0)).
Proof.
  apply (ephemerals_recorded_then_deleted calmEnv (sampleCtx "hi") 0
           [ Emit 30 (lit "thinking") (lit "hm") None;
             Emit 40 (lit "tool") (lit "Bash: ls") None ] [] None streamingWorld).
  - cbn. lia.
  - constructor; [left; reflexivity|].
    constructor; [right; reflexivity | constructor].
Defined.

Lemma statusCallback_ignores_other_events_witness :
  statusCallback calmEnv (sampleCtx "hi") 0 (lit "text") (lit "Hi") None streamingWorld
  = (Returned tt, streamingWorld).
Proof.
  apply (statusCallback_ignores_other_events calmEnv (sampleCtx "hi") 0
           (lit "text") (lit "Hi") None streamingWorld).
  - discriminate.
  - discriminate.
  - discriminate.
  - left. reflexivity.
Defined.

(** ** The text handler: first checks *)

Section EntryFacts.

Context (env : Env) (ctx : Context).

Lemma startsWith_truthy text p : p <> [] -> startsWith text p = true -> truthy text = true.
Proof. intros Hp H. destruct text; [destruct p; [congruence | discriminate] | reflexivity]. Qed.

(** The interrupt check always returns, with the stripped text, and
    does nothing besides the session calls of an interrupt. *)
Lemma checkInterrupt_run text w :
  exists wi,
    checkInterrupt env text w = (Returned (strippedText text), wi)
    /\ quiet w wi
    /\ sessionCalls (since w wi)
       = (if startsWith text (lit "!") && isRunning (session w)
          then [OpMarkInterrupt; OpStop; OpClearStopRequested] else [])
    /\ (startsWith text (lit "!") && isRunning (session w) = true ->
        interruptRequested (session wi) = true /\ stopRequested (session wi) = false)
    /\ (startsWith text (lit "!") && isRunning (session w) = false -> wi = w).
Proof.
  pose proof (quiet_checkInterrupt env text w) as Hq.
  unfold strippedText. destruct (startsWith text (lit "!")) eqn:Hbang.
  - destruct (isRunning (session w)) eqn:Hrun.
    + rewrite (checkInterrupt_running env text w Hbang Hrun) in *. eexists.
      split; [reflexivity|]. split; [exact Hq|].
      split; [erewrite since_app by (wsimpl; reflexivity); reflexivity|].
      split; [intros _; split; reflexivity | discriminate].
    + exists w. unfold checkInterrupt. rewrite Hbang.
      rewrite (startsWith_truthy text (lit "!")) by (discriminate || assumption).
      cbn [negb orb]. mred. rewrite Hrun. mred.
      split; [reflexivity|]. split; [apply quiet_refl|].
      unfold since. rewrite drop_ge by lia.
      split; [reflexivity|]. split; [discriminate | reflexivity].
  - exists w. unfold checkInterrupt. rewrite Hbang, orb_true_r.
    split; [reflexivity|]. split; [apply quiet_refl|].
    unfold since. rewrite drop_ge by lia.
    split; [reflexivity|]. split; [discriminate | reflexivity].
Qed.

(** The handler of an addressed update, after its first test. *)
Lemma handleText_addressed userId chatId message w :
  addressed ctx userId chatId message ->
  handleText env ctx w
  = (if negb (isAuthorized env userId) then
       _ ← reply env ctx unauthorizedNotice Plain; mret tt
     else
       message ← checkInterrupt env message;
       if negb (truthy (trim message)) then mret tt
       else
         let '(allowed, retryAfter) := rateLimiterCheck env userId in
         if negb allowed then
           auditLogRateLimit userId (usernameOf ctx) retryAfter ;;
           _ ← reply env ctx (rateNotice retryAfter) Plain;
           mret tt
         else
           updSession (withLastMessage (Some message)) ;;
           w ← get;
           (if negb (isActive (session w)) then
              let title := if (50 <? length message)%nat
                           then slice message 0 47 ++ lit "..." else message in
              updSession (withConversationTitle (Some title))
            else mret tt) ;;
           stopProcessing ← startProcessing;
           typing ← startTypingIndicator;
           state ← allocState;
           handleText_loop env (S MAX_RETRIES) ctx message (usernameOf ctx) userId chatId
             0 state ;;
           stopProcessing ;;
           typing) w.
Proof.
  intros [Hfrom Huser Hchat Hchatid Htext Hne].
  unfold handleText. rewrite Hfrom, Hchat, Htext.
  cbn [numTruthy optTruthy default from_option id].
  assert (truthy message = true) as -> by (destruct message; [contradiction | reflexivity]).
  destruct (Z.eqb_spec userId 0) as [|_]; [contradiction|].
  destruct (Z.eqb_spec chatId 0) as [|_]; [contradiction|].
  reflexivity.
Qed.

(** X10. An unauthorized user. Whatever the text, an update of a user who
    is not authorized gets the refusal as its one transport call and
    nothing else happens: the session is not read or changed, no
    interrupt is requested even for a "!" message, no query is issued
    and nothing is audited. *)
Theorem unauthorized_user_refused (userId chatId : Z) (message : jsstring) (w : World) :
  addressed ctx userId chatId message ->
  isAuthorized env userId = false ->
  exists r ok,
    handleText env ctx w = (r, sent (Reply chatId unauthorizedNotice Plain) ok w)
    /\ (ok = true -> r = Returned tt)
    /\ (ok = false -> exists e, r = Thrown e).
Proof.
  intros Haddr Hauth. rewrite (handleText_addressed userId chatId message w Haddr).
  rewrite Hauth. cbn [negb]. unfold mbind at 1, M_bind at 1. rewrite reply_eq.
  unfold chatOf. rewrite (addressed_chat _ _ _ _ Haddr). cbn [default from_option id].
  destruct (transportFailure env (ncalls w) _) as [e|].
  - exists (Thrown e), false. split; [reflexivity|]. split; [discriminate | eauto].
  - exists (Returned tt), true. split; [reflexivity|]. split; [reflexivity | discriminate].
Qed.

(** X11. A message that is only an interrupt. A "!" followed by nothing but
    white space, from an authorized user, is the interrupt check and
    nothing more: no transport call, no query, no audit entry, and the
    handler returns. When a query is running it is asked to stop and the
    interrupt flag is left set for the handler of that query. *)
Theorem interrupt_only_message (userId chatId : Z) (message rest : jsstring) (w : World) :
  addressed ctx userId chatId message ->
  isAuthorized env userId = true ->
  message = lit "!" ++ rest -> blank rest ->
  let r := handleText env ctx w in
  r.1 = Returned tt
  /\ since w r.2
     = (if isRunning (session w)
        then [SessionCall OpMarkInterrupt; SessionCall OpStop;
              SessionCall OpClearStopRequested]
        else [])
  /\ (isRunning (session w) = true ->
      interruptRequested (session r.2) = true /\ stopRequested (session r.2) = false
      /\ isRunning (session r.2) = true)
  /\ ncalls r.2 = ncalls w /\ ninvocations r.2 = ninvocations w /\ heap r.2 = heap w.
Proof.
  intros Haddr Hauth Hmsg Hblank. cbv zeta.
  rewrite (handleText_addressed userId chatId message w Haddr).
  rewrite Hauth. cbn [negb].
  assert (Hbang : startsWith message (lit "!") = true)
    by (apply startsWith_spec; now exists rest).
  assert (Hstripped : trim (trimStart (sliceFrom message 1)) = []).
  { apply trim_nil_blank. rewrite Hmsg.
    change (sliceFrom (lit "!" ++ rest) 1) with rest.
    destruct (trimStart_split rest) as (l & Hl & Hrest).
    unfold blank in Hblank. rewrite Hrest in Hblank. apply Forall_app in Hblank.
    exact (proj2 Hblank). }
  destruct (isRunning (session w)) eqn:Hrun.
  - rewrite (bind_returned _ _ _ _ _ (checkInterrupt_running env message w Hbang Hrun)).
    rewrite Hstripped. cbv beta iota delta [truthy negb mret M_ret fst snd].
    split; [reflexivity|].
    split; [erewrite since_app by (wsimpl; reflexivity); reflexivity|].
    split; [intros _; repeat split; cbn; exact Hrun|].
    repeat split.
  - destruct (checkInterrupt_run message w) as (wi & Hci & _ & _ & _ & Hsame).
    rewrite Hbang, Hrun in Hsame. specialize (Hsame eq_refl). subst wi.
    unfold strippedText in Hci. rewrite Hbang in Hci.
    rewrite (bind_returned _ _ _ _ _ Hci). rewrite Hstripped.
    cbv beta iota delta [truthy negb mret M_ret fst snd].
    split; [reflexivity|]. unfold since. rewrite drop_ge by lia.
    split; [reflexivity|]. split; [discriminate|]. repeat split.
Qed.

(** X12. A rate-limited message. When the limiter refuses an authorized
    user's message, the refusal is audited and then told to the user,
    and that is all: no query is issued, no state object is allocated
    and the running flag is as it was. The interrupt check comes first,
    so the only events before the audit entry are the session calls of
    an interrupt, and there are none unless the text starts with "!". *)
Theorem rate_limited_message (userId chatId : Z) (message retryAfter : jsstring)
    (w : World) :
  addressed ctx userId chatId message ->
  isAuthorized env userId = true ->
  trim (strippedText message) <> [] ->
  rateLimiterCheck env userId = (false, retryAfter) ->
  let r := handleText env ctx w in
  exists pre ok,
    since w r.2
    = pre ++ [ Audited (rateAudit userId (usernameOf ctx) retryAfter);
               Sent (Reply chatId (rateNotice retryAfter) Plain) ok ]
    /\ Forall isSessionCall pre
    /\ (startsWith message (lit "!") = false -> pre = [])
    /\ (if ok then r.1 = Returned tt else exists e, r.1 = Thrown e)
    /\ ninvocations r.2 = ninvocations w
    /\ isRunning (session r.2) = isRunning (session w)
    /\ heap r.2 = heap w.
Proof.
  intros Haddr Hauth Htext Hrate. cbv zeta.
  rewrite (handleText_addressed userId chatId message w Haddr).
  rewrite Hauth. cbn [negb].
  destruct (checkInterrupt_run message w)
    as (wi & Hci & [Hr Hi Hc Ht Hh Hheap (pre & Hlog & Hpre)] & _ & _ & Hsame).
  rewrite (bind_returned _ _ _ _ _ Hci).
  assert (truthy (trim (strippedText message)) = true) as ->
    by (now destruct (trim (strippedText message))).
  rewrite Hrate. cbn [negb].
  set (wa := wLog (log wi ++ [Audited (rateAudit userId (usernameOf ctx) retryAfter)]) wi).
  rewrite (bind_returned _ _ wi tt wa) by reflexivity.
  fold (rateNotice retryAfter).
  assert (Hrun : exists r ok,
    (reply env ctx (rateNotice retryAfter) Plain ≫= (fun _ => mret tt)) wa
    = (r, sent (Reply chatId (rateNotice retryAfter) Plain) ok wa)
    /\ (if ok then r = Returned tt else exists e, r = Thrown e)).
  { unfold mbind, M_bind. rewrite reply_eq.
    unfold chatOf. rewrite (addressed_chat _ _ _ _ Haddr). cbn [default from_option id].
    destruct (transportFailure env (ncalls wa) _) as [e|].
    - exists (Thrown e), false. eauto.
    - exists (Returned tt), true. eauto. }
  destruct Hrun as (r & ok & Hrun & Hok). rewrite Hrun. cbn [fst snd].
  exists pre, ok. subst wa. wsimpl.
  split; [apply since_app; wsimpl; rewrite Hlog; now lnorm|].
  split; [assumption|].
  split.
  { intros Hbang. rewrite Hbang in Hsame. specialize (Hsame eq_refl). subst wi.
    apply (app_inv_head (log w)). now rewrite app_nil_r. }
  split; [exact Hok|].
  split; [assumption|]. split; assumption.
Qed.

(** The handler of a message that passes the checks: the retry loop,
    started after the interrupt check. *)
Lemma handleText_proceeds userId chatId message w :
  addressed ctx userId chatId message ->
  isAuthorized env userId = true ->
  trim (strippedText message) <> [] ->
  (rateLimiterCheck env userId).1 = true ->
  exists wi,
    checkInterrupt env message w = (Returned (strippedText message), wi)
    /\ quiet w wi
    /\ sessionCalls (since w wi)
       = (if startsWith message (lit "!") && isRunning (session w)
          then [OpMarkInterrupt; OpStop; OpClearStopRequested] else [])
    /\ (startsWith message (lit "!") && isRunning (session w) = false -> wi = w)
    /\ handleText env ctx w
       = (handleText_loop env (S MAX_RETRIES) ctx (strippedText message) (usernameOf ctx)
            userId chatId 0 (length (heap wi)) ;; finish)
           (started (strippedText message) wi).
Proof.
  intros Haddr Hauth Htext Hrate.
  rewrite (handleText_addressed userId chatId message w Haddr).
  rewrite Hauth. cbn [negb].
  destruct (checkInterrupt_run message w) as (wi & Hci & Hq & Hcalls & _ & Hsame).
  exists wi. split; [exact Hci|]. split; [exact Hq|]. split; [exact Hcalls|].
  split; [exact Hsame|].
  rewrite (bind_returned _ _ _ _ _ Hci).
  assert (truthy (trim (strippedText message)) = true) as ->
    by (now destruct (trim (strippedText message))).
  cbn [negb]. destruct (rateLimiterCheck env userId) as [allowed retryAfter].
  cbn [fst] in Hrate. subst allowed. cbn [negb].
  unfold startProcessing, startTypingIndicator, allocState, started, titled.
  mred. destruct (negb (isActive (withLastMessage (Some (strippedText message)) (session wi))));
    reflexivity.
Qed.

End EntryFacts.

(** ** The text handler: every run *)

Lemma sessionCalls_app l1 l2 : sessionCalls (l1 ++ l2) = sessionCalls l1 ++ sessionCalls l2.
Proof.
  induction l1 as [|[] l1 IH]; cbn [app sessionCalls]; [reflexivity|..]; now rewrite ?IH.
Qed.

Lemma kills_app l1 l2 : kills (l1 ++ l2) = (kills l1 + kills l2)%nat.
Proof.
  unfold kills. rewrite sessionCalls_app.
  induction (sessionCalls l1) as [|[] ops IH]; cbn [app killOps Nat.add]; now rewrite ?IH.
Qed.

Lemma kills_sent evs : Forall isSent evs -> kills evs = 0%nat.
Proof.
  unfold kills. induction 1 as [|e evs He _ IH]; [reflexivity|].
  destruct e; cbn in *; try contradiction; assumption.
Qed.

Lemma kills_duringQuery evs : Forall duringQuery evs -> kills evs = 0%nat.
Proof.
  unfold kills. induction 1 as [|e evs He _ IH]; [reflexivity|].
  destruct e as [| [] | | |]; cbn in *; try contradiction; assumption.
Qed.

Lemma queries_duringQuery evs : Forall duringQuery evs -> queries evs = [].
Proof.
  induction 1 as [|e evs He _ IH]; [reflexivity|].
  destruct e as [| [] | | |]; cbn in *; try contradiction; assumption.
Qed.

Lemma steady_refl w : steady w w.
Proof. now split. Qed.

Lemma steady_trans w1 w2 w3 : steady w1 w2 -> steady w2 w3 -> steady w1 w3.
Proof. intros [H1 H2] [H3 H4]. split; congruence. Qed.

Section LoopFacts.

Context (env : Env) (ctx : Context).

Lemma steady_transport c : frames steady (transport env c).
Proof.
  intros w. rewrite transport_eq.
  destruct (transportFailure env (ncalls w) c); now split.
Qed.

Lemma steady_reply text mode : frames steady (reply env ctx text mode).
Proof.
  intros w. rewrite reply_eq.
  destruct (transportFailure env (ncalls w) _); now split.
Qed.

Ltac steady_step :=
  lazymatch goal with
  | |- frames _ (reply _ _ _ _) => apply steady_reply
  | |- frames _ (transport _ _) => apply steady_transport
  | |- frames _ (deleteMessage _ _) => apply steady_transport
  | |- frames _ (mret _) => apply frames_ret; apply steady_refl
  | |- frames _ (getState _) => intros ?; apply steady_refl
  | |- frames _ kill => intros ?; now split
  | |- frames _ consumeInterruptFlag => intros ?; now split
  | |- frames _ allocState => intros ?; now split
  | |- frames _ (try_catch _ _) =>
      apply frames_try_catch; [apply steady_trans | | intros ?]
  | |- frames _ (forEach _ _) =>
      apply frames_forEach; [apply steady_refl | apply steady_trans | intros ?]
  | |- frames _ (_ ≫= _) => apply frames_bind; [apply steady_trans | | intros ?]
  | |- frames _ (if ?b then _ else _) => destruct b
  end.

Lemma steady_catch attempt state errorStr :
  frames steady (handleText_catch env ctx attempt state errorStr).
Proof. unfold handleText_catch. repeat steady_step. Qed.

(** The [catch] block of any attempt. *)
Lemma catch_log attempt state errorStr w :
  exists r w' evs,
    handleText_catch env ctx attempt state errorStr w = (r, w')
    /\ log w' = log w ++ evs /\ queries evs = []
    /\ ((isCrash errorStr && (attempt <? MAX_RETRIES)%nat = true
         /\ kills evs = 1%nat
         /\ (r = Returned (Continue (length (heap w))) \/ exists e, r = Thrown e))
        \/ (isCrash errorStr && (attempt <? MAX_RETRIES)%nat = false
            /\ kills evs = 0%nat
            /\ (r = Returned Break \/ exists e, r = Thrown e))).
Proof.
  destruct (isCrash errorStr && (attempt <? MAX_RETRIES)%nat) eqn:Hretry.
  - unfold handleText_catch. fold (isCrash errorStr). rewrite Hretry.
    destruct (delete_each_run env (toolMessages (stateAt w state)) w)
      as (w1 & cleanup & Hrun & Hlog & Hcalls & _ & _ & Hheap & Hframe).
    destruct (Hframe 0%nat) as [Hs Hi _ Ht _ _ _ (evs' & Hlog' & Hall)].
    rewrite Hlog in Hlog'. apply app_inv_head in Hlog'. subst evs'.
    rewrite (bind_returned _ _ w (stateAt w state) w) by reflexivity.
    rewrite (bind_returned _ _ _ _ _ Hrun).
    set (w2 := wSession (withSessionId None (session w1))
                 (wLog (log w1 ++ [SessionCall OpKill]) w1)).
    rewrite (bind_returned _ _ w1 tt w2) by reflexivity.
    fold retryNotice. unfold mbind at 1, M_bind at 1. rewrite reply_eq.
    destruct (transportFailure env (ncalls w2) _) as [e|].
    + eexists _, _, (cleanup ++ [SessionCall OpKill; Sent _ false]).
      split; [reflexivity|]. subst w2. wsimpl.
      split; [rewrite Hlog; now lnorm|].
      split; [rewrite queries_app, (queries_sent _ Hall); reflexivity|].
      left. split; [reflexivity|].
      split; [rewrite kills_app, (kills_sent _ Hall); reflexivity | eauto].
    + unfold allocState. mred.
      eexists _, _, (cleanup ++ [SessionCall OpKill; Sent _ true]).
      split; [reflexivity|]. subst w2. wsimpl.
      split; [rewrite Hlog; now lnorm|].
      split; [rewrite queries_app, (queries_sent _ Hall); reflexivity|].
      left. split; [reflexivity|].
      split; [rewrite kills_app, (kills_sent _ Hall); reflexivity|].
      left. now rewrite Hheap.
  - destruct (catch_terminal env ctx attempt state errorStr w Hretry)
      as (r & w' & cleanup & report & Hcatch & Hr & Hlog & Hsent & _ & _ & _ & Hq & Hkill & _).
    exists r, w', (cleanup ++ report). split; [exact Hcatch|]. split; [exact Hlog|].
    split; [rewrite queries_app, (queries_sent _ Hsent), Hq; reflexivity|].
    right. split; [reflexivity|]. split; [|exact Hr].
    rewrite kills_app, (kills_sent _ Hsent). cbn [Nat.add].
    clear -Hkill. unfold kills. induction report as [|ev report IH]; [reflexivity|].
    assert (IH' : ~ In (SessionCall OpKill) report) by (intros H; apply Hkill; now right).
    destruct ev as [| op | | |]; cbn [sessionCalls]; try (now apply IH).
    destruct op; cbn [killOps]; try (now apply IH).
    exfalso. apply Hkill. now left.
Qed.

(** The retry loop, from any attempt on: at most [left] queries, all
    with the same prompt, a hard reset before every query but the
    first, and the typing indicator and the running flag untouched. *)
Lemma loop_run message username userId chatId : forall left attempt st w,
  (attempt + left = S MAX_RETRIES)%nat ->
  let r := handleText_loop env left ctx message username userId chatId attempt st w in
  exists evs n,
    log r.2 = log w ++ evs /\ steady w r.2
    /\ queries evs = repeat message n
    /\ (n <= left)%nat /\ (kills evs <= left - 1)%nat /\ (n <= S (kills evs))%nat.
Proof.
  induction left as [|left IH]; intros attempt st w Hsum; cbv zeta.
  - exists [], 0%nat. cbn. rewrite app_nil_r. repeat split; lia.
  - cbn [handleText_loop].
    destruct (try_run env ctx message username userId chatId st w)
      as (w1 & evs & Hall & Hr & Hi & Ht & Hl & Ho & Hcase).
    cbv zeta in Hcase.
    destruct (result (adapter env (ninvocations w))) as [response | errorStr].
    + destruct Hcase as [Hrun Hlog].
      rewrite (bind_returned _ _ w Break w1)
        by (now rewrite (try_catch_returned _ _ _ _ _ Hrun)).
      eexists _, 1%nat. split; [exact Hlog|]. split; [now split|].
      cbn [queries]. rewrite queries_app, (queries_duringQuery _ Hall).
      split; [reflexivity|]. split; [lia|].
      change (Invoked message username userId (Some chatId) :: evs ++ ?l)
        with ([Invoked message username userId (Some chatId)] ++ evs ++ l).
      rewrite !kills_app, (kills_duringQuery _ Hall). cbn. lia.
    + destruct Hcase as [Hrun Hlog].
      destruct (catch_log attempt st errorStr w1)
        as (r & w2 & cevs & Hcatch & Hlog2 & Hq2 & Hcase).
      pose proof (steady_catch attempt st errorStr w1) as Hsteady.
      rewrite Hcatch in Hsteady. cbn [snd] in Hsteady.
      assert (Hsteady2 : steady w w2).
      { apply (steady_trans _ w1); [now split | exact Hsteady]. }
      assert (Htc : try_catch (handleText_try env ctx message username userId chatId st)
                      (handleText_catch env ctx attempt st) w = (r, w2))
        by (now rewrite (try_catch_thrown _ _ _ _ _ Hrun)).
      assert (Hk1 : kills (Invoked message username userId (Some chatId) :: evs
                           ++ [Ended (Reject errorStr)]) = 0%nat).
      { change (Invoked message username userId (Some chatId) :: evs ++ ?l)
          with ([Invoked message username userId (Some chatId)] ++ evs ++ l).
        now rewrite !kills_app, (kills_duringQuery _ Hall). }
      assert (Hq1 : queries (Invoked message username userId (Some chatId) :: evs
                             ++ [Ended (Reject errorStr)]) = [message]).
      { cbn [queries]. now rewrite queries_app, (queries_duringQuery _ Hall). }
      destruct Hcase as [(Hretry & Hk & Hr2) | (Hretry & Hk & Hr2)].
      * apply andb_true_iff in Hretry as [_ Hlt]. apply Nat.ltb_lt in Hlt.
        destruct Hr2 as [-> | [e ->]].
        -- rewrite (bind_returned _ _ _ _ _ Htc).
           destruct (IH (S attempt) (length (heap w1)) w2 ltac:(lia))
             as (evs3 & n & Hlog3 & Hsteady3 & Hq3 & Hn & Hk3 & Hnk).
           cbv zeta in Hlog3, Hsteady3.
           eexists _, (S n). split; [rewrite Hlog3, Hlog2, Hlog, <- !app_assoc; reflexivity|].
           split; [now apply (steady_trans _ w2)|].
           rewrite !queries_app, Hq1, Hq2, Hq3. split; [reflexivity|].
           rewrite !kills_app, Hk1, Hk. unfold MAX_RETRIES in *. lia.
        -- rewrite (bind_thrown _ _ _ _ _ Htc). cbn [snd].
           eexists _, 1%nat. split; [rewrite Hlog2, Hlog, <- !app_assoc; reflexivity|].
           split; [exact Hsteady2|].
           rewrite !queries_app, Hq1, Hq2. split; [reflexivity|].
           rewrite !kills_app, Hk1, Hk. unfold MAX_RETRIES in *. lia.
      * assert (Hfinal : exists r', (control ← try_catch
                    (handleText_try env ctx message username userId chatId st)
                    (handleText_catch env ctx attempt st);
                  match control with
                  | Break => mret tt
                  | Continue state' =>
                      handleText_loop env left ctx message username userId chatId
                        (S attempt) state'
                  end) w = (r', w2)).
        { destruct Hr2 as [-> | [e ->]].
          - rewrite (bind_returned _ _ _ _ _ Htc). now eexists.
          - rewrite (bind_thrown _ _ _ _ _ Htc). now eexists. }
        destruct Hfinal as (r' & ->). cbn [snd].
        eexists _, 1%nat. split; [rewrite Hlog2, Hlog, <- !app_assoc; reflexivity|].
        split; [exact Hsteady2|].
        rewrite !queries_app, Hq1, Hq2. split; [reflexivity|].
        rewrite !kills_app, Hk1, Hk. lia.
Qed.

End LoopFacts.

Section EveryRun.

Context (env : Env) (ctx : Context).

Lemma handleText_dropped w : isAddressed ctx = false -> handleText env ctx w = (Returned tt, w).
Proof.
  unfold isAddressed, handleText. intros H.
  destruct (numTruthy (from_id ctx)), (optTruthy (message_text ctx)), (numTruthy (chat ctx));
    try discriminate; reflexivity.
Qed.

Lemma isAddressed_true :
  isAddressed ctx = true ->
  exists userId chatId message, addressed ctx userId chatId message.
Proof.
  unfold isAddressed, numTruthy, optTruthy. intros H.
  destruct (from_id ctx) as [userId|] eqn:Hfrom; [|discriminate].
  destruct (message_text ctx) as [message|] eqn:Htext;
    [|rewrite andb_false_r in H; discriminate].
  destruct (chat ctx) as [chatId|] eqn:Hchat; [|rewrite andb_false_r in H; discriminate].
  apply andb_true_iff in H as [H H3]. apply andb_true_iff in H as [H1 H2].
  exists userId, chatId, message. constructor; try assumption.
  - intros ->. discriminate.
  - intros ->. discriminate.
  - intros ->. discriminate.
Qed.

(** Either the handler stops before the retry loop, having issued no
    query and no hard reset and kept the typing indicator and the
    running flag; or it runs the loop and finishes. *)
Lemma handleText_cases w :
  (exists evs,
     log (handleText env ctx w).2 = log w ++ evs
     /\ steady w (handleText env ctx w).2
     /\ queries evs = [] /\ kills evs = 0%nat)
  \/ (exists wi pre userId chatId message,
        message_text ctx = Some message
        /\ log wi = log w ++ pre /\ queries pre = [] /\ kills pre = 0%nat
        /\ steady w wi
        /\ handleText env ctx w
           = (handleText_loop env (S MAX_RETRIES) ctx (strippedText message)
                (usernameOf ctx) userId chatId 0 (length (heap wi)) ;; finish)
               (started (strippedText message) wi)).
Proof.
  destruct (isAddressed ctx) eqn:Haddr.
  2: { left. rewrite (handleText_dropped w Haddr). exists []. cbn [snd].
       rewrite app_nil_r. repeat split. }
  destruct (isAddressed_true Haddr) as (userId & chatId & message & Ha).
  destruct (isAuthorized env userId) eqn:Hauth.
  2: { left. rewrite (handleText_addressed env ctx userId chatId message w Ha).
       rewrite Hauth. cbn [negb]. unfold mbind, M_bind. rewrite reply_eq.
       destruct (transportFailure env (ncalls w) _);
         cbv beta iota delta [mret M_ret snd]; wsimpl; (eexists [_]; repeat split). }
  destruct (checkInterrupt_run env message w)
    as (wi & Hci & [Hr Hi Hc Ht Hh Hheap (pre & Hlog & Hpre)] & Hcalls & _ & _).
  assert (Hq : queries pre = []) by (now apply queries_sessionCalls).
  assert (Hk : kills pre = 0%nat).
  { unfold kills. rewrite <- (since_app _ _ _ Hlog), Hcalls.
    now destruct (startsWith message (lit "!") && isRunning (session w)). }
  destruct (trim (strippedText message)) as [|c t] eqn:Htrim.
  { left. rewrite (handleText_addressed env ctx userId chatId message w Ha).
    rewrite Hauth. cbn [negb]. rewrite (bind_returned _ _ _ _ _ Hci), Htrim.
    cbv beta iota delta [truthy negb mret M_ret snd].
    exists pre. split; [assumption|]. split; [now split|]. now split. }
  destruct (rateLimiterCheck env userId) as [allowed retryAfter] eqn:Hrate.
  destruct allowed.
  - right. destruct (handleText_proceeds env ctx userId chatId message w Ha Hauth)
      as (wi' & Hci' & _ & _ & _ & Hrun).
    { rewrite Htrim. discriminate. }
    { now rewrite Hrate. }
    rewrite Hci in Hci'. injection Hci' as <-.
    exists wi, pre, userId, chatId, message.
    split; [apply (addressed_text _ _ _ _ Ha)|].
    repeat (split; [assumption|]). split; [now split | exact Hrun].
  - left. rewrite (handleText_addressed env ctx userId chatId message w Ha).
    rewrite Hauth. cbn [negb]. rewrite (bind_returned _ _ _ _ _ Hci), Htrim.
    cbv beta iota delta [truthy negb]. rewrite Hrate. cbv beta iota delta [negb].
    set (wa := wLog (log wi ++ [Audited (rateAudit userId (usernameOf ctx) retryAfter)]) wi).
    rewrite (bind_returned _ _ wi tt wa) by reflexivity.
    unfold mbind, M_bind. rewrite reply_eq.
    destruct (transportFailure env (ncalls wa) _);
      cbv beta iota delta [mret M_ret snd]; subst wa; wsimpl;
      (eexists (pre ++ [_; _]); split; [rewrite Hlog, <- !app_assoc; reflexivity|];
       split; [now split|];
       rewrite queries_app, kills_app, Hq, Hk; split; reflexivity).
Qed.

(** X16. A bounded retry. Whatever the update, the transport and the
    assistant do, one run of the handler issues at most two queries,
    all with the text the interrupt check handed back, and calls [kill]
    at most once; a second query is only ever issued after a [kill]. *)
Theorem handleText_bounded_retry (w : World) :
  let evs := since w (handleText env ctx w).2 in
  exists n,
    queries evs = repeat (strippedText (default [] (message_text ctx))) n
    /\ (n <= S MAX_RETRIES)%nat
    /\ (kills evs <= MAX_RETRIES)%nat
    /\ (n <= S (kills evs))%nat.
Proof.
  cbv zeta. destruct (handleText_cases w)
    as [(evs & Hlog & _ & Hq & Hk)
       | (wi & pre & userId & chatId & message & Htext & Hlog & Hq & Hk & _ & Hrun)].
  - rewrite (since_app _ _ _ Hlog), Hq, Hk. exists 0%nat. cbn. repeat split; lia.
  - rewrite Hrun, Htext. cbn [default from_option id].
    set (w0 := started (strippedText message) wi).
    destruct (loop_run env ctx (strippedText message) (usernameOf ctx) userId chatId
                (S MAX_RETRIES) 0 (length (heap wi)) w0 eq_refl)
      as (evs & n & Hlog2 & _ & Hq2 & Hn & Hk2 & Hnk).
    cbv zeta in Hlog2.
    assert (Hfin : exists rest,
      log ((handleText_loop env (S MAX_RETRIES) ctx (strippedText message) (usernameOf ctx)
              userId chatId 0 (length (heap wi)) ;; finish) w0).2
      = log w0 ++ evs ++ rest /\ queries rest = [] /\ kills rest = 0%nat).
    { unfold mbind at 1, M_bind at 1.
      destruct (handleText_loop _ _ _ _ _ _ _ _ _ w0) as [[[]|e] w2]; cbn [snd] in *.
      - rewrite finish_eq. cbn [snd]. wsimpl. exists [SessionCall OpStopProcessing].
        rewrite Hlog2, <- app_assoc. repeat split.
      - exists []. rewrite app_nil_r. repeat split. exact Hlog2. }
    destruct Hfin as (rest & Hlog3 & Hq3 & Hk3).
    erewrite since_app.
    2: { rewrite Hlog3. subst w0. unfold started. wsimpl. rewrite Hlog, <- !app_assoc.
         reflexivity. }
    exists n. rewrite !queries_app, !kills_app, Hq, Hk, Hq2, Hq3, Hk3.
    cbn [queries kills sessionCalls killOps app Nat.add].
    rewrite app_nil_r, Nat.add_0_r. unfold MAX_RETRIES in *. repeat split; try lia.
Qed.

(** X17. Release on return. Whenever the handler returns normally, as many
    typing indicators run as before, and the running flag is clear:
    unless it was set before and the handler issued no query of its
    own. *)
Theorem handleText_releases_on_return (w : World) :
  let r := handleText env ctx w in
  r.1 = Returned tt ->
  typingLoops r.2 = typingLoops w
  /\ (isRunning (session r.2) = false
      \/ (isRunning (session w) = true /\ queries (since w r.2) = [])).
Proof.
  cbv zeta. destruct (handleText_cases w)
    as [(evs & Hlog & [Ht Hr] & Hq & Hk)
       | (wi & pre & userId & chatId & message & Htext & Hlog & Hq & Hk & [Ht Hr] & Hrun)].
  - intros _. split; [exact Ht|]. rewrite Hr, (since_app _ _ _ Hlog).
    destruct (isRunning (session w)); auto.
  - rewrite Hrun. set (w0 := started (strippedText message) wi).
    pose proof (loop_run env ctx (strippedText message) (usernameOf ctx) userId chatId
                  (S MAX_RETRIES) 0 (length (heap wi)) w0 eq_refl) as Hloop.
    cbv zeta in Hloop. destruct Hloop as (evs & n & _ & [Ht2 Hr2] & _).
    unfold mbind at 1 2 3, M_bind at 1 2 3.
    destruct (handleText_loop _ _ _ _ _ _ _ _ _ w0) as [[[]|e] w2]; cbn [snd] in *.
    + rewrite finish_eq. cbn [fst snd]. wsimpl. intros _.
      split; [|left; reflexivity].
      rewrite Ht2. subst w0. unfold started. wsimpl. exact Ht.
    + discriminate.
Qed.

End EveryRun.

Lemma handleText_releases_on_return_witness :
  let w := worldOf idleSession in
  let r := handleText calmEnv (sampleCtx "hi") w in
  typingLoops r.2 = typingLoops w
  /\ (isRunning (session r.2) = false
      \/ (isRunning (session w) = true /\ queries (since w r.2) = [])).
Proof.
  apply (handleText_releases_on_return calmEnv (sampleCtx "hi") (worldOf idleSession)).
  vm_compute. reflexivity.
Defined.

Section FirstAttempt.

Context (env : Env) (ctx : Context).

(** X14. A first attempt that succeeds. A message the handler takes and
    whose query answers is one query and nothing after its end but the
    context-warning check, the audit entry and the release: no retry, no
    hard reset, no message to the user. A pending context warning is
    consumed and handed to the status callback, which has no branch for
    it, so it is not sent. The handler returns with the running flag
    clear and the typing indicator stopped. *)
Theorem first_attempt_success (userId chatId : Z) (message username response : jsstring)
    (w : World) :
  accepted env ctx userId chatId message username ->
  result (adapter env (ninvocations w)) = Resolve response ->
  let r := handleText env ctx w in
  exists evs,
    r.1 = Returned tt
    /\ since w r.2
       = SessionCall OpStartProcessing :: Invoked message username userId (Some chatId)
         :: evs ++ [ Ended (Resolve response);
                     SessionCall OpConsumeContextWarning;
                     Audited (textAudit userId username message response);
                     SessionCall OpStopProcessing ]
    /\ Forall duringQuery evs
    /\ isRunning (session r.2) = false
    /\ contextWarning (session r.2) = None
    /\ typingLoops r.2 = typingLoops w
    /\ length (heap r.2) = S (length (heap w)).
Proof.
  intros Hacc Hres. cbv zeta.
  rewrite (handleText_accepted env ctx userId chatId message username w Hacc).
  set (w0 := started message w). set (st0 := length (heap w)).
  destruct (sendMessageStreaming_run env ctx st0 message username userId (Some chatId) w0)
    as (w1 & evs & Hrun & Hlog & Hall & Hr & Hi & Ht & Hl & Ho).
  cbv zeta in Hrun, Hlog. change (ninvocations w0) with (ninvocations w) in Hrun, Hlog.
  rewrite Hres in Hrun, Hlog.
  set (w2 := wSession (withContextWarning None (session w1))
               (wLog (log w1 ++ [SessionCall OpConsumeContextWarning]) w1)).
  set (w3 := wLog (log w2 ++ [Audited (textAudit userId username message response)]) w2).
  assert (Htry : handleText_try env ctx message username userId chatId st0 w0
                 = (Returned Break, w3)).
  { unfold handleText_try. rewrite (bind_returned _ _ _ _ _ Hrun).
    rewrite (bind_returned _ _ w1 (contextWarning (session w1)) w2) by reflexivity.
    assert (Hcb : (if optTruthy (contextWarning (session w1))
                   then statusCallback env ctx st0 (lit "context_warning")
                          (default [] (contextWarning (session w1))) None
                   else mret tt) w2 = (Returned tt, w2)).
    { destruct (optTruthy _); [apply statusCallback_context_warning | reflexivity]. }
    rewrite (bind_returned _ _ _ _ _ Hcb). reflexivity. }
  assert (Hloop : handleText_loop env (S MAX_RETRIES) ctx message username userId chatId
                    0 st0 w0 = (Returned tt, w3)).
  { cbn [handleText_loop].
    rewrite (bind_returned _ _ w0 Break w3)
      by (now rewrite (try_catch_returned _ _ _ _ _ Htry)).
    reflexivity. }
  rewrite (bind_returned _ _ _ _ _ Hloop), finish_eq. cbn [fst snd].
  exists evs. split; [reflexivity|].
  split.
  { apply since_app. subst w3 w2. wsimpl. rewrite Hlog. subst w0. unfold started. wsimpl.
    now lnorm. }
  split; [assumption|]. subst w3 w2. wsimpl.
  split; [reflexivity|]. split; [reflexivity|].
  split; [rewrite Ht; subst w0; unfold started; wsimpl; reflexivity|].
  rewrite Hl. subst w0 st0. unfold started. wsimpl. rewrite length_app. cbn. lia.
Qed.

End FirstAttempt.

Lemma unauthorized_user_refused_witness :
  exists r ok,
    handleText strangerEnv (sampleCtx "!stop") streamingWorld
    = (r, sent (Reply 5 unauthorizedNotice Plain) ok streamingWorld)
    /\ (ok = true -> r = Returned tt)
    /\ (ok = false -> exists e, r = Thrown e).
Proof.
  apply (unauthorized_user_refused strangerEnv (sampleCtx "!stop") 7 5 (lit "!stop")
           streamingWorld).
  - constructor; try reflexivity; discriminate.
  - reflexivity.
Defined.

Lemma interrupt_only_message_witness :
  let w := streamingWorld in
  let r := handleText calmEnv (sampleCtx "! ") w in
  r.1 = Returned tt
  /\ since w r.2
     = (if isRunning (session w)
        then [SessionCall OpMarkInterrupt; SessionCall OpStop;
              SessionCall OpClearStopRequested]
        else [])
  /\ (isRunning (session w) = true ->
      interruptRequested (session r.2) = true /\ stopRequested (session r.2) = false
      /\ isRunning (session r.2) = true)
  /\ ncalls r.2 = ncalls w /\ ninvocations r.2 = ninvocations w /\ heap r.2 = heap w.
Proof.
  apply (interrupt_only_message calmEnv (sampleCtx "! ") 7 5 (lit "! ") (lit " ")
           streamingWorld).
  - constructor; try reflexivity; discriminate.
  - reflexivity.
  - reflexivity.
  - repeat constructor.
Defined.

Lemma rate_limited_message_witness :
  let w := streamingWorld in
  let r := handleText busyEnv (sampleCtx "!hello") w in
  exists pre ok,
    since w r.2
    = pre ++ [ Audited (rateAudit 7 (usernameOf (sampleCtx "!hello")) (lit "12.5"));
               Sent (Reply 5 (rateNotice (lit "12.5")) Plain) ok ]
    /\ Forall isSessionCall pre
    /\ (startsWith (lit "!hello") (lit "!") = false -> pre = [])
    /\ (if ok then r.1 = Returned tt else exists e, r.1 = Thrown e)
    /\ ninvocations r.2 = ninvocations w
    /\ isRunning (session r.2) = isRunning (session w)
    /\ heap r.2 = heap w.
Proof.
  apply (rate_limited_message busyEnv (sampleCtx "!hello") 7 5 (lit "!hello") (lit "12.5")
           streamingWorld).
  - constructor; try reflexivity; discriminate.
  - reflexivity.
  - discriminate.
  - reflexivity.
Defined.

Lemma first_attempt_success_witness :
  let w := worldOf idleSession in
  let r := handleText calmEnv (sampleCtx "hi") w in
  exists evs,
    r.1 = Returned tt
    /\ since w r.2
       = SessionCall OpStartProcessing :: Invoked (lit "hi") (lit "joe") 7 (Some 5%Z)
         :: evs ++ [ Ended (Resolve (lit "Hi there"));
                     SessionCall OpConsumeContextWarning;
                     Audited (textAudit 7 (lit "joe") (lit "hi") (lit "Hi there"));
                     SessionCall OpStopProcessing ]
    /\ Forall duringQuery evs
    /\ isRunning (session r.2) = false
    /\ contextWarning (session r.2) = None
    /\ typingLoops r.2 = typingLoops w
    /\ length (heap r.2) = S (length (heap w)).
Proof.
  apply (first_attempt_success calmEnv (sampleCtx "hi") 7 5 (lit "hi") (lit "joe")
           (lit "Hi there") (worldOf idleSession)).
  - apply sample_accepted; reflexivity.
  - reflexivity.
Defined.

(** ** The text handler: title and last message *)

Lemma labelled_refl w : labelled w w.
Proof. now split. Qed.

Lemma labelled_trans w1 w2 w3 : labelled w1 w2 -> labelled w2 w3 -> labelled w1 w3.
Proof. intros [H1 H2] [H3 H4]. split; congruence. Qed.

Lemma labelled_same_session w w' : session w' = session w -> labelled w w'.
Proof. intros H. unfold labelled. now rewrite H. Qed.

Section TitleFacts.

Context (env : Env) (ctx : Context).

Lemma labelled_checkInterrupt text : frames labelled (checkInterrupt env text).
Proof.
  intros w. destruct (checkInterrupt_run env text w) as (wi & Hci & _ & _ & _ & Hsame).
  destruct (startsWith text (lit "!") && isRunning (session w)) eqn:E.
  - apply andb_true_iff in E as [Hbang Hrun].
    rewrite (checkInterrupt_running env text w Hbang Hrun). now split.
  - rewrite Hci, (Hsame eq_refl). apply labelled_refl.
Qed.

Lemma labelled_stop : frames labelled (stop env).
Proof. intros w. unfold stop. mred. destruct (isRunning (session w)); mred; now split. Qed.

Lemma labelled_statusCallback st statusType content segmentId :
  frames labelled (statusCallback env ctx st statusType content segmentId).
Proof.
  intros w. apply labelled_same_session.
  apply (rendering_session _ _ _ (renders_statusCallback env ctx st _ _ _ w)).
Qed.

Lemma labelled_transport c : frames labelled (transport env c).
Proof.
  intros w. rewrite transport_eq. destruct (transportFailure env (ncalls w) c); now split.
Qed.

Lemma labelled_reply text mode : frames labelled (reply env ctx text mode).
Proof.
  intros w. rewrite reply_eq. destruct (transportFailure env (ncalls w) _); now split.
Qed.

Ltac label_step :=
  lazymatch goal with
  | |- frames _ (reply _ _ _ _) => apply labelled_reply
  | |- frames _ (transport _ _) => apply labelled_transport
  | |- frames _ (deleteMessage _ _) => apply labelled_transport
  | |- frames _ (statusCallback _ _ _ _ _ _) => apply labelled_statusCallback
  | |- frames _ (checkInterrupt _ _) => apply labelled_checkInterrupt
  | |- frames _ (stop _) => apply labelled_stop
  | |- frames _ (mret _) => apply frames_ret; apply labelled_refl
  | |- frames _ (throw _) => apply frames_throw; apply labelled_refl
  | |- frames _ (getState _) => intros ?; apply labelled_refl
  | |- frames _ kill => intros ?; now split
  | |- frames _ consumeInterruptFlag => intros ?; now split
  | |- frames _ consumeContextWarning => intros ?; now split
  | |- frames _ allocState => intros ?; now split
  | |- frames _ tickInvocations => intros ?; now split
  | |- frames _ (emit _) => intros ?; now split
  | |- frames _ (setClock _) => intros ?; now split
  | |- frames _ (auditLog _ _ _ _ _) => intros ?; now split
  | |- frames _ (updSession (withSessionId _)) => intros ?; now split
  | |- frames _ (updSession (withContextWarning _)) => intros ?; now split
  | |- frames _ finish => intros ?; now split
  | |- frames _ (try_catch _ _) =>
      apply frames_try_catch; [apply labelled_trans | | intros ?]
  | |- frames _ (forEach _ _) =>
      apply frames_forEach; [apply labelled_refl | apply labelled_trans | intros ?]
  | |- frames _ (_ ≫= _) => apply frames_bind; [apply labelled_trans | | intros ?]
  | |- frames _ (if ?b then _ else _) => destruct b
  | |- frames _ (match ?x with Resolve _ => _ | Reject _ => _ end) => destruct x
  end.

Lemma labelled_adapterStep st step :
  frames labelled (adapterStep env (statusCallback env ctx st) step).
Proof.
  destruct step as [now ty content seg | sid | warning | [text|]]; cbn [adapterStep];
    repeat label_step.
Qed.

Lemma labelled_query prompt username userId st chatId :
  frames labelled
    (sendMessageStreaming env prompt username userId (statusCallback env ctx st) chatId).
Proof.
  unfold sendMessageStreaming. repeat label_step. apply labelled_adapterStep.
Qed.

Lemma labelled_loop message username userId chatId : forall left attempt st,
  frames labelled (handleText_loop env left ctx message username userId chatId attempt st).
Proof.
  induction left as [|left IH]; intros attempt st; cbn [handleText_loop].
  - label_step.
  - label_step; [label_step|].
    + unfold handleText_try. label_step; [apply labelled_query|]. repeat label_step.
    + unfold handleText_catch. repeat label_step.
    + destruct a; [label_step | apply IH].
Qed.

Lemma titleOf_length message : (length (titleOf message) <= 50)%nat.
Proof.
  unfold titleOf. destruct (Nat.ltb_spec 50 (length message)); [|assumption].
  rewrite length_app. unfold slice. rewrite length_firstn.
  change (length (lit "...")) with 3%nat. lia.
Qed.

(** X13. Title and last message. A message that passes the checks becomes
    the session's last message, as the interrupt check left it, and
    stays so whatever the query and the retry do. A session without an
    identifier gets its title from it: the message itself when it has at
    most 50 code units, else its first 47 followed by "...", so never
    more than 50; a session with an identifier keeps its title. *)
Theorem conversation_title (userId chatId : Z) (message : jsstring) (w : World) :
  addressed ctx userId chatId message ->
  isAuthorized env userId = true ->
  trim (strippedText message) <> [] ->
  (rateLimiterCheck env userId).1 = true ->
  let r := handleText env ctx w in
  let text := strippedText message in
  lastMessage (session r.2) = Some text
  /\ conversationTitle (session r.2)
     = (if isActive (session w) then conversationTitle (session w)
        else Some (titleOf text))
  /\ (length (titleOf text) <= 50)%nat
  /\ ((length text <= 50)%nat -> titleOf text = text)
  /\ ((50 < length text)%nat -> titleOf text = firstn 47 text ++ lit "...").
Proof.
  intros Haddr Hauth Htext Hrate. cbv zeta.
  destruct (handleText_proceeds env ctx userId chatId message w Haddr Hauth Htext Hrate)
    as (wi & Hci & _ & _ & _ & ->).
  pose proof (labelled_checkInterrupt message w) as [Ht0 Hl0].
  assert (Hid : sessionId (session wi) = sessionId (session w)).
  { destruct (checkInterrupt_run env message w) as (wi' & Hci' & _ & _ & _ & Hsame).
    rewrite Hci in Hci'. injection Hci' as <-.
    destruct (startsWith message (lit "!") && isRunning (session w)) eqn:E.
    - apply andb_true_iff in E as [Hbang Hrun].
      rewrite (checkInterrupt_running env message w Hbang Hrun) in Hci.
      injection Hci as _ <-. reflexivity.
    - now rewrite (Hsame eq_refl). }
  rewrite Hci in Ht0, Hl0. cbn [snd] in Ht0, Hl0.
  set (text := strippedText message) in *.
  assert (Hframe : frames labelled
            (handleText_loop env (S MAX_RETRIES) ctx text (usernameOf ctx) userId chatId 0
               (length (heap wi)) ;; finish)).
  { label_step; [apply labelled_loop | label_step]. }
  destruct (Hframe (started text wi)) as [Ht Hl]. rewrite Ht, Hl.
  unfold started, titled. wsimpl. unfold isActive.
  cbn [sessionId withLastMessage withRunning withConversationTitle conversationTitle
       lastMessage].
  rewrite Hid. fold (titleOf text).
  split.
  { destruct (sessionId (session w)); reflexivity. }
  split.
  { destruct (sessionId (session w)); cbn [negb]; [exact Ht0 | reflexivity]. }
  split; [apply titleOf_length|].
  unfold titleOf. split; intros H; destruct (Nat.ltb_spec 50 (length text)); try lia;
    reflexivity.
Qed.

End TitleFacts.

Lemma conversation_title_witness :
  let w := worldOf idleSession in
  let r := handleText calmEnv (sampleCtx "hi") w in
  let text := strippedText (lit "hi") in
  lastMessage (session r.2) = Some text
  /\ conversationTitle (session r.2)
     = (if isActive (session w) then conversationTitle (session w)
        else Some (titleOf text))
  /\ (length (titleOf text) <= 50)%nat
  /\ ((length text <= 50)%nat -> titleOf text = text)
  /\ ((50 < length text)%nat -> titleOf text = firstn 47 text ++ lit "...").
Proof.
  apply (conversation_title calmEnv (sampleCtx "hi") 7 5 (lit "hi") (worldOf idleSession)).
  - constructor; try reflexivity; discriminate.
  - reflexivity.
  - discriminate.
  - reflexivity.
Defined.

(** ** The heartbeat timer *)

Section TimerFacts.

Context (HEARTBEAT_ENABLED : bool).

Lemma timersOk_start t : timersOk t -> timersOk (startHeartbeat HEARTBEAT_ENABLED t).
Proof.
  unfold timersOk, startHeartbeat. intros H.
  destruct HEARTBEAT_ENABLED; [|exact H]. cbn [negb].
  destruct (heartbeatTimer t) as [id|] eqn:E; [now rewrite E|].
  cbn. now rewrite H.
Qed.

Lemma timersOk_stop t : timersOk t -> timersOk (stopHeartbeat t).
Proof.
  unfold timersOk, stopHeartbeat. intros H.
  destruct (heartbeatTimer t) as [id|] eqn:E; [|now rewrite E].
  cbn. rewrite H. cbn. now rewrite Nat.eqb_refl.
Qed.

Lemma timersOk_run calls : forall t,
  timersOk t -> timersOk (fold_left (timerCall HEARTBEAT_ENABLED) calls t).
Proof.
  induction calls as [|c calls IH]; intros t H; [exact H|].
  cbn [fold_left]. apply IH. destruct c; [now apply timersOk_start | now apply timersOk_stop].
Qed.

(** X5. One timer at most. After any sequence of calls of [startHeartbeat]
    and [stopHeartbeat], the runtime holds exactly the interval the
    module remembers, and none when it remembers none: a second start
    does not arm a second interval and a stop leaves nothing armed. An
    interval is armed exactly when the heartbeat is enabled and the last
    call was a start. *)
Theorem heartbeat_timer_single (calls : list TimerCall) :
  let t := fold_left (timerCall HEARTBEAT_ENABLED) calls noTimers in
  armed t = match heartbeatTimer t with Some id => [id] | None => [] end
  /\ (length (armed t) <= 1)%nat
  /\ (armed t <> [] <->
      HEARTBEAT_ENABLED = true /\ List.last calls StopHeartbeat = StartHeartbeat).
Proof.
  cbv zeta.
  pose proof (timersOk_run calls noTimers eq_refl) as Hok. unfold timersOk in Hok.
  split; [exact Hok|]. split.
  { rewrite Hok. destruct (heartbeatTimer _); cbn; lia. }
  rewrite Hok. clear Hok.
  induction calls as [|c calls IH] using rev_ind.
  - cbn. split; [congruence | intros [_ H]; discriminate].
  - rewrite fold_left_app, last_last. cbn [fold_left].
    set (t := fold_left (timerCall HEARTBEAT_ENABLED) calls noTimers) in *.
    destruct c; cbn [timerCall].
    + unfold startHeartbeat. destruct HEARTBEAT_ENABLED; cbn [negb].
      * destruct (heartbeatTimer t) as [id|] eqn:E.
        -- rewrite E. split; [auto | discriminate].
        -- cbn. split; [auto | discriminate].
      * destruct (heartbeatTimer t) as [id|] eqn:E.
        -- exfalso. destruct IH as [IH _]. destruct IH; discriminate.
        -- split; [congruence | intros [H _]; discriminate].
    + unfold stopHeartbeat. destruct (heartbeatTimer t) as [id|] eqn:E.
      * cbn. split; [congruence | intros [_ H]; discriminate].
      * rewrite E. split; [congruence | intros [_ H]; discriminate].
Qed.

End TimerFacts.

(** ** The ask-user keyboard *)

Lemma digits_inj d d' : digits d = digits d' -> d = d'.
Proof.
  revert d'. induction d; intros d'; destruct d'; cbn [digits]; intros H;
    try discriminate; try reflexivity;
    injection H as H; f_equal; now apply IHd.
Qed.

Lemma decimal_inj n n' : decimal n = decimal n' -> n = n'.
Proof. unfold decimal. intros H. apply Unsigned.to_uint_inj. now apply digits_inj. Qed.

Lemma ellipsize_length limit content :
  (length (ellipsize limit content) <= limit + 3)%nat.
Proof.
  unfold ellipsize. destruct (Nat.ltb_spec limit (length content)).
  - rewrite length_app. unfold slice. rewrite length_firstn. cbn. lia.
  - lia.
Qed.

Lemma ellipsize_short limit content :
  (length content <= limit)%nat -> ellipsize limit content = content.
Proof.
  unfold ellipsize. intros H. destruct (Nat.ltb_spec limit (length content)); [lia | reflexivity].
Qed.

Section KeyboardFacts.

Context (requestId : jsstring).

Lemma keyboardText_last label data front :
  keyboardText label data (front ++ [[]])
  = front ++ [[{| button_text := label; callback_data := data |}]].
Proof. unfold keyboardText. rewrite rev_app_distr. cbn. now rewrite rev_involutive. Qed.

Lemma askUserRows_eq options : forall idx front,
  askUserRows requestId options idx (front ++ [[]])
  = front ++ map (fun b => [b]) (buttonsFrom requestId options idx) ++ [[]].
Proof.
  induction options as [|option rest IH]; intros idx front; cbn [askUserRows buttonsFrom map].
  - reflexivity.
  - rewrite keyboardText_last. unfold keyboardRow.
    rewrite IH, <- app_assoc. reflexivity.
Qed.

Lemma buttonsFrom_length options idx :
  length (buttonsFrom requestId options idx) = length options.
Proof. revert idx. induction options; intros idx; cbn; [reflexivity | now rewrite IHoptions]. Qed.

Lemma buttonsFrom_lookup options : forall idx i option,
  options !! i = Some option ->
  buttonsFrom requestId options idx !! i
  = Some {| button_text := ellipsize BUTTON_LABEL_MAX_LENGTH option;
            callback_data := lit "askuser:" ++ requestId ++ lit ":" ++ decimal (idx + i) |}.
Proof.
  induction options as [|o rest IH]; intros idx i option H; [discriminate|].
  cbn [buttonsFrom]. destruct i as [|i].
  - injection H as ->. now rewrite Nat.add_0_r.
  - change (rest !! i = Some option) in H.
    replace (idx + S i)%nat with (S idx + i)%nat by lia.
    exact (IH (S idx) i option H).
Qed.

Lemma buttonsFrom_data options : forall idx data,
  In data (map callback_data (buttonsFrom requestId options idx)) ->
  exists i, (idx <= i)%nat /\ data = lit "askuser:" ++ requestId ++ lit ":" ++ decimal i.
Proof.
  induction options as [|o rest IH]; intros idx data H; [destruct H|].
  cbn in H. destruct H as [<- | H].
  - exists idx. split; [lia | reflexivity].
  - destruct (IH (S idx) data H) as (i & Hi & ->). exists i. split; [lia | reflexivity].
Qed.

Lemma buttonsFrom_NoDup options : forall idx,
  List.NoDup (map callback_data (buttonsFrom requestId options idx)).
Proof.
  induction options as [|o rest IH]; intros idx; cbn [buttonsFrom map]; constructor.
  - intros H. apply buttonsFrom_data in H as (i & Hi & H). cbn [callback_data] in H.
    apply app_inv_head in H. apply app_inv_head in H. apply app_inv_head in H.
    apply decimal_inj in H. lia.
  - apply IH.
Qed.

(** X9. The keyboard of a question. It has one row per option, in the
    order of the options, each with one button, and an empty row at the
    end. The label of a button is the option itself when that has at
    most 30 code units and never has more than 33; the callback data
    are "askuser:", the request identifier, ":" and the decimal index of
    the option, so no two buttons of a keyboard carry the same data. *)
Theorem askUser_keyboard (options : list jsstring) :
  let keyboard := createAskUserKeyboard requestId options in
  let buttons := concat keyboard in
  keyboard = map (fun b => [b]) buttons ++ [[]]
  /\ length buttons = length options
  /\ (forall i option,
        options !! i = Some option ->
        exists b,
          buttons !! i = Some b
          /\ (length (button_text b) <= BUTTON_LABEL_MAX_LENGTH + 3)%nat
          /\ ((length option <= BUTTON_LABEL_MAX_LENGTH)%nat -> button_text b = option)
          /\ callback_data b = lit "askuser:" ++ requestId ++ lit ":" ++ decimal i)
  /\ List.NoDup (map callback_data buttons).
Proof.
  cbv zeta. unfold createAskUserKeyboard, newInlineKeyboard.
  rewrite (askUserRows_eq options 0 [] : askUserRows requestId options 0 [[]] = _).
  cbn [app].
  assert (Hflat : forall bs : list Button, concat (map (fun b => [b]) bs ++ [[]]) = bs).
  { induction bs as [|b bs IH]; cbn; [reflexivity | now rewrite IH]. }
  rewrite Hflat. split; [reflexivity|].
  split; [apply buttonsFrom_length|]. split.
  - intros i option H. eexists. split; [apply (buttonsFrom_lookup options 0 i option H)|].
    cbn [button_text callback_data Nat.add].
    split; [apply ellipsize_length|]. split; [apply ellipsize_short | reflexivity].
  - apply buttonsFrom_NoDup.
Qed.

End KeyboardFacts.

(** ** Voice transcription *)

(** The Google transcription is never the empty string: it is [null]
    unless some result has a transcript that is not empty. *)
Lemma transcribeWithGoogle_truthy s t :
  (transcribeWithGoogle s).1 = Some t -> t <> [].
Proof.
  unfold transcribeWithGoogle.
  destruct (googleSpeechClient s) as [[|[results|]]|]; cbn [fst option_map optTruthy];
    try discriminate.
  destruct (join (lit " ") (List.filter truthy (omap id results))) as [|c u];
    cbn [truthy]; [discriminate|].
  intros [= <-]. discriminate.
Qed.

Section TranscribeFacts.

Context (s : Speech).

Lemma google_calls : (transcribeWithGoogle s).2
                     = if isSome (googleSpeechClient s) then [Google] else [].
Proof.
  unfold transcribeWithGoogle. now destruct (googleSpeechClient s) as [[|results]|].
Qed.

Lemma openai_calls : (transcribeWithOpenAI s).2
                     = if isSome (openaiClient s) then [OpenAI] else [].
Proof.
  unfold transcribeWithOpenAI. now destruct (openaiClient s) as [[|text]|].
Qed.

(** The run of [transcribeVoice], by cases. *)
Lemma transcribeVoice_run :
  let other := match preferred s with Google => OpenAI | OpenAI => Google end in
  let primary := (streq (TRANSCRIPTION_PROVIDER s) (lit "google") && configured s Google)
                 || (streq (TRANSCRIPTION_PROVIDER s) (lit "openai") && configured s OpenAI) in
  transcribeVoice s
  = if negb (configured s Google) && negb (configured s OpenAI) then (None, [])
    else if optTruthy (answerOf s (preferred s)) then
           (answerOf s (preferred s), [preferred s])
    else if primary && configured s other then (answerOf s other, [preferred s; other])
    else if primary then (None, [preferred s])
    else (answerOf s (preferred s), [preferred s]).
Proof.
  cbv zeta. unfold transcribeVoice, preferred, configured, answerOf.
  pose proof google_calls as Hg. pose proof openai_calls as Ho.
  destruct (transcribeWithGoogle s) as [g cg], (transcribeWithOpenAI s) as [o co].
  cbn [fst snd] in *. subst cg co.
  destruct (streq (TRANSCRIPTION_PROVIDER s) (lit "google")) eqn:E1.
  - apply streq_true in E1. rewrite E1.
    replace (streq (lit "google") (lit "openai")) with false
      by (symmetry; vm_compute; reflexivity).
    destruct (googleSpeechClient s), (openaiClient s); cbn;
      destruct (optTruthy g); try reflexivity; destruct (optTruthy o); reflexivity.
  - destruct (streq (TRANSCRIPTION_PROVIDER s) (lit "openai")) eqn:E2;
      destruct (googleSpeechClient s), (openaiClient s); cbn;
      destruct (optTruthy g); try reflexivity; destruct (optTruthy o); reflexivity.
Qed.

Lemma preferred_configured :
  configured s Google || configured s OpenAI = true -> configured s (preferred s) = true.
Proof.
  unfold preferred, configured.
  destruct (streq _ _), (isSome (googleSpeechClient s)), (isSome (openaiClient s));
    cbn; congruence.
Qed.

Lemma preferred_openai :
  preferred s = OpenAI <->
  (streq (TRANSCRIPTION_PROVIDER s) (lit "openai") && configured s OpenAI
   || negb (configured s Google) && configured s OpenAI) = true
  \/ (configured s Google = false /\ configured s OpenAI = false).
Proof.
  unfold preferred, configured.
  destruct (streq _ _), (isSome (googleSpeechClient s)), (isSome (openaiClient s));
    cbn; intuition discriminate.
Qed.

Ltac case_pref :=
  destruct (preferred s) eqn:Epref; rewrite ?Epref in *;
  cbn [configured otherProvider] in *; congruence.

(** The three shapes of a run. *)
Lemma transcribeVoice_shape :
  (configured s Google = false /\ configured s OpenAI = false
   /\ transcribeVoice s = (None, []))
  \/ (configured s (preferred s) = true
      /\ exists r, transcribeVoice s = (r, [preferred s])
                   /\ (forall t, r = Some t -> answerOf s (preferred s) = Some t)
                   /\ (TRANSCRIPTION_PROVIDER s = lit "google"
                       \/ TRANSCRIPTION_PROVIDER s = lit "openai" ->
                       optTruthy r = false ->
                       configured s (otherProvider (preferred s)) = false))
  \/ (configured s (preferred s) = true
      /\ configured s (otherProvider (preferred s)) = true
      /\ (TRANSCRIPTION_PROVIDER s = lit "google"
          \/ TRANSCRIPTION_PROVIDER s = lit "openai")
      /\ optTruthy (answerOf s (preferred s)) = false
      /\ transcribeVoice s
         = (answerOf s (otherProvider (preferred s)),
            [preferred s; otherProvider (preferred s)])).
Proof.
  pose proof transcribeVoice_run as Hrun. cbv zeta in Hrun. rewrite Hrun. clear Hrun.
  fold (otherProvider (preferred s)).
  destruct (configured s Google) eqn:Eg, (configured s OpenAI) eqn:Eo; cbn [negb andb];
    [| | |left; auto].
  all: right.
  all: assert (Hp : configured s (preferred s) = true)
         by (apply preferred_configured; rewrite Eg, Eo; reflexivity).
  all: destruct (optTruthy (answerOf s (preferred s))) eqn:Ea;
         [left; split; [exact Hp|]; eexists; split; [reflexivity|];
          split; [auto | intros _ H; congruence]|].
  - (* both configured *)
    destruct (streq (TRANSCRIPTION_PROVIDER s) (lit "google")) eqn:E1;
      destruct (streq (TRANSCRIPTION_PROVIDER s) (lit "openai")) eqn:E2;
      cbn [andb orb].
    + right. apply streq_true in E1.
      assert (Ho' : configured s (otherProvider (preferred s)) = true)
        by (destruct (preferred s); assumption).
      rewrite Ho'. auto 6.
    + right. apply streq_true in E1.
      assert (Ho' : configured s (otherProvider (preferred s)) = true)
        by (destruct (preferred s); assumption).
      rewrite Ho'. auto 6.
    + right. apply streq_true in E2.
      assert (Ho' : configured s (otherProvider (preferred s)) = true)
        by (destruct (preferred s); assumption).
      rewrite Ho'. auto 6.
    + left. split; [exact Hp|]. eexists. split; [reflexivity|]. split; [auto|].
      intros [H | H]; [apply streq_false in E1 || idtac | idtac].
      * unfold streq in E1. apply bool_decide_eq_false in E1. contradiction.
      * unfold streq in E2. apply bool_decide_eq_false in E2. contradiction.
  - (* Google only *)
    assert (Hpref : preferred s = Google).
    { destruct (preferred s) eqn:E; [reflexivity|]. congruence. }
    rewrite Hpref in *. cbn [otherProvider]. rewrite Eo, !andb_false_r. cbn [orb].
    left. split; [exact Hp|].
    destruct (streq (TRANSCRIPTION_PROVIDER s) (lit "google") && true);
      eexists; (split; [reflexivity|]); (split; [intros t H; congruence || discriminate | auto]).
  - (* OpenAI only *)
    assert (Hpref : preferred s = OpenAI).
    { destruct (preferred s) eqn:E; [|reflexivity]. congruence. }
    rewrite Hpref in *. cbn [otherProvider]. rewrite Eg, !andb_false_r. cbn [orb].
    left. split; [exact Hp|].
    destruct (streq (TRANSCRIPTION_PROVIDER s) (lit "openai") && true);
      eexists; (split; [reflexivity|]); (split; [intros t H; congruence || discriminate | auto]).
Qed.

(** X18. Who is asked to transcribe. [transcribeVoice] never calls a
    provider whose client is not configured and never calls one twice;
    it calls none exactly when none is configured. OpenAI is asked first
    exactly when it is the configured provider and has a client, or is
    the only one with a client. A second provider is asked only after
    the first gave nothing usable, and a transcript that is returned is
    the answer of the last provider asked. When the provider setting
    names neither "google" nor "openai", Google alone is asked if it has
    a client: there is no fallback then. *)
Theorem transcribeVoice_providers :
  let result := (transcribeVoice s).1 in
  let calls := (transcribeVoice s).2 in
  List.NoDup calls
  /\ (forall p, In p calls -> configured s p = true)
  /\ (calls = [] <-> configured s Google = false /\ configured s OpenAI = false)
  /\ (List.hd Google calls = OpenAI <->
      (streq (TRANSCRIPTION_PROVIDER s) (lit "openai") && configured s OpenAI
       || negb (configured s Google) && configured s OpenAI) = true)
  /\ (forall p q, calls = [p; q] -> optTruthy (answerOf s p) = false)
  /\ (forall t, result = Some t -> answerOf s (List.last calls Google) = Some t)
  /\ (TRANSCRIPTION_PROVIDER s <> lit "google" ->
      TRANSCRIPTION_PROVIDER s <> lit "openai" ->
      configured s Google = true -> calls = [Google]).
Proof.
  cbv zeta.
  destruct transcribeVoice_shape
    as [(Hg & Ho & ->) | [(Hp & r & -> & Hr & _) | (Hp & Hother & Hk & Ha & ->)]];
    cbn [fst snd List.hd List.last].
  - split; [constructor|]. split; [intros p []|].
    split; [tauto|]. rewrite Hg, Ho, andb_false_r. cbn.
    split; [split; discriminate|]. split; [discriminate|]. split; [discriminate|].
    discriminate.
  - split; [repeat constructor; intros []|].
    split; [intros p [<- | []]; exact Hp|].
    split; [split; [discriminate | intros [Hg Ho]; case_pref]|].
    split.
    { rewrite preferred_openai. split; [|tauto]. intros [H | [Hg Ho]]; [exact H|].
      case_pref. }
    split; [discriminate|]. split; [exact Hr|].
    intros H1 H2 Hg. f_equal. unfold preferred.
    rewrite (streq_false _ _ H2). cbn [andb]. unfold configured in Hg. now rewrite Hg.
  - assert (Hne : preferred s <> otherProvider (preferred s)) by (now destruct (preferred s)).
    split; [repeat constructor; cbn; intuition|].
    split; [intros p [<- | [<- | []]]; assumption|].
    split; [split; [discriminate | intros [Hg Ho]; case_pref]|].
    split.
    { rewrite preferred_openai. split; [|tauto]. intros [H | [Hg Ho]]; [exact H|].
      case_pref. }
    split; [intros p q [= <- <-]; exact Ha|]. split; [auto|].
    intros H1 H2 Hg. exfalso. tauto.
Qed.

(** X19. The fallback is complete. When the provider setting is "google"
    or "openai" and [transcribeVoice] comes back with nothing usable,
    every provider with a client has been asked. *)
Theorem transcribeVoice_fallback (p : Provider) :
  TRANSCRIPTION_PROVIDER s = lit "google" \/ TRANSCRIPTION_PROVIDER s = lit "openai" ->
  optTruthy (transcribeVoice s).1 = false ->
  configured s p = true ->
  In p (transcribeVoice s).2.
Proof.
  intros Hknown Hres Hconf.
  destruct transcribeVoice_shape
    as [(Hg & Ho & _) | [(Hp & r & Hrun & _ & Hno) | (Hp & Hother & _ & Ha & Hrun)]].
  - destruct p; congruence.
  - rewrite Hrun in *. cbn [fst snd] in *. specialize (Hno Hknown Hres).
    left. destruct p; case_pref.
  - rewrite Hrun. cbn [snd]. destruct p, (preferred s); cbn; auto.
Qed.

End TranscribeFacts.

Lemma calls_available s :
  (configured s Google || configured s OpenAI = true <-> (transcribeVoice s).2 <> [])
  /\ (TRANSCRIPTION_PROVIDER s = lit "google" -> configured s Google = true ->
      List.hd OpenAI (transcribeVoice s).2 = Google).
Proof.
  assert (Hpref : TRANSCRIPTION_PROVIDER s = lit "google" -> configured s Google = true ->
                  preferred s = Google).
  { intros Hp Hc. unfold preferred. rewrite Hp.
    replace (streq (lit "google") (lit "openai")) with false
      by (symmetry; vm_compute; reflexivity).
    cbn [andb]. unfold configured in Hc. now rewrite Hc. }
  destruct (transcribeVoice_shape s)
    as [(Hg0 & Ho0 & ->) | [(Hp & r & -> & _) | (Hp & _ & _ & _ & ->)]]; cbn [snd List.hd].
  - rewrite Hg0, Ho0. split; [split; [discriminate | congruence]|]. intros _. congruence.
  - split; [|auto]. split; [discriminate|]. intros _.
    destruct (preferred s); rewrite Hp; [reflexivity | apply orb_true_r].
  - split; [|auto]. split; [discriminate|]. intros _.
    destruct (preferred s); rewrite Hp; [reflexivity | apply orb_true_r].
Qed.

(** X20. Availability. The configuration reports transcription as available
    exactly when [transcribeVoice] has a provider to call; and when the
    provider is not set, Google is the one called first whenever its
    credentials are set. *)
Theorem transcription_available (provider_env google_env openai_env : option jsstring)
    (recognize : Recognition) (whisper : Whisper) :
  let s := speechOf provider_env google_env openai_env recognize whisper in
  (TRANSCRIPTION_AVAILABLE google_env openai_env = true <-> (transcribeVoice s).2 <> [])
  /\ (envOr provider_env [] = [] ->
      truthy (GOOGLE_APPLICATION_CREDENTIALS google_env) = true ->
      List.hd OpenAI (transcribeVoice s).2 = Google).
Proof.
  cbv zeta.
  destruct (calls_available (speechOf provider_env google_env openai_env recognize whisper))
    as [Hiff Hhd].
  split.
  - rewrite <- Hiff. unfold TRANSCRIPTION_AVAILABLE, configured, speechOf.
    cbn [googleSpeechClient openaiClient].
    now destruct (truthy (GOOGLE_APPLICATION_CREDENTIALS google_env)),
      (truthy (OPENAI_API_KEY openai_env)).
  - intros Hp Hg. apply Hhd.
    + cbn [speechOf TRANSCRIPTION_PROVIDER]. unfold envOr in *.
      destruct provider_env as [[|c t]|];
        cbn [optTruthy truthy default from_option id] in *; try reflexivity; discriminate.
    + cbn [configured speechOf googleSpeechClient]. now rewrite Hg.
Qed.

Lemma transcribeVoice_fallback_witness : In OpenAI (transcribeVoice sampleSpeech).2.
Proof.
  apply (transcribeVoice_fallback sampleSpeech OpenAI).
  - left. reflexivity.
  - reflexivity.
  - reflexivity.
Defined.

(** ** Environment set-up *)

Section SplitJoin.

Context (sep : N).

Lemma split_not_nil s : split sep s <> [].
Proof.
  destruct s as [|c t]; cbn [split]; [discriminate|].
  destruct (c =? sep); [discriminate|]. now destruct (split sep t).
Qed.

Lemma join_cons_cons x y rest :
  join [sep] (x :: y :: rest) = x ++ sep :: join [sep] (y :: rest).
Proof. reflexivity. Qed.

(** Joining what was split gives the string back. *)
Lemma join_split s : join [sep] (split sep s) = s.
Proof.
  induction s as [|c t IH]; [reflexivity|]. cbn [split].
  destruct (N.eqb_spec c sep) as [-> | Hne].
  - pose proof (split_not_nil t) as Hnil.
    destruct (split sep t) as [|h r] eqn:E; [contradiction|].
    rewrite join_cons_cons, IH. reflexivity.
  - pose proof (split_not_nil t) as Hnil.
    destruct (split sep t) as [|h r] eqn:E; [contradiction|].
    destruct r as [|h' r].
    + cbn [join] in *. now rewrite IH.
    + rewrite join_cons_cons in *. cbn [app]. now rewrite IH.
Qed.

Lemma split_no_sep s : Forall (fun p => ~ In sep p) (split sep s).
Proof.
  induction s as [|c t IH]; cbn [split].
  - repeat constructor. intros [].
  - destruct (N.eqb_spec c sep) as [-> | Hne].
    + constructor; [intros [] | exact IH].
    + destruct (split sep t) as [|h r]; [repeat constructor; intros [H|[]]; congruence|].
      inversion IH as [|? ? Hh Hr]; subst. constructor; [|exact Hr].
      intros [H | H]; [congruence | contradiction].
Qed.

Lemma split_app_sep p s : ~ In sep p -> split sep (p ++ sep :: s) = p :: split sep s.
Proof.
  induction p as [|c p IH]; intros Hp; cbn [app split].
  - now rewrite N.eqb_refl.
  - destruct (N.eqb_spec c sep) as [-> | Hne]; [exfalso; apply Hp; now left|].
    rewrite IH by (intros H; apply Hp; now right). reflexivity.
Qed.

Lemma split_plain p : ~ In sep p -> split sep p = [p].
Proof.
  induction p as [|c p IH]; intros Hp; cbn [split]; [reflexivity|].
  destruct (N.eqb_spec c sep) as [-> | Hne]; [exfalso; apply Hp; now left|].
  rewrite IH by (intros H; apply Hp; now right). reflexivity.
Qed.

(** Splitting what was joined gives the parts back, when no part
    holds the separator. *)
Lemma split_join parts :
  parts <> [] -> Forall (fun p => ~ In sep p) parts -> split sep (join [sep] parts) = parts.
Proof.
  induction parts as [|x rest IH]; intros Hne Hall; [contradiction|].
  inversion Hall as [|? ? Hx Hrest]; subst.
  destruct rest as [|y rest].
  - cbn [join]. now apply split_plain.
  - rewrite join_cons_cons, split_app_sep by assumption.
    rewrite IH; [reflexivity | discriminate | assumption].
Qed.

End SplitJoin.

Lemma arrayIncludes_In a x : arrayIncludes a x = true <-> In x a.
Proof.
  unfold arrayIncludes. rewrite existsb_exists. split.
  - intros (y & Hy & E). apply streq_true in E. now subst.
  - intros H. exists x. split; [assumption | apply streq_refl].
Qed.

Section PathFacts.

Context (HOME : jsstring).

Local Abbreviation addExtra :=
  (fun (pathParts : list jsstring) (extraPath : jsstring) =>
     if negb (arrayIncludes pathParts extraPath) then extraPath :: pathParts
     else pathParts).

Lemma addExtras_run extras : forall parts,
  exists added,
    fold_left addExtra extras parts = added ++ parts
    /\ (forall e, In e added -> In e extras /\ ~ In e parts)
    /\ List.NoDup added
    /\ (forall e, In e extras -> In e (added ++ parts)).
Proof.
  induction extras as [|x extras IH]; intros parts; cbn [fold_left].
  - exists []. split; [reflexivity|]. split; [intros e []|].
    split; [constructor | intros e []].
  - destruct (arrayIncludes parts x) eqn:E; cbn [negb].
    + apply arrayIncludes_In in E.
      destruct (IH parts) as (added & Hrun & Hadded & Hnd & Hall).
      exists added. split; [exact Hrun|]. split.
      { intros e He. destruct (Hadded e He). split; [now right | assumption]. }
      split; [exact Hnd|].
      intros e [<- | He]; [apply in_app_iff; now right | now apply Hall].
    + assert (Hx : ~ In x parts).
      { intros H. apply arrayIncludes_In in H. congruence. }
      destruct (IH (x :: parts)) as (added & Hrun & Hadded & Hnd & Hall).
      exists (added ++ [x]). rewrite <- app_assoc. split; [exact Hrun|]. split.
      { intros e He. apply in_app_iff in He as [He | [<- | []]].
        - destruct (Hadded e He) as [H1 H2]. split; [now right|].
          intros H. apply H2. now right.
        - split; [now left | assumption]. }
      split.
      { apply List.NoDup_app; [exact Hnd | repeat constructor; intros [] |].
        intros e He [Heq | []]. destruct (Hadded e He) as [_ H]. apply H. now left. }
      intros e [<- | He].
      * apply in_app_iff. right. now left.
      * now apply Hall.
Qed.

Lemma addExtras_present extras : forall parts,
  (forall e, In e extras -> In e parts) -> fold_left addExtra extras parts = parts.
Proof.
  induction extras as [|x extras IH]; intros parts H; cbn [fold_left]; [reflexivity|].
  assert (Hx : arrayIncludes parts x = true) by (apply arrayIncludes_In, H; now left).
  rewrite Hx. cbn [negb]. apply IH. intros e He. apply H. now right.
Qed.

Lemma envOr_some x : envOr (Some x) [] = x.
Proof. unfold envOr. now destruct x. Qed.

Lemma join_app_suffix sep added parts :
  parts <> [] -> exists prefix, join sep (added ++ parts) = prefix ++ join sep parts.
Proof.
  intros Hne. induction added as [|x added IH]; [now exists []|].
  destruct IH as (prefix & IH). cbn [app join].
  destruct (added ++ parts) as [|y rest] eqn:E.
  - destruct added; [cbn in E; contradiction | discriminate].
  - exists (x ++ sep ++ prefix). rewrite IH, <- !app_assoc. reflexivity.
Qed.

(** X21. The search path. Every extra directory is an entry of the new
    search path; the entries of the old one are all kept, in their
    order and after the new ones, so the old value is a suffix of the
    new; and only extra directories that were not entries already are
    put in front, each once. *)
Theorem path_augmented (PATH : option jsstring) :
  let old := split 58 (envOr PATH []) in
  let parts := pathParts HOME PATH in
  (forall e, In e (EXTRA_PATHS HOME) -> In e parts)
  /\ (exists added,
        parts = added ++ old
        /\ (forall e, In e added -> In e (EXTRA_PATHS HOME) /\ ~ In e old)
        /\ List.NoDup added)
  /\ (exists prefix, augmentedPath HOME PATH = prefix ++ envOr PATH []).
Proof.
  cbv zeta. unfold augmentedPath, pathParts.
  destruct (addExtras_run (EXTRA_PATHS HOME) (split 58 (envOr PATH [])))
    as (added & -> & Hadded & Hnd & Hall).
  split; [exact Hall|]. split; [now exists added|].
  destruct (join_app_suffix (lit ":") added (split 58 (envOr PATH [])) (split_not_nil _ _))
    as (prefix & ->).
  exists prefix. f_equal. apply (join_split 58).
Qed.

(** X22. Setting the search path twice changes nothing more, as long as
    the home directory has no colon in its name. *)
Theorem path_idempotent (PATH : option jsstring) :
  ~ In 58 HOME ->
  augmentedPath HOME (Some (augmentedPath HOME PATH)) = augmentedPath HOME PATH.
Proof.
  intros Hhome. unfold augmentedPath at 1 3. f_equal.
  unfold pathParts at 1. rewrite envOr_some. unfold augmentedPath.
  assert (Hparts : pathParts HOME PATH <> []
                   /\ Forall (fun p => ~ In 58 p) (pathParts HOME PATH)
                   /\ forall e, In e (EXTRA_PATHS HOME) -> In e (pathParts HOME PATH)).
  { unfold pathParts.
    destruct (addExtras_run (EXTRA_PATHS HOME) (split 58 (envOr PATH [])))
      as (added & -> & Hadded & _ & Hall).
    split.
    { pose proof (split_not_nil 58 (envOr PATH [])). now destruct added, (split 58 _). }
    split; [|exact Hall].
    apply Forall_app. split; [|apply split_no_sep].
    apply Forall_forall. intros e He. apply list_elem_of_In in He.
    destruct (Hadded e He) as [Hin _]. unfold EXTRA_PATHS in Hin. cbn [In] in Hin.
    destruct Hin as [<- | [<- | [<- | [<- | [<- | []]]]]];
      try (intros H; apply in_app_iff in H as [H | H];
           [contradiction | revert H; vm_compute; intuition discriminate]);
      vm_compute; intuition discriminate. }
  destruct Hparts as (Hne & Hcolon & Hall).
  change (lit ":") with [58]. rewrite (split_join 58 _ Hne Hcolon).
  now apply addExtras_present.
Qed.

End PathFacts.

Lemma path_idempotent_witness :
  augmentedPath (lit "/home/joe") (Some (augmentedPath (lit "/home/joe")
                                           (Some (lit "/usr/local/bin:/usr/bin"))))
  = augmentedPath (lit "/home/joe") (Some (lit "/usr/local/bin:/usr/bin")).
Proof.
  apply (path_idempotent (lit "/home/joe") (Some (lit "/usr/local/bin:/usr/bin"))).
  vm_compute. intuition discriminate.
Defined.

Lemma filter_nil_iff {A} (f : A -> bool) l :
  List.filter f l = [] <-> Forall (fun x => f x = false) l.
Proof.
  induction l as [|x l IH]; cbn [List.filter].
  - split; [constructor | reflexivity].
  - destruct (f x) eqn:E.
    + split; [discriminate | intros H; inversion H; congruence].
    + rewrite IH. split; [now constructor | intros H; now inversion H].
Qed.

Lemma split_blank sep s :
  Forall blank (split sep s) <-> Forall (fun c => c = sep \/ isWhiteSpace c = true) s.
Proof.
  induction s as [|c t IH]; cbn [split].
  - split; intros _; repeat constructor.
  - destruct (N.eqb_spec c sep) as [-> | Hne].
    + split.
      * intros H. inversion H; subst. constructor; [now left | now apply IH].
      * intros H. inversion H; subst. constructor; [constructor | now apply IH].
    + pose proof (split_not_nil sep t) as Hnil.
      destruct (split sep t) as [|h r]; [contradiction|]. split.
      * intros H. inversion H as [|? ? Hh Hr]; subst. inversion Hh; subst.
        constructor; [now right|]. apply IH. now constructor.
      * intros H. inversion H as [|? ? Hc Ht]; subst.
        destruct Hc as [-> | Hc]; [contradiction|].
        apply IH in Ht. inversion Ht; subst. constructor; [now constructor | assumption].
Qed.

Section AllowedPaths.

Context (HOME : jsstring) (CLAUDE_WORKING_DIR ALLOWED_PATHS_env : option jsstring).

(** X23. The allowed directories. When the environment variable is unset or
    empty the defaults apply, the working directory first. Otherwise the
    entries are the parts between commas, with the white space around
    each removed and the empty ones dropped: no entry is empty, has
    white space at either end or holds a comma, and there is no entry
    at all, not even a default, exactly when the variable holds nothing
    but commas and white space. *)
Theorem allowed_paths_from_env :
  let allowedPathsStr := envOr ALLOWED_PATHS_env [] in
  let paths := ALLOWED_PATHS HOME CLAUDE_WORKING_DIR ALLOWED_PATHS_env in
  (allowedPathsStr = [] ->
   paths = defaultAllowedPaths HOME CLAUDE_WORKING_DIR
   /\ List.hd [] paths = envOr CLAUDE_WORKING_DIR HOME)
  /\ (allowedPathsStr <> [] ->
      Forall (fun p => p <> [] /\ trim p = p /\ ~ In 44 p) paths
      /\ (forall p, In p paths <-> p <> [] /\ exists q, In q (split 44 allowedPathsStr) /\ p = trim q)
      /\ (paths = [] <->
          Forall (fun c => c = 44 \/ isWhiteSpace c = true) allowedPathsStr)).
Proof.
  cbv zeta. unfold ALLOWED_PATHS. destruct (envOr ALLOWED_PATHS_env []) as [|c t] eqn:E.
  - cbn [truthy]. split; [intros _; split; reflexivity | congruence].
  - cbn [truthy]. split; [discriminate|]. intros _.
    set (str := c :: t).
    assert (Hin : forall p, In p (List.filter truthy (map trim (split 44 str)))
                            <-> p <> [] /\ exists q, In q (split 44 str) /\ p = trim q).
    { intros p. rewrite filter_In, in_map_iff. split.
      - intros [(q & <- & Hq) Hp]. split; [now destruct (trim q) | eauto].
      - intros [Hp (q & Hq & ->)]. split; [eauto | now destruct (trim q)]. }
    split; [|split; [exact Hin|]].
    + apply Forall_forall. intros p Hp. apply list_elem_of_In, Hin in Hp.
      destruct Hp as [Hne (q & Hq & ->)]. split; [exact Hne|].
      split; [apply trim_idempotent|].
      intros H. pose proof (split_no_sep 44 str) as Hsep.
      rewrite Forall_forall in Hsep. apply (Hsep q); [now apply list_elem_of_In|].
      destruct (trim_split q) as (l & r & _ & _ & Hq'). rewrite Hq'.
      apply in_app_iff. right. apply in_app_iff. now left.
    + rewrite <- (split_blank 44 str), filter_nil_iff, Forall_map.
      split; intros H; eapply Forall_impl; try exact H; cbn; intros q Hq.
      * apply trim_nil_blank. now destruct (trim q).
      * apply trim_nil_blank in Hq. now rewrite Hq.
Qed.

End AllowedPaths.

(** ** Archives *)

Section ArchiveFacts.

Context (toLowerCase : jsstring -> jsstring).

(** X24. Archives and their extraction. A file name is taken for an archive
    exactly when [getArchiveExtension] finds an extension, which is then
    one of the four archive extensions and ends the lower-cased name.
    For such a name [extractArchive] never throws "Unknown archive
    type": after [mkdir] it runs [unzip] or [tar], exactly one of them,
    and fails only if a command fails. For any other name it runs
    neither and, once [mkdir] has succeeded, throws "Unknown archive
    type". *)
Theorem archive_extension (shellFails : ShellCommand -> option jsstring)
    (now fileName : jsstring) :
  let ext := getArchiveExtension toLowerCase fileName in
  let run := extractArchive toLowerCase shellFails now fileName in
  (isArchive toLowerCase fileName = true <-> ext <> [])
  /\ (isArchive toLowerCase fileName = true ->
      In ext ARCHIVE_EXTENSIONS
      /\ endsWith (toLowerCase fileName) ext = true
      /\ (shellFails Mkdir = None -> run.1 = [Mkdir; Unzip] \/ run.1 = [Mkdir; Tar])
      /\ (forall e, run.2 = Thrown e -> exists c, In c run.1 /\ shellFails c = Some e)
      /\ ((forall c, shellFails c = None) ->
          run.2 = Returned (TEMP_DIR ++ lit "/archive_" ++ now)))
  /\ (isArchive toLowerCase fileName = false ->
      run.1 = [Mkdir]
      /\ (shellFails Mkdir = None ->
          run.2 = Thrown (lit "Error: Unknown archive type: "))).
Proof.
  cbv zeta. unfold isArchive, extractArchive, getArchiveExtension, ARCHIVE_EXTENSIONS.
  cbn [existsb].
  destruct (endsWith (toLowerCase fileName) (lit ".tar.gz")) eqn:E1;
    destruct (endsWith (toLowerCase fileName) (lit ".tgz")) eqn:E2;
    destruct (endsWith (toLowerCase fileName) (lit ".tar")) eqn:E3;
    destruct (endsWith (toLowerCase fileName) (lit ".zip")) eqn:E4;
    cbn [orb];
    (split; [split; [discriminate || reflexivity
                    | intros H; reflexivity || (exfalso; now apply H)]|]);
    (split; [intros H; try discriminate H | intros H; try discriminate H]).
  all: try (split; [cbn; tauto|]; split; [assumption|]).
  all: try match goal with
           | |- context [streq ?a ?b] =>
               let v := eval vm_compute in (streq a b) in
               change (streq a b) with v
           end.
  all: repeat match goal with
              | |- context [streq ?a ?b] =>
                  let v := eval vm_compute in (streq a b) in
                  change (streq a b) with v
              end; cbn [orb].
  all: destruct (shellFails Mkdir) as [e0|] eqn:Em;
       try destruct (shellFails Unzip) as [e1|] eqn:Eu;
       try destruct (shellFails Tar) as [e2|] eqn:Et; cbn [fst snd].
  all: try (split; [reflexivity | intros; congruence || reflexivity]).
  all: split; [intros; (discriminate || (left; reflexivity) || (right; reflexivity))|].
  all: split;
       [ intros e [= <-]; eauto using in_eq, in_cons
       | intros Hok; try reflexivity;
         try (rewrite Hok in Em; discriminate);
         try (rewrite Hok in Eu; discriminate);
         try (rewrite Hok in Et; discriminate) ].
Qed.

Lemma totalLength_app a b : totalLength (a ++ b) = (totalLength a + totalLength b)%nat.
Proof. unfold totalLength. now rewrite map_app, list_sum_app. Qed.

Lemma totalLength_cons c l : totalLength (c :: l) = (length c.2 + totalLength l)%nat.
Proof. reflexivity. Qed.

Lemma excerpt_length files p : (length (excerpt files p) <= N.to_nat 10000)%nat.
Proof. unfold excerpt, slice. rewrite length_firstn. lia. Qed.

(** One round of the loop of [extractArchiveContent]. *)
Lemma collectContents_step files p rest contents totalSize :
  collectContents toLowerCase files (p :: rest) contents totalSize
  = if readable toLowerCase files p then
      if (MAX_ARCHIVE_CONTENT <? totalSize + length (excerpt files p))%nat then contents
      else collectContents toLowerCase files rest (contents ++ [(p, excerpt files p)])
             (totalSize + length (excerpt files p))
    else collectContents toLowerCase files rest contents totalSize.
Proof.
  cbn [collectContents]. unfold readable, excerpt.
  destruct (fileExists files p); cbn [negb andb]; [|reflexivity].
  destruct (fileSize files p =? 0); cbn [negb andb]; [reflexivity|].
  destruct (arrayIncludes TEXT_EXTENSIONS _); cbn [negb andb]; [|reflexivity].
  destruct (100000 <? fileSize files p); cbn [negb andb]; [reflexivity|].
  now destruct (fileText files p).
Qed.

(** The loop of [extractArchiveContent], from any point on. *)
Lemma collectContents_run files : forall tree contents totalSize,
  exists k,
    let candidates := List.filter (readable toLowerCase files) tree in
    let more := map (fun p => (p, excerpt files p)) (firstn k candidates) in
    collectContents toLowerCase files tree contents totalSize = contents ++ more
    /\ (k <= length candidates)%nat
    /\ (totalSize <= MAX_ARCHIVE_CONTENT -> totalSize + totalLength more <= MAX_ARCHIVE_CONTENT)%nat
    /\ (forall next, nth_error candidates k = Some next ->
                     (MAX_ARCHIVE_CONTENT
                      < totalSize + totalLength more + length (excerpt files next))%nat).
Proof.
  induction tree as [|p rest IH]; intros contents totalSize; cbv zeta.
  - exists 0%nat. cbn. rewrite app_nil_r. repeat split; try lia. discriminate.
  - rewrite collectContents_step. cbn [List.filter].
    destruct (readable toLowerCase files p); [|apply IH].
    destruct (Nat.ltb_spec MAX_ARCHIVE_CONTENT (totalSize + length (excerpt files p)))
      as [Hover | Hfits].
    + exists 0%nat. cbn [firstn map nth_error length]. rewrite app_nil_r.
      split; [reflexivity|]. split; [lia|]. split; [cbn; lia|].
      intros next [= <-]. cbn. lia.
    + destruct (IH (contents ++ [(p, excerpt files p)])
                  (totalSize + length (excerpt files p))%nat)
        as (k & Hrun & Hk & Hsum & Hnext).
      cbv zeta in Hrun, Hk, Hsum, Hnext.
      exists (S k). cbn [firstn map nth_error length].
      split; [now rewrite Hrun, <- app_assoc|]. split; [lia|].
      rewrite !totalLength_cons. cbn [snd].
      split; [intros _; specialize (Hsum Hfits); lia|].
      intros next H. specialize (Hnext next H). lia.
Qed.

(** X26. The text taken from an archive. [extractArchiveContent] takes the
    files of the tree that exist, are not empty, have a text extension,
    are at most 100000 bytes and can be read, in the order of the tree,
    each cut to its first 10000 code units, and stops for good at the
    first of them that would bring the total over 50000: what it
    returns is a prefix of those files, never exceeds the budget, and
    the file after the last one taken, if there is one, did not fit. *)
Theorem archive_content_budget (files : Files) (entries : list jsstring) :
  let tree := (extractArchiveContent toLowerCase files entries).1 in
  let contents := (extractArchiveContent toLowerCase files entries).2 in
  let candidates := List.filter (readable toLowerCase files) tree in
  tree = buildFileTree entries
  /\ contents = map (fun p => (p, excerpt files p)) (firstn (length contents) candidates)
  /\ (length contents <= length candidates)%nat
  /\ (totalLength contents <= MAX_ARCHIVE_CONTENT)%nat
  /\ Forall (fun c => (length c.2 <= N.to_nat 10000)%nat) contents
  /\ (forall next, nth_error candidates (length contents) = Some next ->
                   (MAX_ARCHIVE_CONTENT < totalLength contents + length (excerpt files next))%nat).
Proof.
  cbv zeta. unfold extractArchiveContent. cbn [fst snd].
  destruct (collectContents_run files (buildFileTree entries) [] 0)
    as (k & Hrun & Hk & Hsum & Hnext).
  cbv zeta in Hrun, Hk, Hsum, Hnext. cbn [app Nat.add] in Hrun, Hsum, Hnext.
  rewrite Hrun.
  assert (Hlen : length (map (fun p => (p, excerpt files p))
                           (firstn k (List.filter (readable toLowerCase files)
                                        (buildFileTree entries)))) = k).
  { rewrite length_map, length_firstn. lia. }
  rewrite Hlen. split; [reflexivity|]. split; [reflexivity|]. split; [exact Hk|].
  split; [apply Hsum; lia|]. split; [|exact Hnext].
  apply Forall_forall. intros c Hc. apply list_elem_of_In, in_map_iff in Hc.
  destruct Hc as (p & <- & _). apply excerpt_length.
Qed.

End ArchiveFacts.

(** *** The order of the file tree *)

Lemma lexle_refl a : lexle a a = true.
Proof. induction a as [|x a IH]; cbn [lexle]; [reflexivity|]. now rewrite N.ltb_irrefl. Qed.

Lemma lexle_total a : forall b, lexle a b = true \/ lexle b a = true.
Proof.
  induction a as [|x a IH]; intros [|y b]; cbn [lexle]; auto.
  destruct (N.ltb_spec x y), (N.ltb_spec y x); auto; lia.
Qed.

Lemma lexle_trans a : forall b c, lexle a b = true -> lexle b c = true -> lexle a c = true.
Proof.
  induction a as [|x a IH]; intros [|y b] [|z c]; cbn [lexle]; auto; try discriminate.
  destruct (N.ltb_spec x y), (N.ltb_spec y x), (N.ltb_spec y z), (N.ltb_spec z y),
    (N.ltb_spec x z), (N.ltb_spec z x); auto; try discriminate; try lia.
  apply IH.
Qed.

Local Abbreviation lex := (fun a b : jsstring => lexle a b = true).

Lemma insertSorted_perm x l : Permutation (x :: l) (insertSorted x l).
Proof.
  induction l as [|y l IH]; cbn [insertSorted]; [reflexivity|].
  destruct (lexle x y); [reflexivity|].
  rewrite perm_swap. now constructor.
Qed.

Lemma sortStrings_perm l : Permutation l (sortStrings l).
Proof.
  induction l as [|x l IH]; cbn [sortStrings]; [reflexivity|].
  rewrite <- insertSorted_perm. now constructor.
Qed.

Lemma insertSorted_sorted x l :
  StronglySorted lex l -> StronglySorted lex (insertSorted x l).
Proof.
  induction 1 as [|y l Hl IH Hy]; cbn [insertSorted]; [repeat constructor|].
  destruct (lexle x y) eqn:E.
  - constructor; [now constructor|]. constructor; [exact E|].
    eapply List.Forall_impl; [|exact Hy]. intros z Hz. now apply (lexle_trans x y z).
  - constructor; [exact IH|].
    assert (Hyx : lexle y x = true) by (destruct (lexle_total x y); congruence).
    rewrite List.Forall_forall in *. intros z Hz.
    apply (Permutation_in _ (Permutation_sym (insertSorted_perm x l))) in Hz.
    destruct Hz as [<- | Hz]; [exact Hyx | now apply Hy].
Qed.

Lemma sortStrings_sorted l : StronglySorted lex (sortStrings l).
Proof.
  induction l as [|x l IH]; cbn [sortStrings]; [constructor | now apply insertSorted_sorted].
Qed.

Lemma StronglySorted_split {A} (R : A -> A -> Prop) l1 : forall l2,
  StronglySorted R (l1 ++ l2) ->
  StronglySorted R l1 /\ forall p q, In p l1 -> In q l2 -> R p q.
Proof.
  induction l1 as [|x l1 IH]; intros l2 H; cbn [app] in H.
  - split; [constructor | intros p q []].
  - inversion H as [|? ? Hs Hx]; subst. destruct (IH l2 Hs) as [H1 H2].
    rewrite List.Forall_forall in Hx. split.
    + constructor; [exact H1|]. apply List.Forall_forall. intros z Hz. apply Hx.
      apply in_app_iff. now left.
    + intros p q [<- | Hp] Hq; [apply Hx, in_app_iff; now right | now apply H2].
Qed.

(** X25. The file tree. [buildFileTree] returns at most 100 paths, in the
    order of their code units; they are the first 100 of the sorted
    entries, so every entry left out comes after every path of the tree,
    and nothing is left out when there are at most 100 entries. *)
Theorem file_tree_sorted (entries : list jsstring) :
  let tree := buildFileTree entries in
  (length tree <= 100)%nat
  /\ StronglySorted (fun a b => lexle a b = true) tree
  /\ (exists rest,
        Permutation entries (tree ++ rest)
        /\ forall p q, In p tree -> In q rest -> lexle p q = true)
  /\ ((length entries <= 100)%nat -> Permutation entries tree).
Proof.
  cbv zeta. unfold buildFileTree.
  pose proof (sortStrings_perm entries) as Hperm.
  pose proof (sortStrings_sorted entries) as Hsorted.
  rewrite <- (firstn_skipn 100 (sortStrings entries)) in Hsorted, Hperm.
  apply StronglySorted_split in Hsorted as [Hs Hrest].
  split; [rewrite length_firstn; lia|]. split; [exact Hs|].
  split; [exists (skipn 100 (sortStrings entries)); now split|].
  intros Hlen. rewrite firstn_skipn in Hperm.
  rewrite firstn_all2; [apply sortStrings_perm|].
  rewrite <- (Permutation_length (sortStrings_perm entries)). exact Hlen.
Qed.
